(** * IssueBot: the repository synchronisation pipeline

    Shallow embedding of [src/api/repository.js] (the socket handlers
    [PARSE_REPOSITORY_URL] and [REPOSITORY_SYNC] with their [async.auto]
    task graph) and of the [Repository] model (its [transformFields] and
    [train] methods and its unique index).

    The program is callback driven: every task body runs up to its next
    asynchronous call and is resumed when that call completes.  A run is
    therefore a state machine whose transitions are the completions of the
    pending asynchronous calls, taken in any order the event loop delivers
    them.  Everything observable (progress events, collaborator calls, task
    callbacks, the reply to the caller) is appended to a log. *)

From Stdlib Require Import List String Ascii ZArith QArith Bool Arith Lia.
Import ListNotations.

Local Open Scope list_scope.

(** ** Data *)

(** The value a collaborator fails with, a truthy one as errors are.  Only
    its [message] property is ever read, and nothing makes sure it has
    one: [message] is [None] for an error value without a message. *)
Record JsError := { message : option string }.

(** The object [parse-github-url] returns; a missing part is [null]. *)
Record ParsedUrl := {
  pu_owner : option string;
  pu_name : option string;
  pu_repo : option string
}.

(** What [github.repos.get] answers (the fields the code reads, and one of
    the many it drops). *)
Record GitHubRepo := {
  gh_id : Z;
  gh_owner_login : string;
  gh_name : string;
  gh_description : string;
  gh_stargazers_count : Z
}.

(** The [Repository] model: [owner], [name], [description], [token], and
    the primary key [id]. *)
Record Repository := {
  repo_id : Z;
  repo_owner : string;
  repo_name : string;
  repo_description : string;
  repo_token : option string
}.

(** A raw issue as the issue fetcher returns it. *)
Record GitHubIssue := {
  gi_id : Z;
  gi_number : Z;
  gi_title : string;
  gi_labels : list string
}.

(** An [Issue] record; [repository_id] is the foreign key to [Repository]. *)
Record Issue := {
  issue_id : Z;
  issue_number : Z;
  issue_title : string;
  issue_labels : list string;
  repository_id : option Z
}.

(** The trainer's answer; the fields are those [Repository.train] picks. *)
Record Summary := {
  score : Q;
  wrong : Z;
  total : Z;
  percentage : Q;
  newly_labeled_issues : Z
}.

(** The keys of the object given to [async.auto]. *)
Inductive TaskKey := K_repo | K_issues | K_records | K_webhooks | K_train.

(** [REPOSITORY_SYNC_TASKS], the stage names carried by progress events. *)
Inductive Stage := REPO | ISSUES | DATABASE | WEBHOOK | TRAIN.

(** The argument of [progress]: [{task, percent, message}]. *)
Record ProgressData := {
  task : Stage;
  percent : Q;
  msg : option string
}.

(** Values that travel through task callbacks and the results object. *)
Inductive Value :=
| VUndefined
| VRepo (r : Repository)
| VIssues (l : list Issue)
| VSummary (t : Summary).

Definition Results := list (TaskKey * Value).

(** Calls into the collaborators. *)
Inductive Call :=
| CReposGet (user : option string) (repo : string)
| CGetIssues (user : option string) (repo : string)
| CUpsert (r : Repository)
| CDestroy (rid : Z)
| CBulkCreate (l : list Issue)
| CCreateHook (user repo : string) (events : list string) (url : string)
| CTrain (owner name : string) (l : list Issue) (ignoreLabels : list string).

(** What happens inside one task. *)
Inductive Action :=
| Invoke
| Progress (d : ProgressData)
| Called (c : Call)
| Callback (err : option JsError) (v : Value)
| Throw.

(** First argument of the caller's callback when it is not [null]: the
    constant [ERRORS.MISSING_GITHUB], a message, or [undefined], which is
    what [err && err.message] gives for an error without a message. *)
Inductive CbError :=
| MISSING_GITHUB
| Msg (m : string)
| NoMessage.

(** The arguments [cb] of the [REPOSITORY_SYNC] handler is called with;
    [reply_err] is [None] for [null]. *)
Record Reply := {
  reply_err : option CbError;
  reply_results : option Results
}.

Inductive Event :=
| TaskEv (k : TaskKey) (a : Action)
| Join (room : string)
| Leave (room : string)
| CallerCb (r : Reply).

(** ** The persistence layer *)

Record DB := {
  repositories : list Repository;
  issue_rows : list Issue
}.

Module Db.

Definition same_key (a b : Repository) : bool :=
  String.eqb (repo_owner a) (repo_owner b) && String.eqb (repo_name a) (repo_name b).

(** Modelled from the spec: [Repository.upsert] is Sequelize's, not in
    src/.  Insert-or-update keyed by the unique [(owner, name)] pair: a
    row with the same pair is replaced, otherwise the record is added. *)
Fixpoint upsert_rows (r : Repository) (rows : list Repository) : list Repository :=
  match rows with
  | [] => [r]
  | x :: rest => if same_key x r then r :: rest else x :: upsert_rows r rest
  end.

Definition upsert (r : Repository) (d : DB) : DB :=
  {| repositories := upsert_rows r (repositories d); issue_rows := issue_rows d |}.

Definition belongs (rid : Z) (i : Issue) : bool :=
  match repository_id i with
  | Some x => Z.eqb x rid
  | None => false
  end.

(** Modelled from the spec: [Issue.destroy({where: {repository_id}})] is
    Sequelize's; it deletes all issues of that repository identity. *)
Definition destroy (rid : Z) (d : DB) : DB :=
  {| repositories := repositories d;
     issue_rows := filter (fun i => negb (belongs rid i)) (issue_rows d) |}.

(** Modelled from the spec: [Issue.bulkCreate] is Sequelize's; it inserts
    the given records and resolves with them. *)
Definition bulkCreate (l : list Issue) (d : DB) : DB :=
  {| repositories := repositories d; issue_rows := issue_rows d ++ l |}.

(** Modelled from the spec: [Repository.findById]. *)
Definition findById (rid : Z) (d : DB) : option Repository :=
  find (fun r => Z.eqb (repo_id r) rid) (repositories d).

(** Modelled from the spec: [Issue.findAll({where: {repository_id}})]. *)
Definition findAll (rid : Z) (d : DB) : list Issue :=
  filter (belongs rid) (issue_rows d).



End Db.

(** ** The environment of a run *)

(** The authenticated client [socket.github]. *)
Record GitHub := {
  repos_get : option string -> string -> JsError + GitHubRepo;
  repos_createHook : string -> string -> option JsError
}.

(** Everything the handler reaches outside itself.  The fetcher's answer is
    the list of percents it reports through [showProgress], then its
    result. *)
Record Env := {
  env_parseGitHubUrl : string -> option ParsedUrl;
  socket_github : option GitHub;
  socket_token : string;
  config_base_url : string;
  getIssues : option string -> string -> list Q * (JsError + list GitHubIssue);
  Issue_transformFields : GitHubIssue -> Issue;
  Repository_upsert : Repository -> option JsError;
  Issue_destroy : Z -> option JsError;
  Issue_bulkCreate : list Issue -> option JsError;
  classifier_train : string -> string -> list Issue -> list string -> JsError + Summary;
  db0 : DB
}.

(** [Repository.transformFields]: pick [id, owner, name, description] and
    flatten [owner.login]. *)
Definition transformFields (repo : GitHubRepo) : Repository :=
  {| repo_id := gh_id repo;
     repo_owner := gh_owner_login repo;
     repo_name := gh_name repo;
     repo_description := gh_description repo;
     repo_token := None |}.

(** [repo.token = socket.token] *)
Definition set_token (t : string) (r : Repository) : Repository :=
  {| repo_id := repo_id r; repo_owner := repo_owner r; repo_name := repo_name r;
     repo_description := repo_description r; repo_token := Some t |}.

(** [issue.repository_id = repoId] *)
Definition set_repository_id (rid : Z) (i : Issue) : Issue :=
  {| issue_id := issue_id i; issue_number := issue_number i;
     issue_title := issue_title i; issue_labels := issue_labels i;
     repository_id := Some rid |}.

(** The same for every issue of a list. *)
Definition attach (rid : Z) (l : list Issue) : list Issue :=
  map (set_repository_id rid) l.

(** ** The task graph executor

    [async.auto] belongs to the package [async]; the handler uses it in the
    form where a task with dependencies receives [(results, callback)].
    What the package does with the task object is written out here:
    [runTask], the two branches of a task callback ([succeed] followed by
    [taskComplete], and [fail]), [processQueue] and the final callback
    wrapped in [once].  A task that was never launched stays [Pending]. *)

(** How far a task has got; [Running pc] waits for the [pc]-th asynchronous
    call of its body. *)
Inductive Phase := Pending | Running (pc : nat) | Succeeded | Failed.

(** The state of one run.  [log] is chronological. *)
Record State := {
  phase : TaskKey -> Phase;
  results : Results;
  hasError : bool;
  outcome : option Reply;
  log : list Event;
  db : DB;
  reports : list Q
}.

(** What is fixed for a run once the request has been validated. *)
Record Ctx := {
  env : Env;
  github : GitHub;
  owner : option string;
  name : string;
  repoRoom : string
}.

(** Equality of task keys. *)
Definition TaskKey_eqb (a b : TaskKey) : bool :=
  match a, b with
  | K_repo, K_repo | K_issues, K_issues | K_records, K_records
  | K_webhooks, K_webhooks | K_train, K_train => true
  | _, _ => false
  end.

(** The keys in the order the task object lists them. *)
Definition all_keys : list TaskKey := [K_repo; K_issues; K_records; K_webhooks; K_train].

(** The dependency lists declared in the object given to [async.auto]. *)
Definition dependencies (k : TaskKey) : list TaskKey :=
  match k with
  | K_repo => []
  | K_issues => []
  | K_records => [K_repo; K_issues]
  | K_webhooks => [K_repo]
  | K_train => [K_repo; K_records]
  end.

(** [results[k]]; the results object keeps its keys in insertion order. *)
Fixpoint get (k : TaskKey) (r : Results) : option Value :=
  match r with
  | [] => None
  | (k', v) :: rest => if TaskKey_eqb k k' then Some v else get k rest
  end.

(** Overwrite the value under a key in place. *)
Fixpoint put (k : TaskKey) (v : Value) (r : Results) : Results :=
  match r with
  | [] => [(k, v)]
  | (k', v') :: rest => if TaskKey_eqb k k' then (k, v) :: rest else (k', v') :: put k v rest
  end.

(** The key is present. *)
Definition has (k : TaskKey) (r : Results) : bool :=
  match get k r with Some _ => true | None => false end.

(** The task waits for an asynchronous call. *)
Definition is_running (p : Phase) : bool :=
  match p with Running _ => true | _ => false end.

(** Field updates of the state. *)
Definition set_phase (k : TaskKey) (p : Phase) (s : State) : State :=
  {| phase := fun k' => if TaskKey_eqb k' k then p else phase s k';
     results := results s; hasError := hasError s; outcome := outcome s;
     log := log s; db := db s; reports := reports s |}.

Definition set_results (r : Results) (s : State) : State :=
  {| phase := phase s; results := r; hasError := hasError s; outcome := outcome s;
     log := log s; db := db s; reports := reports s |}.

Definition set_hasError (b : bool) (s : State) : State :=
  {| phase := phase s; results := results s; hasError := b; outcome := outcome s;
     log := log s; db := db s; reports := reports s |}.

Definition set_outcome (o : option Reply) (s : State) : State :=
  {| phase := phase s; results := results s; hasError := hasError s; outcome := o;
     log := log s; db := db s; reports := reports s |}.

Definition set_db (d : DB) (s : State) : State :=
  {| phase := phase s; results := results s; hasError := hasError s; outcome := outcome s;
     log := log s; db := d; reports := reports s |}.

Definition set_reports (l : list Q) (s : State) : State :=
  {| phase := phase s; results := results s; hasError := hasError s; outcome := outcome s;
     log := log s; db := db s; reports := l |}.

(** Append to the log. *)
Definition emit (e : Event) (s : State) : State :=
  {| phase := phase s; results := results s; hasError := hasError s; outcome := outcome s;
     log := log s ++ [e]; db := db s; reports := reports s |}.

Notation "s |> f" := (f s) (at level 45, left associativity, only parsing).

(** [err && err.message] where a message is expected: [null] without an
    error, and nothing ([undefined]) for an error without a message. *)
Definition err_message (err : option JsError) : option string :=
  match err with
  | Some e => message e
  | None => None
  end.

(** [err && err.message] for an error [err], as the first argument of the
    caller's callback. *)
Definition answer (e : JsError) : CbError :=
  match message e with
  | Some m => Msg m
  | None => NoMessage
  end.

(** [progress(data)]: emitted to the repository's room. *)
Definition progress (k : TaskKey) (t : Stage) (p : Q) (m : option string) : State -> State :=
  emit (TaskEv k (Progress {| task := t; percent := p; msg := m |})).

(** A call into a collaborator, made by task [k]. *)
Definition call (k : TaskKey) (c : Call) : State -> State :=
  emit (TaskEv k (Called c)).

(** [runningTasks === 0] *)
Definition no_running (s : State) : bool :=
  forallb (fun k => negb (is_running (phase s k))) all_keys.

(** The final callback of [async.auto], wrapped in [once]: leave the room
    and answer the caller with [err && err.message] and the results. *)
Definition callback (c : Ctx) (err : option JsError) (r : Results) (s : State) : State :=
  match outcome s with
  | Some _ => s
  | None =>
    let reply := {| reply_err := option_map answer err;
                    reply_results := Some r |} in
    s |> emit (Leave (repoRoom c)) |> emit (CallerCb reply) |> set_outcome (Some reply)
  end.

(** [processQueue] when nothing is ready: the run is over once nothing is
    running either. *)
Definition processQueue_idle (c : Ctx) (s : State) : State :=
  if no_running s then callback c None (results s) s else s.

(** The success branch of a task callback up to [taskComplete]. *)
Definition succeed (k : TaskKey) (v : Value) (s : State) : State :=
  s |> emit (TaskEv k (Callback None v)) |> set_phase k Succeeded
    |> set_results (results s ++ [(k, v)]).

(** The error branch: the results so far plus the failing key go to the
    final callback, [hasError] stops every later launch. *)
Definition fail (c : Ctx) (k : TaskKey) (e : JsError) (s : State) : State :=
  s |> emit (TaskEv k (Callback (Some e) VUndefined)) |> set_phase k Failed
    |> set_hasError true
    |> callback c (Some e) (results s ++ [(k, VUndefined)]).

(** The events the webhook subscribes to. *)
Definition webhook_events : list string :=
  ["issues"%string; "issue_comment"%string; "pull_request"%string].

(** The task bodies, each up to its first asynchronous call.  A body
    reads its dependencies' values off [results]; reading a field of a
    missing value would throw, which is logged as [Throw].  The [train]
    body answers at once when there is at most one issue. *)
Definition body (c : Ctx) (k : TaskKey) (s : State) : State :=
  match k with
  | K_repo =>
    s |> progress K_repo REPO 0 None |> call K_repo (CReposGet (owner c) (name c))
  | K_issues =>
    s |> call K_issues (CGetIssues (owner c) (name c))
  | K_records =>
    let s := progress K_records DATABASE 0 None s in
    match get K_repo (results s) with
    | Some (VRepo r) => call K_records (CUpsert r) s
    | _ => emit (TaskEv K_records Throw) s
    end
  | K_webhooks =>
    let s := progress K_webhooks WEBHOOK 0 None s in
    match get K_repo (results s) with
    | Some (VRepo r) =>
      call K_webhooks
        (CCreateHook (repo_owner r) (repo_name r) webhook_events
           (config_base_url (env c) ++ "/webhook")%string) s
    | _ => emit (TaskEv K_webhooks Throw) s
    end
  | K_train =>
    let s := progress K_train TRAIN 0 None s in
    match get K_issues (results s) with
    | Some (VIssues issues) =>
      if (List.length issues <=? 1)%nat then
        s |> progress K_train TRAIN 1 None |> succeed K_train VUndefined
          |> processQueue_idle c
      else
        match get K_repo (results s) with
        | Some (VRepo r) =>
          call K_train (CTrain (repo_owner r) (repo_name r) issues []) s
        | _ => emit (TaskEv K_train Throw) s
        end
    | _ => emit (TaskEv K_train Throw) s
    end
  end.

(** [runTask]: nothing starts once an error was seen. *)
Definition runTask (c : Ctx) (k : TaskKey) (s : State) : State :=
  if hasError s then s
  else s |> emit (TaskEv k Invoke) |> set_phase k (Running 0) |> body c k.

(** Membership in a dependency list. *)
Definition mem (k : TaskKey) (l : list TaskKey) : bool := existsb (TaskKey_eqb k) l.

(** A task listening on [k] becomes ready when its last dependency has
    produced its result. *)
Definition ready_after (k : TaskKey) (s : State) (d : TaskKey) : bool :=
  mem k (dependencies d) && forallb (fun x => has x (results s)) (dependencies d).

(** [taskComplete]: run the listeners of [k] in declaration order, then
    [processQueue]. *)
Definition taskComplete (c : Ctx) (k : TaskKey) (s : State) : State :=
  let q := if hasError s then []
           else filter (ready_after k s) [K_records; K_webhooks; K_train] in
  match q with
  | [] => processQueue_idle c s
  | _ => fold_left (fun s d => runTask c d s) q s
  end.

(** The callback handed to the body of task [k]. *)
Definition taskCallback (c : Ctx) (k : TaskKey) (err : option JsError) (v : Value)
    (s : State) : State :=
  match err with
  | Some e => fail c k e s
  | None => s |> succeed k v |> taskComplete c k
  end.

(** One transition: the asynchronous call task [k] waits for completes,
    with the answer the environment gives, and the task's continuation runs
    up to its next asynchronous call.  The fetcher's progress reports are
    delivered one at a time before its result.  The [records] task writes
    [repository_id] into the issue objects held under [results.issues]
    before inserting them, so that entry changes in place.  [None] when
    [k] waits for nothing. *)
Definition step (c : Ctx) (k : TaskKey) (s : State) : option State :=
  match k, phase s k with
  | K_repo, Running 0 =>
    match repos_get (github c) (owner c) (name c) with
    | inl err => Some (taskCallback c K_repo (Some err) VUndefined s)
    | inr repo =>
      let repo := set_token (socket_token (env c)) (transformFields repo) in
      Some (s |> progress K_repo REPO 1 None |> taskCallback c K_repo None (VRepo repo))
    end
  | K_issues, Running 0 =>
    match reports s with
    | p :: rest => Some (s |> set_reports rest |> progress K_issues ISSUES p None)
    | [] =>
      match snd (getIssues (env c) (owner c) (name c)) with
      | inl err => Some (taskCallback c K_issues (Some err) VUndefined s)
      | inr found =>
        let issues := map (Issue_transformFields (env c)) found in
        Some (s |> progress K_issues ISSUES 1 None
                |> taskCallback c K_issues None (VIssues issues))
      end
    end
  | K_records, Running 0 =>
    match get K_repo (results s) with
    | Some (VRepo r) =>
      match Repository_upsert (env c) r with
      | Some err => Some (taskCallback c K_records (Some err) VUndefined s)
      | None =>
        Some (s |> set_db (Db.upsert r (db s))
                |> progress K_records DATABASE (1 # 2) None
                |> call K_records (CDestroy (repo_id r))
                |> set_phase K_records (Running 1))
      end
    | _ => None
    end
  | K_records, Running 1 =>
    match get K_repo (results s), get K_issues (results s) with
    | Some (VRepo r), Some (VIssues issues) =>
      match Issue_destroy (env c) (repo_id r) with
      | Some err => Some (taskCallback c K_records (Some err) VUndefined s)
      | None =>
        let issues := attach (repo_id r) issues in
        Some (s |> set_db (Db.destroy (repo_id r) (db s))
                |> set_results (put K_issues (VIssues issues) (results s))
                |> progress K_records DATABASE (6 # 10) None
                |> call K_records (CBulkCreate issues)
                |> set_phase K_records (Running 2))
      end
    | _, _ => None
    end
  | K_records, Running 2 =>
    match get K_issues (results s) with
    | Some (VIssues issues) =>
      match Issue_bulkCreate (env c) issues with
      | Some err => Some (taskCallback c K_records (Some err) VUndefined s)
      | None =>
        Some (s |> set_db (Db.bulkCreate issues (db s))
                |> progress K_records DATABASE 1 None
                |> taskCallback c K_records None (VIssues issues))
      end
    | _ => None
    end
  | K_webhooks, Running 0 =>
    match get K_repo (results s) with
    | Some (VRepo r) =>
      let err := repos_createHook (github c) (repo_owner r) (repo_name r) in
      Some (s |> progress K_webhooks WEBHOOK 1 (err_message err)
              |> taskCallback c K_webhooks None VUndefined)
    | _ => None
    end
  | K_train, Running 0 =>
    match get K_repo (results s), get K_issues (results s) with
    | Some (VRepo r), Some (VIssues issues) =>
      match classifier_train (env c) (repo_owner r) (repo_name r) issues [] with
      | inl err => Some (taskCallback c K_train (Some err) VUndefined s)
      | inr _ =>
        Some (s |> progress K_train TRAIN 1 None
                |> taskCallback c K_train None VUndefined)
      end
    | _, _ => None
    end
  | _, _ => None
  end.

(** ** The socket handlers *)

(** JavaScript truthiness of a string or [null]. *)
Definition truthy (s : option string) : bool :=
  match s with
  | Some x => negb (String.eqb x "")
  | None => false
  end.

(** The state before the handler has done anything. *)
Definition idle (e : Env) : State :=
  {| phase := fun _ => Pending; results := []; hasError := false; outcome := None;
     log := []; db := db0 e; reports := [] |}.

(** The immediate answers of the handler: [cb(x)] with one argument. *)
Definition reply_now (e : Env) (x : CbError) : State :=
  let reply := {| reply_err := Some x; reply_results := None |} in
  idle e |> emit (CallerCb reply) |> set_outcome (Some reply).

(** The answer to a URL that does not name a repository. *)
Definition invalid_url_message : string := "Invalid repository URL. Please try again.".

(** The validated request, if the handler gets that far. *)
Definition context (e : Env) (repository_url : string) : option Ctx :=
  match socket_github e with
  | None => None
  | Some gh =>
    match env_parseGitHubUrl e repository_url with
    | Some repo =>
      match pu_name repo with
      | Some n =>
        if truthy (pu_name repo) then
          Some {| env := e; github := gh; owner := pu_owner repo; name := n;
                  repoRoom := ("repo:" ++ match pu_repo repo with
                                          | Some r => r | None => "null" end)%string |}
        else None
      | None => None
      end
    | None => None
    end
  end.

(** [async.auto(tasks, callback)]: the tasks without dependencies start at
    once, in declaration order. *)
Definition auto (c : Ctx) (s : State) : State :=
  s |> runTask c K_repo |> runTask c K_issues.

(** The [REPOSITORY_SYNC] handler up to its first return to the event
    loop. *)
Definition REPOSITORY_SYNC (e : Env) (repository_url : string) : State :=
  match socket_github e with
  | None => reply_now e MISSING_GITHUB
  | Some _ =>
    match context e repository_url with
    | Some c =>
      idle e |> emit (Join (repoRoom c))
             |> set_reports (fst (getIssues e (owner c) (name c)))
             |> auto c
    | None => reply_now e (Msg invalid_url_message)
    end
  end.

(** The [PARSE_REPOSITORY_URL] handler answers with the parser's result. *)
Definition PARSE_REPOSITORY_URL (e : Env) (repositoryUrl : string) : option ParsedUrl :=
  env_parseGitHubUrl e repositoryUrl.

(** The transitions of the run started by a request. *)
Definition next (e : Env) (url : string) (k : TaskKey) (s : State) : option State :=
  match context e url with
  | Some c => step c k s
  | None => None
  end.

(** The states a request can reach. *)
Inductive reachable (e : Env) (url : string) : State -> Prop :=
| reach_start : reachable e url (REPOSITORY_SYNC e url)
| reach_step : forall s k s',
    reachable e url s -> next e url k s = Some s' -> reachable e url s'.

(** Running a schedule: completions that are not pending are skipped. *)
Fixpoint run_from (e : Env) (url : string) (sched : list TaskKey) (s : State) : State :=
  match sched with
  | [] => s
  | k :: rest =>
    match next e url k s with
    | Some s' => run_from e url rest s'
    | None => run_from e url rest s
    end
  end.

(** A run: the request, then the completions in the order of the
    schedule.  Every reachable state is the end of such a run. *)
Definition run (e : Env) (url : string) (sched : list TaskKey) : State :=
  run_from e url sched (REPOSITORY_SYNC e url).

(** Nothing is pending any more. *)
Definition quiescent (e : Env) (url : string) (s : State) : Prop :=
  forall k, next e url k s = None.

(** The actions of one task, in order. *)
Fixpoint actions_of (k : TaskKey) (l : list Event) : list Action :=
  match l with
  | [] => []
  | TaskEv k' a :: rest =>
    if TaskKey_eqb k' k then a :: actions_of k rest else actions_of k rest
  | _ :: rest => actions_of k rest
  end.

(** Equality of stage names. *)
Definition Stage_eqb (a b : Stage) : bool :=
  match a, b with
  | REPO, REPO | ISSUES, ISSUES | DATABASE, DATABASE | WEBHOOK, WEBHOOK | TRAIN, TRAIN => true
  | _, _ => false
  end.

(** The progress events of one stage, in order. *)
Fixpoint progress_of (t : Stage) (l : list Event) : list ProgressData :=
  match l with
  | [] => []
  | TaskEv _ (Progress d) :: rest =>
    if Stage_eqb (task d) t then d :: progress_of t rest else progress_of t rest
  | _ :: rest => progress_of t rest
  end.

(** Their percents. *)
Definition percents_of (t : Stage) (l : list Event) : list Q :=
  map percent (progress_of t l).

(** The calls to the classifier trainer, in order. *)
Fixpoint train_calls (l : list Event) : list Call :=
  match l with
  | [] => []
  | TaskEv _ (Called (CTrain o n i g)) :: rest => CTrain o n i g :: train_calls rest
  | _ :: rest => train_calls rest
  end.

(** ** [Repository.train]: the administrative entry point *)

Module RepositoryModel.

(** How a promise settles. *)
Inductive Settled :=
| Resolved (v : Value)
| Rejected (e : JsError).

(** What [Repository.train(repoId)] does, in order. *)
Inductive Effect :=
| FindById (rid : Z)
| FindAll (rid : Z)
| Train (owner name : string) (l : list Issue) (ignoreLabels : list string)
| LogFound (n : nat)
| LogFinished (owner name : string) (n : nat)
| LogSummary (t : Summary)
| LogError (e : JsError).

Record TrainEnv := {
  store : DB;
  findById_error : option JsError;
  findAll_error : option JsError;
  train : string -> string -> list Issue -> list string -> JsError + Summary
}.

Definition type_error : JsError :=
  {| message := Some "Cannot read property 'train' of null"%string |}.

(** The instance method: it starts the chain
    [Issue.findAll(..).then(..).catch(console.error)] and returns nothing. *)
Definition instance_train (e : TrainEnv) (this : Repository) : list Effect * Value :=
  let chain :=
    FindAll (repo_id this) ::
    match findAll_error e with
    | Some err => [LogError err]
    | None =>
      let issues := Db.findAll (repo_id this) (store e) in
      let ignoreLabels : list string := [] in
      LogFound (List.length issues) ::
      Train (repo_owner this) (repo_name this) issues ignoreLabels ::
      match train e (repo_owner this) (repo_name this) issues ignoreLabels with
      | inr resp =>
        [LogFinished (repo_owner this) (repo_name this) (List.length issues);
         LogSummary resp]
      | inl err => [LogError err]
      end
    end in
  (chain, VUndefined).

(** The class method:
    [Repository.findById(repoId).then((repo) => repo.train())]. *)
Definition class_train (e : TrainEnv) (repoId : Z) : list Effect * Settled :=
  match findById_error e with
  | Some err => ([FindById repoId], Rejected err)
  | None =>
    match Db.findById repoId (store e) with
    | None => ([FindById repoId], Rejected type_error)
    | Some repo =>
      let (effects, v) := instance_train e repo in
      (FindById repoId :: effects, Resolved v)
    end
  end.

Fixpoint trainer_calls (l : list Effect) : list Effect :=
  match l with
  | [] => []
  | Train o n i g :: rest => Train o n i g :: trainer_calls rest
  | _ :: rest => trainer_calls rest
  end.

End RepositoryModel.

(** ** [PersistRecords] as one function *)

(** The [records] task when none of its three persistence calls fails:
    upsert the repository, delete its issues, insert the fetched ones with
    the repository's identity attached.  It answers with the inserted
    records. *)
Definition persist_records (r : Repository) (issues : list Issue) (d : DB)
  : DB * list Issue :=
  let d1 := Db.upsert r d in
  let d2 := Db.destroy (repo_id r) d1 in
  let issues := attach (repo_id r) issues in
  (Db.bulkCreate issues d2, issues).

(** ** URL parsing *)

Module Url.

Fixpoint split_slash (s cur : string) : list string :=
  match s with
  | EmptyString => [cur]
  | String c rest =>
    if Ascii.eqb c "/" then cur :: split_slash rest ""
    else split_slash rest (cur ++ String c "")
  end.

Definition nonempty (s : string) : bool := negb (String.eqb s "").

(** Drop [scheme://host] when the string has a scheme, and [git@host:]
    of the scp-like form. *)
Definition path_of (s : string) : string :=
  match index 0 "://" s with
  | Some i =>
    let after := substring (i + 3) (String.length s - (i + 3)) s in
    match index 0 "/" after with
    | Some j => substring j (String.length after - j) after
    | None => ""
    end
  | None =>
    if prefix "git@" s then
      match index 0 ":" s with
      | Some i => substring (i + 1) (String.length s - (i + 1)) s
      | None => s
      end
    else s
  end.

Definition strip_git (s : string) : string :=
  let n := String.length s in
  if (4 <=? n)%nat && String.eqb (substring (n - 4) 4 s) ".git"
  then substring 0 (n - 4) s else s.

(** Modelled from the spec: [parseGitHubUrl] is the package
    [parse-github-url], not in src/.  Pure parsing: the first two
    non-empty path segments are the owner and the name (without a
    trailing [.git]); an empty string is invalid. *)
Definition parseGitHubUrl (s : string) : option ParsedUrl :=
  if String.eqb s "" then None
  else
    match filter nonempty (split_slash (path_of s) "") with
    | [] => None
    | [o] => Some {| pu_owner := Some o; pu_name := None; pu_repo := None |}
    | o :: n :: _ =>
      let n := strip_git n in
      Some {| pu_owner := Some o; pu_name := Some n;
              pu_repo := Some (o ++ "/" ++ n)%string |}
    end.

End Url.

(** ** What every reachable state looks like

    For a validated request the collaborators' answers are fixed by the
    environment, so the actions of each task are determined by how far the
    task has got. *)

(** A progress event as an action. *)
Definition P (t : Stage) (p : Q) (m : option string) : Action :=
  Progress {| task := t; percent := p; msg := m |}.

(** What the [repo] task produces, or the error of the fetch. *)
Definition fetched_repo (c : Ctx) : JsError + Repository :=
  match repos_get (github c) (owner c) (name c) with
  | inl e => inl e
  | inr raw => inr (set_token (socket_token (env c)) (transformFields raw))
  end.

(** What the [issues] task produces, or the error of the fetch. *)
Definition fetched_issues (c : Ctx) : JsError + list Issue :=
  match snd (getIssues (env c) (owner c) (name c)) with
  | inl e => inl e
  | inr found => inr (map (Issue_transformFields (env c)) found)
  end.

(** The percents the fetcher reports during the fetch. *)
Definition fetcher_reports (c : Ctx) : list Q :=
  fst (getIssues (env c) (owner c) (name c)).

(** The actions of the [repo] task up to its call. *)
Definition repo_start (c : Ctx) : list Action :=
  [Invoke; P REPO 0 None; Called (CReposGet (owner c) (name c))].

(** Phase, actions and result of the [repo] task. *)
Inductive repo_view (c : Ctx) : Phase -> list Action -> option Value -> Prop :=
| RepoRunning : repo_view c (Running 0) (repo_start c) None
| RepoOk : forall r, fetched_repo c = inr r ->
    repo_view c Succeeded
      (repo_start c ++ [P REPO 1 None; Callback None (VRepo r)]) (Some (VRepo r))
| RepoFailed : forall e, fetched_repo c = inl e ->
    repo_view c Failed (repo_start c ++ [Callback (Some e) VUndefined]) None.

(** Whether the [records] task has already written [repository_id] into
    the fetched issue objects. *)
Definition attached (c : Ctx) (r : Repository) (p : Phase) : bool :=
  match p with
  | Running 2 | Succeeded => true
  | Failed =>
    match Repository_upsert (env c) r, Issue_destroy (env c) (repo_id r) with
    | None, None => true
    | _, _ => false
    end
  | _ => false
  end.

(** The issues held under [results.issues], given how far the [records]
    task has got. *)
Definition issues_entry (c : Ctx) (iss : list Issue) (records_phase : Phase) : list Issue :=
  match fetched_repo c with
  | inr r => if attached c r records_phase then attach (repo_id r) iss else iss
  | inl _ => iss
  end.

(** The actions of the [issues] task up to its call. *)
Definition issues_start (c : Ctx) : list Action :=
  [Invoke; Called (CGetIssues (owner c) (name c))].

(** The progress events [showProgress] makes of the fetcher's reports. *)
Definition report_actions (l : list Q) : list Action :=
  map (fun p => P ISSUES p None) l.

(** Phase, actions, reports still to come and result of the [issues]
    task. *)
Inductive issues_view (c : Ctx)
  : Phase -> list Action -> list Q -> option Value -> Phase -> Prop :=
| IssuesRunning : forall done rest rp, fetcher_reports c = done ++ rest ->
    issues_view c (Running 0) (issues_start c ++ report_actions done) rest None rp
| IssuesOk : forall iss rp, fetched_issues c = inr iss ->
    issues_view c Succeeded
      (issues_start c ++ report_actions (fetcher_reports c)
         ++ [P ISSUES 1 None; Callback None (VIssues iss)])
      [] (Some (VIssues (issues_entry c iss rp))) rp
| IssuesFailed : forall e rp, fetched_issues c = inl e ->
    issues_view c Failed
      (issues_start c ++ report_actions (fetcher_reports c)
         ++ [Callback (Some e) VUndefined])
      [] None rp.

(** The actions of the [records] task after each of its steps. *)
Definition records_start (r : Repository) : list Action :=
  [Invoke; P DATABASE 0 None; Called (CUpsert r)].

(** After the upsert. *)
Definition records_upserted (r : Repository) : list Action :=
  records_start r ++ [P DATABASE (1 # 2) None; Called (CDestroy (repo_id r))].

(** After the deletion. *)
Definition records_destroyed (r : Repository) (iss : list Issue) : list Action :=
  records_upserted r
    ++ [P DATABASE (6 # 10) None; Called (CBulkCreate (attach (repo_id r) iss))].

(** After the bulk insert. *)
Definition records_done (r : Repository) (iss : list Issue) : list Action :=
  records_destroyed r iss
    ++ [P DATABASE 1 None; Callback None (VIssues (attach (repo_id r) iss))].

(** Both fetches succeed, with these values. *)
Definition fetched (c : Ctx) (r : Repository) (iss : list Issue) : Prop :=
  fetched_repo c = inr r /\ fetched_issues c = inr iss.

(** Phase, actions and result of the [records] task, and the store. *)
Inductive records_view (c : Ctx) : Phase -> list Action -> option Value -> DB -> Prop :=
| RecordsPending : records_view c Pending [] None (db0 (env c))
| RecordsRun0 : forall r iss, fetched c r iss ->
    records_view c (Running 0) (records_start r) None (db0 (env c))
| RecordsRun1 : forall r iss, fetched c r iss ->
    Repository_upsert (env c) r = None ->
    records_view c (Running 1) (records_upserted r) None (Db.upsert r (db0 (env c)))
| RecordsRun2 : forall r iss, fetched c r iss ->
    Repository_upsert (env c) r = None ->
    Issue_destroy (env c) (repo_id r) = None ->
    records_view c (Running 2) (records_destroyed r iss) None
      (Db.destroy (repo_id r) (Db.upsert r (db0 (env c))))
| RecordsOk : forall r iss, fetched c r iss ->
    Repository_upsert (env c) r = None ->
    Issue_destroy (env c) (repo_id r) = None ->
    Issue_bulkCreate (env c) (attach (repo_id r) iss) = None ->
    records_view c Succeeded (records_done r iss)
      (Some (VIssues (attach (repo_id r) iss)))
      (fst (persist_records r iss (db0 (env c))))
| RecordsFailed0 : forall r iss e, fetched c r iss ->
    Repository_upsert (env c) r = Some e ->
    records_view c Failed (records_start r ++ [Callback (Some e) VUndefined]) None
      (db0 (env c))
| RecordsFailed1 : forall r iss e, fetched c r iss ->
    Repository_upsert (env c) r = None ->
    Issue_destroy (env c) (repo_id r) = Some e ->
    records_view c Failed (records_upserted r ++ [Callback (Some e) VUndefined]) None
      (Db.upsert r (db0 (env c)))
| RecordsFailed2 : forall r iss e, fetched c r iss ->
    Repository_upsert (env c) r = None ->
    Issue_destroy (env c) (repo_id r) = None ->
    Issue_bulkCreate (env c) (attach (repo_id r) iss) = Some e ->
    records_view c Failed (records_destroyed r iss ++ [Callback (Some e) VUndefined]) None
      (Db.destroy (repo_id r) (Db.upsert r (db0 (env c)))).

(** The actions of the [webhooks] task up to its call. *)
Definition webhooks_start (c : Ctx) (r : Repository) : list Action :=
  [Invoke; P WEBHOOK 0 None;
   Called (CCreateHook (repo_owner r) (repo_name r) webhook_events
             (config_base_url (env c) ++ "/webhook")%string)].

(** The message of the second [Webhook] progress event:
    [err && err.message]. *)
Definition hook_message (c : Ctx) (r : Repository) : option string :=
  err_message (repos_createHook (github c) (repo_owner r) (repo_name r)).

(** Phase, actions and result of the [webhooks] task. *)
Inductive webhooks_view (c : Ctx) : Phase -> list Action -> option Value -> Prop :=
| WebPending : webhooks_view c Pending [] None
| WebRunning : forall r, fetched_repo c = inr r ->
    webhooks_view c (Running 0) (webhooks_start c r) None
| WebOk : forall r, fetched_repo c = inr r ->
    webhooks_view c Succeeded
      (webhooks_start c r ++ [P WEBHOOK 1 (hook_message c r); Callback None VUndefined])
      (Some VUndefined).

(** Both fetches and the three persistence calls succeed. *)
Definition persisted (c : Ctx) (r : Repository) (iss : list Issue) : Prop :=
  fetched c r iss /\
  Repository_upsert (env c) r = None /\
  Issue_destroy (env c) (repo_id r) = None /\
  Issue_bulkCreate (env c) (attach (repo_id r) iss) = None.

(** The actions of the [train] task up to its call. *)
Definition train_start (r : Repository) (iss : list Issue) : list Action :=
  [Invoke; P TRAIN 0 None;
   Called (CTrain (repo_owner r) (repo_name r) (attach (repo_id r) iss) [])].

(** What the trainer answers to that call. *)
Definition trainer_answer (c : Ctx) (r : Repository) (iss : list Issue) : JsError + Summary :=
  classifier_train (env c) (repo_owner r) (repo_name r) (attach (repo_id r) iss) [].

(** Phase, actions and result of the [train] task. *)
Inductive train_view (c : Ctx) : Phase -> list Action -> option Value -> Prop :=
| TrainPending : train_view c Pending [] None
| TrainSkipped : forall r iss, persisted c r iss -> (List.length iss <= 1)%nat ->
    train_view c Succeeded
      [Invoke; P TRAIN 0 None; P TRAIN 1 None; Callback None VUndefined]
      (Some VUndefined)
| TrainRunning : forall r iss, persisted c r iss -> (1 < List.length iss)%nat ->
    train_view c (Running 0) (train_start r iss) None
| TrainOk : forall r iss t, persisted c r iss -> (1 < List.length iss)%nat ->
    trainer_answer c r iss = inr t ->
    train_view c Succeeded
      (train_start r iss ++ [P TRAIN 1 None; Callback None VUndefined])
      (Some VUndefined)
| TrainFailed : forall r iss e, persisted c r iss -> (1 < List.length iss)%nat ->
    trainer_answer c r iss = inl e ->
    train_view c Failed (train_start r iss ++ [Callback (Some e) VUndefined]) None.

(** Which tasks have been launched, given which have finished. *)
Record launch_view (ph : TaskKey -> Phase) (herr : bool) : Prop := {
  lv_roots : ph K_repo <> Pending /\ ph K_issues <> Pending;
  lv_web : ph K_webhooks <> Pending -> ph K_repo = Succeeded;
  lv_rec : ph K_records <> Pending -> ph K_repo = Succeeded /\ ph K_issues = Succeeded;
  lv_train : ph K_train <> Pending -> ph K_records = Succeeded;
  lv_web_started : herr = false -> ph K_repo = Succeeded -> ph K_webhooks <> Pending;
  lv_rec_started : herr = false -> ph K_repo = Succeeded -> ph K_issues = Succeeded ->
                   ph K_records <> Pending;
  lv_train_started : herr = false -> ph K_records = Succeeded -> ph K_train <> Pending;
  lv_no_failure : herr = false -> forall k, ph k <> Failed;
  lv_failure : herr = true -> exists k, ph k = Failed
}.

(** The [train] entry of a results object holds no value. *)
Definition train_entry_empty (r : Results) : Prop :=
  forall v, get K_train r = Some v -> v = VUndefined.

(** [cb(null, results)] *)
Definition success (r : Results) : Reply :=
  {| reply_err := None; reply_results := Some r |}.

(** The reply to the caller, given whether an error was seen and whether
    anything is still running. *)
Inductive outcome_view : bool -> bool -> option Reply -> Results -> Prop :=
| OutRunning : forall r, outcome_view false false None r
| OutDone : forall r, outcome_view false true (Some (success r)) r
| OutError : forall e r idle res, train_entry_empty r ->
    outcome_view true idle
      (Some {| reply_err := Some (answer e); reply_results := Some r |}) res.

(** Bodies start only after their dependencies' success callbacks. *)
Fixpoint well_ordered (done : list TaskKey) (l : list Event) : Prop :=
  match l with
  | [] => True
  | TaskEv k Invoke :: rest =>
    (forall d, In d (dependencies k) -> In d done) /\ well_ordered done rest
  | TaskEv k (Callback None _) :: rest => well_ordered (k :: done) rest
  | _ :: rest => well_ordered done rest
  end.

(** The tasks whose success callback is in a log. *)
Fixpoint succeeded_in (l : list Event) : list TaskKey :=
  match l with
  | [] => []
  | TaskEv k (Callback None _) :: rest => k :: succeeded_in rest
  | _ :: rest => succeeded_in rest
  end.

(** The invariant of a validated request. *)
Record Inv (c : Ctx) (s : State) : Prop := {
  inv_repo : repo_view c (phase s K_repo) (actions_of K_repo (log s))
               (get K_repo (results s));
  inv_issues : issues_view c (phase s K_issues) (actions_of K_issues (log s))
                 (reports s) (get K_issues (results s)) (phase s K_records);
  inv_records : records_view c (phase s K_records) (actions_of K_records (log s))
                  (get K_records (results s)) (db s);
  inv_webhooks : webhooks_view c (phase s K_webhooks) (actions_of K_webhooks (log s))
                   (get K_webhooks (results s));
  inv_train : train_view c (phase s K_train) (actions_of K_train (log s))
                (get K_train (results s));
  inv_launch : launch_view (phase s) (hasError s);
  inv_outcome : outcome_view (hasError s) (no_running s) (outcome s) (results s);
  inv_order : well_ordered [] (log s);
  inv_succeeded : forall k, phase s k = Succeeded -> In k (succeeded_in (log s))
}.

(** Work left in a state: every transition uses some up. *)
(** Asynchronous calls a task may still wait for. *)
Definition weight (p : Phase) : nat :=
  match p with
  | Pending => 5
  | Running pc => 4 - pc
  | Succeeded | Failed => 0
  end.

(** Their sum, with the reports still to come. *)
Definition measure (s : State) : nat :=
  fold_right (fun k n => weight (phase s k) + n)%nat (List.length (reports s)) all_keys.

(** ** Vocabulary of the properties *)

(** The log of a rejected request. *)
Definition rejected_with (x : CbError) (s : State) : Prop :=
  outcome s = Some {| reply_err := Some x; reply_results := None |} /\
  log s = [CallerCb {| reply_err := Some x; reply_results := None |}].

(** [repo && repo.name] is falsy. *)
Definition malformed (e : Env) (url : string) : Prop :=
  match env_parseGitHubUrl e url with
  | Some repo => truthy (pu_name repo) = false
  | None => True
  end.

(** Every stage other than the webhook registration succeeds. *)
Definition others_succeed (c : Ctx) : Prop :=
  exists r iss, persisted c r iss /\
    ((List.length iss <= 1)%nat \/ exists t, trainer_answer c r iss = inr t).

(** The values [f] picks out of the actions of a task, and out of a whole
    log. *)
Section Collect.
Variable X : Type.
Variable f : Action -> option X.

Fixpoint collect (acts : list Action) : list X :=
  match acts with
  | [] => []
  | a :: rest => match f a with Some x => x :: collect rest | None => collect rest end
  end.

Fixpoint collect_log (l : list Event) : list X :=
  match l with
  | [] => []
  | TaskEv _ a :: rest =>
    match f a with Some x => x :: collect_log rest | None => collect_log rest end
  | _ :: rest => collect_log rest
  end.
End Collect.

Arguments collect {X}.
Arguments collect_log {X}.

Definition progress_at (t : Stage) (a : Action) : option ProgressData :=
  match a with
  | Progress d => if Stage_eqb (task d) t then Some d else None
  | _ => None
  end.

Definition train_call (a : Action) : option Call :=
  match a with
  | Called (CTrain o n i g) => Some (CTrain o n i g)
  | _ => None
  end.

(** The stage each task reports its progress under. *)
Definition key_of (t : Stage) : TaskKey :=
  match t with
  | REPO => K_repo
  | ISSUES => K_issues
  | DATABASE => K_records
  | WEBHOOK => K_webhooks
  | TRAIN => K_train
  end.

(** The pair the unique index of [Repository] is on. *)
Definition key (r : Repository) : string * string := (repo_owner r, repo_name r).

(** Percents that never decrease. *)
Fixpoint nondecreasing (l : list Q) : Prop :=
  match l with
  | [] => True
  | x :: rest =>
    match rest with
    | [] => True
    | y :: _ => (x <= y)%Q /\ nondecreasing rest
    end
  end.

(** ** A concrete request *)

Module Scenario.

Definition url : string := "https://github.com/acme/widgets".

Definition widgets : GitHubRepo :=
  {| gh_id := 42; gh_owner_login := "acme"; gh_name := "widgets";
     gh_description := "Widgets for all"; gh_stargazers_count := 7 |}.

Definition found (n : Z) : GitHubIssue :=
  {| gi_id := 100 + n; gi_number := n; gi_title := "It breaks";
     gi_labels := ["bug"%string] |}.

Definition transform (g : GitHubIssue) : Issue :=
  {| issue_id := gi_id g; issue_number := gi_number g; issue_title := gi_title g;
     issue_labels := gi_labels g; repository_id := None |}.

Definition summary : Summary :=
  {| score := 9 # 10; wrong := 1; total := 10; percentage := 90;
     newly_labeled_issues := 2 |}.

Definition hook_error : JsError := {| message := Some "Hook already exists"%string |}.

Definition train_error : JsError := {| message := Some "Training failed"%string |}.

Definition client (hook : option JsError) : GitHub :=
  {| repos_get := fun _ _ => inr widgets;
     repos_createHook := fun _ _ => hook |}.

(** An environment in which everything but, possibly, the webhook
    registration and the training succeeds. *)
Definition environment (session : bool) (reports : list Q) (issues : list GitHubIssue)
    (hook : option JsError) (trained : JsError + Summary) : Env :=
  {| env_parseGitHubUrl := Url.parseGitHubUrl;
     socket_github := if session then Some (client hook) else None;
     socket_token := "secret-token";
     config_base_url := "https://bot.example";
     getIssues := fun _ _ => (reports, inr issues);
     Issue_transformFields := transform;
     Repository_upsert := fun _ => None;
     Issue_destroy := fun _ => None;
     Issue_bulkCreate := fun _ => None;
     classifier_train := fun _ _ _ _ => trained;
     db0 := {| repositories := []; issue_rows := [] |} |}.

Definition three : list GitHubIssue := [found 1; found 2; found 3].

(** Three issues, reported as two completed pages; the webhook
    registration fails. *)
Definition e1 : Env :=
  environment true [1 # 2; 1] three (Some hook_error) (inr summary).

Definition c1 : Ctx :=
  {| env := e1; github := client (Some hook_error); owner := Some "acme"%string;
     name := "widgets"; repoRoom := "repo:acme/widgets" |}.

Definition r1 : Repository :=
  {| repo_id := 42; repo_owner := "acme"; repo_name := "widgets";
     repo_description := "Widgets for all"; repo_token := Some "secret-token"%string |}.

Definition iss1 : list Issue := map transform three.

(** The order in which the collaborators answer. *)
Definition schedule : list TaskKey :=
  [K_repo; K_issues; K_webhooks; K_issues; K_issues;
   K_records; K_records; K_records; K_train].

(** One issue only. *)
Definition e2 : Env := environment true [] [found 1] None (inr summary).

Definition c2 : Ctx :=
  {| env := e2; github := client None; owner := Some "acme"%string;
     name := "widgets"; repoRoom := "repo:acme/widgets" |}.

(** No session. *)
Definition e3 : Env := environment false [] three None (inr summary).

(** The fetcher reports its last page before an earlier one. *)
Definition backwards : Env := environment true [1; 1 # 2] three None (inr summary).

(** A stored repository with two issues, for [Repository.train]. *)
Definition stored : DB :=
  {| repositories := [r1];
     issue_rows := attach 42 (map transform [found 1; found 2]) |}.

Definition admin (trained : JsError + Summary) : RepositoryModel.TrainEnv :=
  {| RepositoryModel.store := stored;
     RepositoryModel.findById_error := None;
     RepositoryModel.findAll_error := None;
     RepositoryModel.train := fun _ _ _ _ => trained |}.

End Scenario.

(** ** The shape of a log *)

(** Kinds of events. *)
Definition is_task (e : Event) : bool :=
  match e with TaskEv _ _ => true | _ => false end.

Definition is_invoke (e : Event) : bool :=
  match e with TaskEv _ Invoke => true | _ => false end.

Definition is_failure (e : Event) : bool :=
  match e with TaskEv _ (Callback (Some _) _) => true | _ => false end.

Definition is_reply (e : Event) : bool :=
  match e with CallerCb _ => true | _ => false end.

Definition is_room (e : Event) : bool :=
  match e with Join _ | Leave _ => true | _ => false end.

(** A piece of the run that appends task events [evs] and does not reach
    the final callback: no error callback while no error was seen, no body
    invoked once one was. *)
Record quiet (s s' : State) (evs : list Event) : Prop := {
  q_log : log s' = log s ++ evs;
  q_task : forallb is_task evs = true;
  q_outcome : outcome s' = outcome s;
  q_hasError : hasError s' = hasError s;
  q_failure : hasError s = false -> existsb is_failure evs = false;
  q_invoke : hasError s = true -> existsb is_invoke evs = false
}.

(** A piece of the run that ends in the final callback without an error. *)
Record closing (c : Ctx) (s s' : State) (evs : list Event) : Prop := {
  cl_before : outcome s = None /\ hasError s = false;
  cl_log : log s' =
           log s ++ evs ++ [Leave (repoRoom c); CallerCb (success (results s'))];
  cl_task : forallb is_task evs = true;
  cl_failure : existsb is_failure evs = false;
  cl_outcome : outcome s' = Some (success (results s'));
  cl_hasError : hasError s' = false;
  cl_idle : no_running s' = true
}.

(** The reply to the first error. *)
Definition failure_reply (err : JsError) (r : Results) : Reply :=
  {| reply_err := Some (answer err); reply_results := Some r |}.

(** The first error callback, which reaches the final callback. *)
Record failing (c : Ctx) (k : TaskKey) (s s' : State) (err : JsError) : Prop := {
  fl_before : outcome s = None /\ hasError s = false;
  fl_log : log s' =
           log s ++ [TaskEv k (Callback (Some err) VUndefined); Leave (repoRoom c);
                     CallerCb (failure_reply err (results s ++ [(k, VUndefined)]))];
  fl_outcome : outcome s' = Some (failure_reply err (results s ++ [(k, VUndefined)]));
  fl_hasError : hasError s' = true
}.

(** The state is before the final callback, or after an error. *)
Definition live (s : State) : Prop :=
  (outcome s = None /\ hasError s = false) \/ (outcome s <> None /\ hasError s = true).

(** The three forms of the log of a validated request: still running;
    answered with success; answered with the first error, after which the
    tasks that were running go on. *)
Inductive shape (c : Ctx) (s : State) : Prop :=
| ShapeOpen : forall body,
    log s = Join (repoRoom c) :: body ->
    forallb is_task body = true -> existsb is_failure body = false ->
    outcome s = None -> hasError s = false -> shape c s
| ShapeDone : forall body,
    log s = Join (repoRoom c) :: body
              ++ [Leave (repoRoom c); CallerCb (success (results s))] ->
    forallb is_task body = true -> existsb is_failure body = false ->
    outcome s = Some (success (results s)) -> hasError s = false ->
    no_running s = true -> shape c s
| ShapeError : forall body k err r post,
    log s = Join (repoRoom c) :: body
              ++ [TaskEv k (Callback (Some err) VUndefined); Leave (repoRoom c);
                  CallerCb (failure_reply err r)] ++ post ->
    forallb is_task body = true -> existsb is_failure body = false ->
    forallb is_task post = true -> existsb is_invoke post = false ->
    get k r = Some VUndefined ->
    (forall k', has k' r = true -> k' = k \/ In k' (succeeded_in body)) ->
    outcome s = Some (failure_reply err r) -> hasError s = true -> shape c s.

(** ** Vocabulary of further properties *)

(** The calls of the persistence stage. *)
Definition persistence_call (a : Action) : option Call :=
  match a with
  | Called (CUpsert r) => Some (CUpsert r)
  | Called (CDestroy rid) => Some (CDestroy rid)
  | Called (CBulkCreate l) => Some (CBulkCreate l)
  | _ => None
  end.

(** The record the [repo] task makes of GitHub's answer. *)
Definition repo_record (e : Env) (raw : GitHubRepo) : Repository :=
  {| repo_id := gh_id raw; repo_owner := gh_owner_login raw; repo_name := gh_name raw;
     repo_description := gh_description raw; repo_token := Some (socket_token e) |}.

(** The first events of every validated request. *)
Definition opening (room : string) (owner : option string) (name : string) : list Event :=
  [Join room;
   TaskEv K_repo Invoke;
   TaskEv K_repo (Progress {| task := REPO; percent := 0; msg := None |});
   TaskEv K_repo (Called (CReposGet owner name));
   TaskEv K_issues Invoke;
   TaskEv K_issues (Called (CGetIssues owner name))].

(** The collaborators of the pipeline. *)
Inductive Collaborator :=
| ReposGet | GetIssues | Upsert | Destroy | BulkCreate | CreateHook | Trainer.

(** The collaborator a call goes to. *)
Definition collaborator (x : Call) : Collaborator :=
  match x with
  | CReposGet _ _ => ReposGet
  | CGetIssues _ _ => GetIssues
  | CUpsert _ => Upsert
  | CDestroy _ => Destroy
  | CBulkCreate _ => BulkCreate
  | CCreateHook _ _ _ _ => CreateHook
  | CTrain _ _ _ _ => Trainer
  end.

Definition Collaborator_eqb (a b : Collaborator) : bool :=
  match a, b with
  | ReposGet, ReposGet | GetIssues, GetIssues | Upsert, Upsert | Destroy, Destroy
  | BulkCreate, BulkCreate | CreateHook, CreateHook | Trainer, Trainer => true
  | _, _ => false
  end.

(** The task whose body calls a collaborator. *)
Definition caller (x : Collaborator) : TaskKey :=
  match x with
  | ReposGet => K_repo
  | GetIssues => K_issues
  | Upsert | Destroy | BulkCreate => K_records
  | CreateHook => K_webhooks
  | Trainer => K_train
  end.

(** The calls to one collaborator. *)
Definition call_to (x : Collaborator) (a : Action) : option Call :=
  match a with
  | Called y => if Collaborator_eqb (collaborator y) x then Some y else None
  | _ => None
  end.

(** The same collaborators over another store. *)
Definition with_store (d : DB) (e : Env) : Env :=
  {| env_parseGitHubUrl := env_parseGitHubUrl e;
     socket_github := socket_github e;
     socket_token := socket_token e;
     config_base_url := config_base_url e;
     getIssues := getIssues e;
     Issue_transformFields := Issue_transformFields e;
     Repository_upsert := Repository_upsert e;
     Issue_destroy := Issue_destroy e;
     Issue_bulkCreate := Issue_bulkCreate e;
     classifier_train := classifier_train e;
     db0 := d |}.

(** The request over another store. *)
Definition over_store (d : DB) (c : Ctx) : Ctx :=
  {| env := with_store d (env c); github := github c; owner := owner c; name := name c;
     repoRoom := repoRoom c |}.

(** ** [Repository.predictIssueLabels] *)

Module Predictor.

(** How the promise settles; [A] is what the classifier answers. *)
Inductive Settled (A : Type) :=
| Resolved (a : A)
| Rejected (e : JsError).

Arguments Resolved {A}.
Arguments Rejected {A}.

(** What [Repository.predictIssueLabels(issue)] does, in order. *)
Inductive Effect :=
| FindById (rid : option Z)
| Predict (owner name : string) (issue : Issue).

Record PredictEnv (A : Type) := {
  store : DB;
  findById_error : option JsError;
  classifier_predictIssueLabels : string -> string -> Issue -> Settled A
}.

Arguments store {A}.
Arguments findById_error {A}.
Arguments classifier_predictIssueLabels {A}.

Definition type_error : JsError :=
  {| message := Some "Cannot read property 'predictIssueLabels' of null"%string |}.

(** The instance method hands the classifier's promise on:
    [return predictIssueLabels(this.owner, this.name, issue)]. *)
Definition instance_predictIssueLabels {A} (e : PredictEnv A) (this : Repository)
    (issue : Issue) : list Effect * Settled A :=
  ([Predict (repo_owner this) (repo_name this) issue],
   classifier_predictIssueLabels e (repo_owner this) (repo_name this) issue).

(** The class method:
    [Repository.findById(issue.repository_id)
       .then((repo) => repo.predictIssueLabels(issue))].
    Sequelize's [findById] (see [Db.findById]) answers [null] for an id
    that is missing or unknown, and calling a method of [null] throws
    inside [then], which rejects the promise. *)
Definition class_predictIssueLabels {A} (e : PredictEnv A) (issue : Issue)
  : list Effect * Settled A :=
  let repoId := repository_id issue in
  match findById_error e with
  | Some err => ([FindById repoId], Rejected err)
  | None =>
    let found := match repoId with
                 | Some rid => Db.findById rid (store e)
                 | None => None
                 end in
    match found with
    | None => ([FindById repoId], Rejected type_error)
    | Some repo =>
      let (effects, settled) := instance_predictIssueLabels e repo issue in
      (FindById repoId :: effects, settled)
    end
  end.

End Predictor.

(** No other stored repository shares the identity of [r]. *)
Definition identifies (r : Repository) (d : DB) : Prop :=
  forall x, In x (repositories d) -> repo_id x = repo_id r -> key x = key r.

(** The store and [r] agree on which row, if any, is the repository of
    [r]: a row has the id of [r] exactly when it has its (owner, name)
    pair.  The upsert of [r], which carries that id as its primary key,
    then neither renames a row nor gives a row another id. *)
Definition same_repository (r : Repository) (d : DB) : Prop :=
  forall x, In x (repositories d) -> (repo_id x = repo_id r <-> key x = key r).

(** ** Requests that run into trouble *)

Module Trouble.

Definition not_found : JsError := {| message := Some "Not Found"%string |}.

Definition insert_failed : JsError := {| message := Some "insert failed"%string |}.

(** A client whose repository lookup fails. *)
Definition lost : GitHub :=
  {| repos_get := fun _ _ => inl not_found;
     repos_createHook := fun _ _ => None |}.

(** The request of [Scenario.e1] with another client, another answer of
    the bulk insert and another store. *)
Definition environment (gh : GitHub) (bulk : option JsError) (d : DB) : Env :=
  {| env_parseGitHubUrl := Url.parseGitHubUrl;
     socket_github := Some gh;
     socket_token := "secret-token";
     config_base_url := "https://bot.example";
     getIssues := fun _ _ => ([1 # 2; 1], inr Scenario.three);
     Issue_transformFields := Scenario.transform;
     Repository_upsert := fun _ => None;
     Issue_destroy := fun _ => None;
     Issue_bulkCreate := fun _ => bulk;
     classifier_train := fun _ _ _ _ => inr Scenario.summary;
     db0 := d |}.

Definition request (gh : GitHub) (e : Env) : Ctx :=
  {| env := e; github := gh; owner := Some "acme"%string; name := "widgets";
     repoRoom := "repo:acme/widgets" |}.

Definition empty : DB := {| repositories := []; issue_rows := [] |}.

(** Another repository with an issue, and an issue of the synchronised
    repository left from an earlier run. *)
Definition gadgets : Repository :=
  {| repo_id := 7; repo_owner := "acme"; repo_name := "gadgets";
     repo_description := "Gadgets"; repo_token := None |}.

Definition gadget_issue : Issue :=
  {| issue_id := 900; issue_number := 1; issue_title := "It jams";
     issue_labels := []; repository_id := Some 7%Z |}.

Definition stale_issue : Issue :=
  {| issue_id := 55; issue_number := 9; issue_title := "Long closed";
     issue_labels := []; repository_id := Some 42%Z |}.

Definition busy : DB :=
  {| repositories := [gadgets; Scenario.r1];
     issue_rows := [gadget_issue; stale_issue] |}.

(** The repository lookup fails. *)
Definition e4 : Env := environment lost None empty.

Definition c4 : Ctx := request lost e4.

(** The bulk insert fails. *)
Definition e5 : Env := environment (Scenario.client None) (Some insert_failed) busy.

Definition c5 : Ctx := request (Scenario.client None) e5.

(** Everything succeeds, on the store that holds other records. *)
Definition e6 : Env := environment (Scenario.client None) None busy.

Definition c6 : Ctx := request (Scenario.client None) e6.

(** Both fetches fail, each with an error of its own. *)
Definition rate_limited : JsError := {| message := Some "API rate limit exceeded"%string |}.

Definition e7 : Env :=
  {| env_parseGitHubUrl := Url.parseGitHubUrl;
     socket_github := Some lost;
     socket_token := "secret-token";
     config_base_url := "https://bot.example";
     getIssues := fun _ _ => ([], inl rate_limited);
     Issue_transformFields := Scenario.transform;
     Repository_upsert := fun _ => None;
     Issue_destroy := fun _ => None;
     Issue_bulkCreate := fun _ => None;
     classifier_train := fun _ _ _ _ => inr Scenario.summary;
     db0 := empty |}.

Definition c7 : Ctx := request lost e7.

(** The repository lookup fails with a value that has no message. *)
Definition nameless : JsError := {| message := None |}.

Definition mute : GitHub :=
  {| repos_get := fun _ _ => inl nameless;
     repos_createHook := fun _ _ => None |}.

Definition e8 : Env := environment mute None empty.

Definition c8 : Ctx := request mute e8.

(** The collaborators answer up to the end of the persistence stage. *)
Definition until_persisted : list TaskKey :=
  [K_repo; K_issues; K_issues; K_issues; K_webhooks; K_records; K_records; K_records].

(** The issues answer before the repository does. *)
Definition issues_first : list TaskKey :=
  [K_issues; K_issues; K_issues; K_repo; K_records; K_records; K_records;
   K_train; K_webhooks].

(** The store after the synchronisation, as the administrative entry
    points see it. *)
Definition synchronised : DB := fst (persist_records Scenario.r1 Scenario.iss1 busy).

Definition trainer : RepositoryModel.TrainEnv :=
  {| RepositoryModel.store := synchronised;
     RepositoryModel.findById_error := None;
     RepositoryModel.findAll_error := None;
     RepositoryModel.train := fun _ _ _ _ => inr Scenario.summary |}.

(** A classifier that answers the labels the issue already has. *)
Definition labeller : Predictor.PredictEnv (list string) :=
  {| Predictor.store := synchronised;
     Predictor.findById_error := None;
     Predictor.classifier_predictIssueLabels :=
       fun _ _ i => Predictor.Resolved (issue_labels i) |}.

End Trouble.

(** * Proofs *)

(** ** Lists, logs and results *)

Lemma actions_of_app k l l' : actions_of k (l ++ l') = actions_of k l ++ actions_of k l'.
Proof.
  induction l as [|e l IH]; simpl; auto.
  destruct e; auto. destruct (TaskKey_eqb k0 k); simpl; congruence.
Qed.

Lemma succeeded_in_app l l' : succeeded_in (l ++ l') = succeeded_in l ++ succeeded_in l'.
Proof.
  induction l as [|e l IH]; simpl; auto.
  destruct e as [k a| | |]; auto. destruct a; auto. destruct err; simpl; congruence.
Qed.

Lemma well_ordered_mono l : forall d d',
  (forall x, In x d -> In x d') -> well_ordered d l -> well_ordered d' l.
Proof.
  induction l as [|e l IH]; simpl; auto.
  intros d d' Hd H. destruct e as [k a| | |]; eauto.
  destruct a; eauto.
  - destruct H; split; eauto.
  - destruct err; eauto. eapply IH; [|eassumption]. simpl; intuition.
Qed.

Lemma well_ordered_app l l' : forall d,
  well_ordered d l -> well_ordered (succeeded_in l ++ d) l' -> well_ordered d (l ++ l').
Proof.
  induction l as [|e l IH]; simpl; auto.
  intros d H H'. destruct e as [k a| | |]; auto.
  destruct a; auto.
  - destruct H; split; auto.
  - destruct err; auto. apply IH; auto.
    eapply well_ordered_mono; [|eassumption].
    intros x Hx. simpl in Hx. rewrite in_app_iff in *. simpl. intuition.
Qed.

Lemma get_app k r r' :
  get k (r ++ r') = match get k r with Some v => Some v | None => get k r' end.
Proof.
  induction r as [|[k' v] r IH]; simpl; auto.
  destruct (TaskKey_eqb k k'); auto.
Qed.

Lemma TaskKey_eqb_eq a b : TaskKey_eqb a b = true <-> a = b.
Proof. destruct a, b; simpl; split; congruence. Qed.

Lemma get_put k k' v r :
  get k r <> None ->
  get k' (put k v r) = if TaskKey_eqb k' k then Some v else get k' r.
Proof.
  induction r as [|[k0 v0] r IH]; simpl; [congruence|].
  intros H. destruct (TaskKey_eqb k k0) eqn:E.
  - apply TaskKey_eqb_eq in E; subst k0. simpl.
    destruct (TaskKey_eqb k' k); auto.
  - simpl. destruct (TaskKey_eqb k' k0) eqn:E'.
    + apply TaskKey_eqb_eq in E'; subst k0.
      destruct (TaskKey_eqb k' k) eqn:E''; auto.
      apply TaskKey_eqb_eq in E''; subst. destruct k; discriminate.
    + apply IH; auto.
Qed.

(** ** The initial state *)

Lemma context_env e url c : context e url = Some c -> env c = e /\ socket_github e = Some (github c).
Proof.
  unfold context. destruct (socket_github e); [|discriminate].
  destruct (env_parseGitHubUrl e url); [|discriminate].
  destruct (pu_name p); [|discriminate].
  destruct (truthy _); [|discriminate].
  intros H; inversion H; subst; simpl; auto.
Qed.

Lemma start_state e url c :
  context e url = Some c ->
  REPOSITORY_SYNC e url =
  auto c (set_reports (fetcher_reports c) (emit (Join (repoRoom c)) (idle (env c)))).
Proof.
  intros H. destruct (context_env _ _ _ H) as [He Hg].
  unfold REPOSITORY_SYNC. rewrite Hg, H. unfold fetcher_reports. rewrite He. reflexivity.
Qed.

Lemma Inv_start c : 
  Inv c (auto c (set_reports (fetcher_reports c) (emit (Join (repoRoom c)) (idle (env c))))).
Proof.
  constructor; simpl.
  - constructor.
  - apply (IssuesRunning c [] (fetcher_reports c)). reflexivity.
  - constructor.
  - constructor.
  - constructor.
  - constructor; simpl; try congruence; try (split; congruence).
    intros _ k; destruct k; simpl; congruence.
  - constructor.
  - intuition.
  - intros k; destruct k; simpl; congruence.
Qed.

(** ** Every transition preserves the invariant *)

Lemma get_snoc_other k k' v r :
  TaskKey_eqb k k' = false -> get k (r ++ [(k', v)]) = get k r.
Proof. intros H. rewrite get_app. simpl. rewrite H. destruct (get k r); auto. Qed.

Lemma get_snoc_same k v r :
  get k r = None -> get k (r ++ [(k, v)]) = Some v.
Proof. intros H. rewrite get_app, H. simpl. destruct k; reflexivity. Qed.

Lemma no_running_false s k n : phase s k = Running n -> no_running s = false.
Proof.
  intros H. unfold no_running. apply not_true_is_false. intros F.
  rewrite forallb_forall in F. specialize (F k). rewrite H in F.
  simpl in F. assert (In k all_keys) by (destruct k; simpl; tauto). intuition congruence.
Qed.

Lemma eqb_sym_key a b : TaskKey_eqb a b = TaskKey_eqb b a.
Proof. destruct a, b; reflexivity. Qed.

Section LaunchFacts.
Variables (ph : TaskKey -> Phase) (herr : bool).
Hypothesis L : launch_view ph herr.

Lemma web_pending : ph K_repo <> Succeeded -> ph K_webhooks = Pending.
Proof.
  intros H. destruct (ph K_webhooks) eqn:E; auto;
    exfalso; apply H; apply (lv_web _ _ L); congruence.
Qed.

Lemma records_pending :
  ph K_repo <> Succeeded \/ ph K_issues <> Succeeded -> ph K_records = Pending.
Proof.
  intros H. destruct (ph K_records) eqn:E; auto;
    exfalso; destruct (lv_rec _ _ L) as [A B]; try congruence; tauto.
Qed.

Lemma train_pending : ph K_records <> Succeeded -> ph K_train = Pending.
Proof.
  intros H. destruct (ph K_train) eqn:E; auto;
    exfalso; apply H; apply (lv_train _ _ L); congruence.
Qed.

Lemma no_error_if : (forall k, ph k <> Failed) -> herr = false.
Proof.
  intros H. destruct herr eqn:E; auto.
  destruct (lv_failure _ _ L eq_refl) as [k Hk]. elim (H k Hk).
Qed.

Lemma error_if k : ph k = Failed -> herr = true.
Proof.
  intros H. destruct herr eqn:E; auto.
  elim (lv_no_failure _ _ L eq_refl k H).
Qed.
End LaunchFacts.


Lemma no_running_true s :
  (forall k, is_running (phase s k) = false) -> no_running s = true.
Proof.
  intros H. unfold no_running. apply forallb_forall. intros k _. rewrite H. reflexivity.
Qed.

Lemma repo_view_cast c p a a' g g' :
  repo_view c p a g -> a = a' -> g = g' -> repo_view c p a' g'.
Proof. intros; subst; auto. Qed.
Lemma issues_view_cast c p a a' r g g' rp :
  issues_view c p a r g rp -> a = a' -> g = g' -> issues_view c p a' r g' rp.
Proof. intros; subst; auto. Qed.
Lemma records_view_cast c p a a' g g' d d' :
  records_view c p a g d -> a = a' -> g = g' -> d = d' -> records_view c p a' g' d'.
Proof. intros; subst; auto. Qed.
Lemma webhooks_view_cast c p a a' g g' :
  webhooks_view c p a g -> a = a' -> g = g' -> webhooks_view c p a' g'.
Proof. intros; subst; auto. Qed.
Lemma train_view_cast c p a a' g g' :
  train_view c p a g -> a = a' -> g = g' -> train_view c p a' g'.
Proof. intros; subst; auto. Qed.

Ltac splits := repeat match goal with |- _ /\ _ => split end.

Ltac flip :=
  repeat match goal with
  | H : _ = actions_of _ _ |- _ => symmetry in H
  | H : _ = get _ _ |- _ => symmetry in H
  | H : _ = phase _ _ |- _ => symmetry in H
  | H : _ = db _ |- _ => symmetry in H
  | H : _ = reports _ |- _ => symmetry in H
  | H : _ = hasError _ |- _ => symmetry in H
  | H : _ = outcome _ |- _ => symmetry in H
  | H : _ = no_running _ |- _ => symmetry in H
  end.

Ltac subst_vars :=
  repeat match goal with
  | H : ?x = _ |- _ => is_var x; subst x
  | H : _ = ?x |- _ => is_var x; subst x
  end.

Ltac unify_fetched :=
  repeat match goal with
  | H : fetched _ _ _ |- _ => destruct H
  | H : persisted _ _ _ |- _ => destruct H as (? & ? & ? & ?)
  | H1 : fetched_repo ?c = inr ?a, H2 : fetched_repo ?c = inr ?b |- _ =>
    assert (b = a) by congruence; subst b; clear H2
  | H1 : fetched_issues ?c = inr ?a, H2 : fetched_issues ?c = inr ?b |- _ =>
    assert (b = a) by congruence; subst b; clear H2
  end.

Ltac view H := inversion H; clear H; subst_vars; flip; unify_fetched.

Ltac use_eqs :=
  repeat match goal with
  | H : actions_of _ _ = _ |- _ => rewrite H
  | H : get _ _ = _ |- _ => rewrite H
  | H : phase _ _ = _ |- _ => rewrite H
  | H : db _ = _ |- _ => rewrite H
  | H : reports _ = _ |- _ => rewrite H
  | H : hasError _ = _ |- _ => rewrite H
  | H : outcome _ = _ |- _ => rewrite H
  end.

Ltac frame := try assumption.

Ltac list_eq :=
  simpl; unfold report_actions; rewrite ?map_app; simpl;
  rewrite <- ?app_assoc; simpl; reflexivity.

Lemma get_snoc k k' v r :
  get k (r ++ [(k', v)]) =
  match get k r with
  | Some x => Some x
  | None => if TaskKey_eqb k k' then Some v else None
  end.
Proof. rewrite get_app. reflexivity. Qed.

Lemma option_id (A : Type) (o : option A) :
  match o with Some x => Some x | None => None end = o.
Proof. destruct o; reflexivity. Qed.

Ltac proj :=
  simpl;
  repeat (rewrite actions_of_app || rewrite succeeded_in_app || rewrite get_snoc
          || rewrite get_put by (use_eqs; congruence));
  simpl; rewrite ?app_nil_r, ?option_id.

Lemma train_view_entry c p a g :
  train_view c p a g -> g = None \/ g = Some VUndefined.
Proof. destruct 1; auto. Qed.

Lemma train_entry_snoc r k :
  (get K_train r = None \/ get K_train r = Some VUndefined) ->
  train_entry_empty (r ++ [(k, VUndefined)]).
Proof.
  intros H v. rewrite get_app. destruct H as [H|H]; rewrite H.
  - destruct k; simpl; congruence.
  - congruence.
Qed.

Lemma launch_view_fail ph herr k n :
  launch_view ph herr -> ph k = Running n ->
  launch_view (fun k' => if TaskKey_eqb k' k then Failed else ph k') true.
Proof.
  intros L H.
  pose proof (web_pending _ _ L) as W.
  pose proof (records_pending _ _ L) as R.
  pose proof (train_pending _ _ L) as T.
  destruct L as [[? ?] lweb lrec ltrain ? ? ? ? ?].
  constructor; try discriminate;
    try (intros _; exists k; destruct k; reflexivity);
    destruct k; simpl;
    try (assert (ph K_webhooks = Pending) by (apply W; congruence));
    try (assert (ph K_records = Pending)
           by (apply R; first [left; congruence | right; congruence]));
    try (assert (ph K_train = Pending) by (apply T; congruence));
    intros; repeat match goal with |- _ /\ _ => split end;
    first [congruence | solve [auto] | exfalso; congruence | apply lrec; congruence
          | apply lweb; congruence | apply ltrain; congruence].
Qed.
Lemma fail_rest c s k n e :
  Inv c s -> phase s k = Running n -> (n < 4)%nat ->
  let s' := fail c k e s in
  launch_view (phase s') (hasError s') /\
  outcome_view (hasError s') (no_running s') (outcome s') (results s') /\
  well_ordered [] (log s') /\
  (forall k', phase s' k' = Succeeded -> In k' (succeeded_in (log s'))) /\
  (forall k', phase s' k' = if TaskKey_eqb k' k then Failed else phase s k') /\
  (forall k', actions_of k' (log s') =
     actions_of k' (log s) ++
       if TaskKey_eqb k' k then [Callback (Some e) VUndefined] else []) /\
  results s' = results s /\ db s' = db s /\ reports s' = reports s /\
  (measure s' < measure s)%nat.
Proof.
  intros I H Hn.
  pose proof (inv_outcome _ _ I) as VO.
  rewrite (no_running_false _ _ _ H) in VO.
  pose proof (train_view_entry _ _ _ _ (inv_train _ _ I)) as TE.
  assert (A : forall l k', actions_of k' (l ++ [TaskEv k (Callback (Some e) VUndefined)]) =
     actions_of k' l ++ if TaskKey_eqb k' k then [Callback (Some e) VUndefined] else []).
  { intros. rewrite actions_of_app. simpl. rewrite (eqb_sym_key k k'). reflexivity. }
  unfold fail, callback; simpl.
  inversion VO; flip; use_eqs; simpl.
  - (* first error *)
    splits; auto.
    + eapply launch_view_fail; eauto using inv_launch.
    + constructor. apply train_entry_snoc; auto.
    + repeat (apply well_ordered_app; simpl; auto). exact (inv_order _ _ I).
    + intros k'. rewrite !succeeded_in_app; simpl. rewrite !app_nil_r.
      destruct (TaskKey_eqb k' k); [discriminate|]. apply (inv_succeeded _ _ I).
    + intros k'. rewrite 2 actions_of_app. simpl. rewrite A, !app_nil_r. reflexivity.
    + assert (W : (0 < weight (phase s k))%nat) by (rewrite H; unfold weight; lia).
      destruct k; unfold measure; simpl; lia.
  - splits; auto.
    + eapply launch_view_fail; eauto using inv_launch.
    + use_eqs. constructor; auto.
    + apply well_ordered_app; simpl; auto. exact (inv_order _ _ I).
    + intros k'. rewrite !succeeded_in_app; simpl. rewrite !app_nil_r.
      destruct (TaskKey_eqb k' k); [discriminate|]. apply (inv_succeeded _ _ I).
    + assert (W : (0 < weight (phase s k))%nat) by (rewrite H; unfold weight; lia).
      destruct k; unfold measure; simpl; lia.
Qed.


Lemma taskComplete_error c k s :
  hasError s = true -> taskComplete c k s = processQueue_idle c s.
Proof. intros H. unfold taskComplete. rewrite H. reflexivity. Qed.

Lemma taskComplete_issues c s :
  hasError s = false -> has K_issues (results s) = true ->
  taskComplete c K_issues s =
  if has K_repo (results s) then runTask c K_records s else processQueue_idle c s.
Proof.
  intros H Hi. unfold taskComplete, ready_after. rewrite H. simpl. rewrite Hi.
  destruct (has K_repo (results s)); reflexivity.
Qed.

Lemma taskComplete_repo c s :
  hasError s = false -> has K_repo (results s) = true ->
  has K_records (results s) = false ->
  taskComplete c K_repo s =
  if has K_issues (results s) then runTask c K_webhooks (runTask c K_records s)
  else runTask c K_webhooks s.
Proof.
  intros H Hr Hc. unfold taskComplete, ready_after. rewrite H. simpl. rewrite Hr, Hc.
  destruct (has K_issues (results s)); reflexivity.
Qed.

Lemma taskComplete_records c s :
  hasError s = false -> has K_repo (results s) = true ->
  has K_records (results s) = true ->
  taskComplete c K_records s = runTask c K_train s.
Proof.
  intros H Hr Hc. unfold taskComplete, ready_after. rewrite H. simpl. rewrite Hr, Hc.
  reflexivity.
Qed.

Lemma taskComplete_leaf c k s :
  k = K_webhooks \/ k = K_train -> taskComplete c k s = processQueue_idle c s.
Proof.
  intros [H|H]; subst; unfold taskComplete, ready_after; simpl;
    destruct (hasError s); reflexivity.
Qed.

Ltac crunch := repeat (progress (proj; use_eqs)).


Ltac entry_eq :=
  unfold issues_entry, attached;
  repeat match goal with
  | H : fetched_repo _ = _ |- _ => rewrite H
  | H : Repository_upsert _ _ = _ |- _ => rewrite H
  | H : Issue_destroy _ _ = _ |- _ => rewrite H
  end;
  try match goal with |- context [fetched_repo ?c] => destruct (fetched_repo c) end;
  reflexivity.

Ltac mp :=
  repeat match goal with
  | Himp : ?A -> _, HA : ?A |- _ => specialize (Himp HA)
  | Himp : ?x = ?x -> _ |- _ => specialize (Himp eq_refl)
  end.

Ltac launch_tac L :=
  let L' := fresh in
  pose proof L as L'; destruct L' as [[? ?] ? ? ? ? ? ? ? ?];
  match goal with
  | R : _ <> Pending -> _ /\ _ |- _ =>
    pose proof (fun h => proj1 (R h)); pose proof (fun h => proj2 (R h))
  end;
  constructor; simpl; use_eqs;
  try match goal with |- _ -> forall k : TaskKey, _ =>
        let k := fresh in intros ? k; destruct k; simpl; use_eqs end;
  try match goal with |- _ -> exists k : TaskKey, _ =>
       (intros _; first [exists K_repo; simpl; use_eqs; reflexivity
                       |exists K_issues; simpl; use_eqs; reflexivity
                       |exists K_records; simpl; use_eqs; reflexivity
                       |exists K_train; simpl; use_eqs; reflexivity
                       |match goal with
                        | F : _ = true -> exists k : TaskKey, _ |- _ =>
                          let k := fresh in
                          let Hk := fresh in
                          destruct F as [k Hk];
                          [first [assumption | reflexivity]
                          |exists k; destruct k; simpl; use_eqs; congruence]
                        end]) end;
  intros; repeat match goal with |- _ /\ _ => split end;
  first [congruence | solve [auto] | exfalso; congruence
        | mp; first [congruence | solve [auto] | exfalso; congruence]].

Ltac known_succeeded VS :=
  repeat match goal with
  | H : phase ?s ?k = Succeeded |- _ =>
    lazymatch goal with
    | _ : In k (succeeded_in (log s)) |- _ => fail
    | _ => pose proof (VS k H)
    end
  end.

Ltac solve_in :=
  simpl;
  first [ assumption | reflexivity
        | apply in_or_app; first [left; solve_in | right; solve_in]
        | left; solve_in | right; solve_in ].

Ltac order_tac VS :=
  known_succeeded VS;
  repeat (apply well_ordered_app; simpl; auto);
  repeat match goal with |- _ /\ _ => split end; auto;
  intros d Hd; simpl in Hd; rewrite ?succeeded_in_app;
  repeat match type of Hd with _ \/ _ => destruct Hd as [Hd|Hd] end;
  try contradiction; subst d; solve_in.

Ltac succ_tac VS :=
  let k := fresh "k" in
  let Hk := fresh "Hk" in
  intros k Hk; destruct k; simpl in Hk; try discriminate;
  known_succeeded VS; solve_in.

Ltac measure_tac := unfold measure; crunch; simpl; lia.

Ltac side :=
  solve [unfold persisted, fetched;
         repeat match goal with |- _ /\ _ => split end; eauto; lia].

Ltac view_tac :=
  lazymatch goal with
  | |- repo_view _ _ _ _ =>
    first
      [ solve [eapply repo_view_cast; [eapply RepoRunning | list_eq | reflexivity]]
      | solve [eapply repo_view_cast; [eapply RepoOk; side | list_eq | reflexivity]]
      | solve [eapply repo_view_cast; [eapply RepoFailed; side | list_eq | reflexivity]] ]
  | |- issues_view _ _ _ _ _ _ =>
    first
      [ solve [eapply issues_view_cast; [eapply IssuesRunning; side | list_eq | reflexivity]]
      | solve [eapply issues_view_cast; [eapply IssuesOk; side | list_eq | entry_eq]]
      | solve [eapply issues_view_cast; [eapply IssuesFailed; side | list_eq | reflexivity]] ]
  | |- records_view _ _ _ _ _ =>
    first
      [ solve [eapply records_view_cast;
               [eapply RecordsPending | list_eq | reflexivity | reflexivity]]
      | solve [eapply records_view_cast;
               [eapply RecordsRun0; side | list_eq | reflexivity | reflexivity]]
      | solve [eapply records_view_cast;
               [eapply RecordsRun1; side | list_eq | reflexivity | reflexivity]]
      | solve [eapply records_view_cast;
               [eapply RecordsRun2; side | list_eq | reflexivity | reflexivity]]
      | solve [eapply records_view_cast;
               [eapply RecordsOk; side | list_eq | reflexivity | reflexivity]]
      | solve [eapply records_view_cast;
               [eapply RecordsFailed0; side | list_eq | reflexivity | reflexivity]]
      | solve [eapply records_view_cast;
               [eapply RecordsFailed1; side | list_eq | reflexivity | reflexivity]]
      | solve [eapply records_view_cast;
               [eapply RecordsFailed2; side | list_eq | reflexivity | reflexivity]] ]
  | |- webhooks_view _ _ _ _ =>
    first
      [ solve [eapply webhooks_view_cast; [eapply WebPending | list_eq | reflexivity]]
      | solve [eapply webhooks_view_cast; [eapply WebRunning; side | list_eq | reflexivity]]
      | solve [eapply webhooks_view_cast; [eapply WebOk; side | list_eq | reflexivity]] ]
  | |- train_view _ _ _ _ =>
    first
      [ solve [eapply train_view_cast; [eapply TrainPending | list_eq | reflexivity]]
      | solve [eapply train_view_cast; [eapply TrainSkipped; side | list_eq | reflexivity]]
      | solve [eapply train_view_cast; [eapply TrainRunning; side | list_eq | reflexivity]]
      | solve [eapply train_view_cast; [eapply TrainOk; side | list_eq | reflexivity]]
      | solve [eapply train_view_cast; [eapply TrainFailed; side | list_eq | reflexivity]] ]
  end.

Ltac fail_tac :=
  match goal with
  | FP : forall k', phase ?x k' = _,
    FA : forall k', actions_of k' (log ?x) = _,
    FR : results ?x = _, FD : db ?x = _, FRp : reports ?x = _ |- _ =>
    constructor; try assumption;
    rewrite ?FP, ?FA, ?FR, ?FD, ?FRp; simpl; rewrite ?app_nil_r; use_eqs;
    try assumption; view_tac
  end.

Ltac running_tac :=
  match goal with |- context [no_running ?x] =>
    first [ rewrite (no_running_false x K_repo 0) by (simpl; use_eqs; reflexivity)
          | rewrite (no_running_false x K_issues 0) by (simpl; use_eqs; reflexivity)
          | rewrite (no_running_false x K_records 0) by (simpl; use_eqs; reflexivity)
          | rewrite (no_running_false x K_records 1) by (simpl; use_eqs; reflexivity)
          | rewrite (no_running_false x K_records 2) by (simpl; use_eqs; reflexivity)
          | rewrite (no_running_false x K_webhooks 0) by (simpl; use_eqs; reflexivity)
          | rewrite (no_running_false x K_train 0) by (simpl; use_eqs; reflexivity)
          | rewrite (no_running_true x)
              by (let k := fresh in intros k; destruct k; simpl; use_eqs; reflexivity) ]
  end.

Ltac outcome_tac :=
  try running_tac; use_eqs;
  first [assumption | apply OutRunning | apply OutDone | solve [eapply OutError; eauto]].

Ltac rest_tac L VS :=
  lazymatch goal with
  | |- launch_view _ _ => launch_tac L
  | |- outcome_view _ _ _ _ => outcome_tac
  | |- well_ordered _ _ => order_tac VS
  | |- forall k, _ -> In _ _ => succ_tac VS
  | |- _ => view_tac
  end.

Lemma step_issues c s s' :
  Inv c s -> step c K_issues s = Some s' -> Inv c s' /\ (measure s' < measure s)%nat.
Proof.
  intros I H. unfold step in H.
  destruct (phase s K_issues) eqn:Hp; try discriminate.
  destruct pc; try discriminate.
  pose proof (inv_launch _ _ I) as L.
  assert (Hrec : phase s K_records = Pending)
    by (apply (records_pending _ _ L); right; congruence).
  assert (Htr : phase s K_train = Pending)
    by (apply (train_pending _ _ L); congruence).
  pose proof (inv_records _ _ I) as VR. rewrite Hrec in VR. view VR.
  pose proof (inv_train _ _ I) as VT. rewrite Htr in VT. view VT.
  pose proof (inv_repo _ _ I) as VP.
  pose proof (inv_webhooks _ _ I) as VW.
  pose proof (inv_outcome _ _ I) as VO.
  rewrite (no_running_false _ _ _ Hp) in VO.
  pose proof (inv_succeeded _ _ I) as VS.
  pose proof (inv_order _ _ I) as VOrd.
  pose proof (inv_issues _ _ I) as V. rewrite Hp, Hrec in V.
  destruct (reports s) as [|p rest'] eqn:Hr.
  - view V.
    match goal with H : fetcher_reports c = _ |- _ => rewrite app_nil_r in H; subst done end.
    destruct (snd (getIssues (env c) (owner c) (name c))) as [err|found] eqn:Hf.
    + (* the fetch fails *)
      assert (Hfi : fetched_issues c = inl err) by (unfold fetched_issues; rewrite Hf; auto).
      inversion H; subst s'; clear H.
      change (taskCallback c K_issues (Some err) VUndefined s) with (fail c K_issues err s).
      destruct (fail_rest c s K_issues 0 err I Hp ltac:(lia))
        as (FL & FO & FW & FS & FP & FA & FR & FD & FRp & FM).
      split; [|exact FM].
      fail_tac.
    + assert (Hfi : fetched_issues c = inr (map (Issue_transformFields (env c)) found))
        by (unfold fetched_issues; rewrite Hf; auto).
      inversion H; subst s'; clear H.
      unfold taskCallback.
      view VP.
      * (* the repository is still being fetched *)
        assert (Hweb : phase s K_webhooks = Pending)
          by (apply (web_pending _ _ L); congruence).
        rewrite Hweb in VW. view VW.
        assert (Herr : hasError s = false).
        { apply (no_error_if _ _ L). intros k; destruct k; congruence. }
        view VO; try congruence.
        rewrite taskComplete_issues; [|exact Herr| unfold has; crunch; reflexivity].
        unfold has. crunch. unfold processQueue_idle.
        match goal with |- context [no_running ?x] =>
          rewrite (no_running_false x K_repo 0) by (simpl; assumption) end.
        split; [|measure_tac].
        constructor; crunch; frame.
        all: rest_tac L VS.
      * (* the repository has been fetched *)
        assert (Herr : hasError s = false).
        { apply (no_error_if _ _ L). intros k; destruct k; try congruence.
          intros F. rewrite F in VW. inversion VW. }
        view VO; try congruence.
        rewrite taskComplete_issues; [|exact Herr| unfold has; crunch; reflexivity].
        unfold has. crunch. unfold runTask. crunch.
        split; [|measure_tac].
        constructor; crunch; frame; rest_tac L VS.
      * (* the repository could not be fetched *)
        assert (Herr : hasError s = true) by (apply (error_if _ _ L K_repo); auto).
        assert (Hweb : phase s K_webhooks = Pending)
          by (apply (web_pending _ _ L); congruence).
        rewrite Hweb in VW. view VW.
        view VO; try congruence.
        rewrite taskComplete_error by exact Herr.
        unfold processQueue_idle, callback. running_tac. crunch.
        split; [|measure_tac].
        constructor; crunch; frame; rest_tac L VS.
  - view V. inversion H; subst s'; clear H. split; [|measure_tac].
    constructor; crunch; frame; try solve [rest_tac L VS].
    eapply issues_view_cast;
      [apply (IssuesRunning c (done ++ [p]) rest')|list_eq|reflexivity].
    match goal with H : fetcher_reports c = _ |- _ =>
      rewrite H, <- app_assoc; reflexivity end.
Qed.

Lemma issues_entry_plain c r iss rp :
  fetched_repo c = inr r -> attached c r rp = false -> issues_entry c iss rp = iss.
Proof. intros H A. unfold issues_entry. rewrite H, A. reflexivity. Qed.

Lemma issues_entry_attached c r iss rp :
  fetched_repo c = inr r -> attached c r rp = true ->
  issues_entry c iss rp = attach (repo_id r) iss.
Proof. intros H A. unfold issues_entry. rewrite H, A. reflexivity. Qed.

Lemma processQueue_idle_replied c s :
  outcome s <> None -> processQueue_idle c s = s.
Proof.
  intros H. unfold processQueue_idle, callback.
  destruct (no_running s); auto. destruct (outcome s); congruence.
Qed.

Ltac norm_entry :=
  repeat match goal with
  | Hfr : fetched_repo ?c = inr ?r, H : context [issues_entry ?c ?iss ?rp] |- _ =>
    first [ rewrite (issues_entry_plain c r iss rp Hfr eq_refl) in H
          | rewrite (issues_entry_attached c r iss rp Hfr eq_refl) in H ]
  end.

Ltac use_eqs_in H :=
  repeat match goal with
  | E : get _ _ = _ |- _ => rewrite E in H
  | E : phase _ _ = _ |- _ => rewrite E in H
  end.

Ltac start I :=
  pose proof (inv_launch _ _ I) as L;
  pose proof (inv_repo _ _ I) as VP;
  pose proof (inv_issues _ _ I) as VI;
  pose proof (inv_records _ _ I) as VR;
  pose proof (inv_webhooks _ _ I) as VW;
  pose proof (inv_train _ _ I) as VT;
  pose proof (inv_outcome _ _ I) as VO;
  pose proof (inv_succeeded _ _ I) as VS;
  pose proof (inv_order _ _ I) as VOrd.

Ltac finish L VS := split; [constructor; crunch; frame; rest_tac L VS | measure_tac].

Ltac has_tac := unfold has; crunch; reflexivity.

Lemma step_repo c s s' :
  Inv c s -> step c K_repo s = Some s' -> Inv c s' /\ (measure s' < measure s)%nat.
Proof.
  intros I H. unfold step in H.
  destruct (phase s K_repo) eqn:Hp; try discriminate.
  destruct pc; try discriminate.
  start I.
  assert (Hweb : phase s K_webhooks = Pending)
    by (apply (web_pending _ _ L); congruence).
  assert (Hrec : phase s K_records = Pending)
    by (apply (records_pending _ _ L); left; congruence).
  assert (Htr : phase s K_train = Pending)
    by (apply (train_pending _ _ L); congruence).
  rewrite Hp in VP. rewrite Hweb in VW. rewrite Hrec in VR, VI. rewrite Htr in VT.
  rewrite (no_running_false _ _ _ Hp) in VO.
  view VP. view VW. view VR. view VT.
  destruct (repos_get (github c) (owner c) (name c)) as [err|raw] eqn:Hg;
    inversion H; subst s'; clear H.
  - assert (Hfr : fetched_repo c = inl err) by (unfold fetched_repo; rewrite Hg; auto).
    change (taskCallback c K_repo (Some err) VUndefined s) with (fail c K_repo err s).
    destruct (fail_rest c s K_repo 0 err I Hp ltac:(lia))
      as (FL & FO & FW & FS & FP & FA & FR & FD & FRp & FM).
    split; [|exact FM]. fail_tac.
  - assert (Hfr : fetched_repo c =
                  inr (set_token (socket_token (env c)) (transformFields raw)))
      by (unfold fetched_repo; rewrite Hg; auto).
    unfold taskCallback.
    view VI.
    + assert (Herr : hasError s = false).
      { apply (no_error_if _ _ L). intros k; destruct k; congruence. }
      view VO; try congruence.
      rewrite taskComplete_repo; [|exact Herr|has_tac|has_tac].
      unfold has. crunch. unfold runTask. crunch.
      finish L VS.
    + assert (Herr : hasError s = false).
      { apply (no_error_if _ _ L). intros k; destruct k; congruence. }
      view VO; try congruence.
      rewrite taskComplete_repo; [|exact Herr|has_tac|has_tac].
      unfold has. crunch. unfold runTask. crunch.
      finish L VS.
    + assert (Herr : hasError s = true) by (apply (error_if _ _ L K_issues); auto).
      view VO; try congruence.
      rewrite taskComplete_error by exact Herr.
      rewrite processQueue_idle_replied by (simpl; congruence).
      finish L VS.
Qed.

Lemma step_webhooks c s s' :
  Inv c s -> step c K_webhooks s = Some s' -> Inv c s' /\ (measure s' < measure s)%nat.
Proof.
  intros I H. unfold step in H.
  destruct (phase s K_webhooks) eqn:Hp; try discriminate.
  destruct pc; try discriminate.
  start I.
  assert (Hrepo : phase s K_repo = Succeeded) by (apply (lv_web _ _ L); congruence).
  rewrite Hrepo in VP. rewrite Hp in VW.
  rewrite (no_running_false _ _ _ Hp) in VO.
  view VP. view VW. unify_fetched. use_eqs_in H.
  inversion H; subst s'; clear H.
  unfold taskCallback. rewrite taskComplete_leaf by auto.
  fold (hook_message c r).
  destruct (hasError s) eqn:Herr.
  - (* an error was already reported *)
    view VO.
    rewrite processQueue_idle_replied by (simpl; congruence).
    finish L VS.
  - view VO.
    pose proof (lv_no_failure _ _ L eq_refl) as NF.
    view VI; try (exfalso; eapply NF; eassumption).
    + unfold processQueue_idle. running_tac. finish L VS.
    + assert (Hrec : phase s K_records <> Pending)
        by (apply (lv_rec_started _ _ L); auto).
      view VR; try congruence; try (exfalso; eapply NF; eassumption).
      * unfold processQueue_idle. running_tac. finish L VS.
      * unfold processQueue_idle. running_tac. finish L VS.
      * unfold processQueue_idle. running_tac. finish L VS.
      * assert (Htr : phase s K_train <> Pending)
          by (apply (lv_train_started _ _ L); auto).
        view VT; try congruence; try (exfalso; eapply NF; eassumption).
        -- unfold processQueue_idle, callback. running_tac. crunch. finish L VS.
        -- unfold processQueue_idle. running_tac. finish L VS.
        -- unfold processQueue_idle, callback. running_tac. crunch. finish L VS.
Qed.

Lemma step_train c s s' :
  Inv c s -> step c K_train s = Some s' -> Inv c s' /\ (measure s' < measure s)%nat.
Proof.
  intros I H. unfold step in H.
  destruct (phase s K_train) eqn:Hp; try discriminate.
  destruct pc; try discriminate.
  start I.
  assert (Hrec : phase s K_records = Succeeded) by (apply (lv_train _ _ L); congruence).
  destruct (lv_rec _ _ L) as [Hrepo Hiss]; [congruence|].
  rewrite Hrepo in VP. rewrite Hiss, Hrec in VI. rewrite Hrec in VR. rewrite Hp in VT.
  rewrite (no_running_false _ _ _ Hp) in VO.
  view VP. view VI. view VR. view VT. norm_entry. use_eqs_in H.
  assert (Herr : hasError s = false).
  { apply (no_error_if _ _ L). intros k; destruct k; try congruence.
    intros F. rewrite F in VW. inversion VW. }
  view VO; try congruence.
  fold (trainer_answer c r iss) in H.
  destruct (trainer_answer c r iss) as [err|t] eqn:Ht; inversion H; subst s'; clear H.
  - change (taskCallback c K_train (Some err) VUndefined s) with (fail c K_train err s).
    destruct (fail_rest c s K_train 0 err I Hp ltac:(lia))
      as (FL & FO & FW & FS & FP & FA & FR & FD & FRp & FM).
    split; [|exact FM]. fail_tac.
  - unfold taskCallback. rewrite taskComplete_leaf by auto.
    assert (Hweb : phase s K_webhooks <> Pending)
      by (apply (lv_web_started _ _ L); auto).
    view VW; try congruence.
    + unfold processQueue_idle. running_tac. finish L VS.
    + unfold processQueue_idle, callback. running_tac. crunch. finish L VS.
Qed.

Lemma step_records c s s' :
  Inv c s -> step c K_records s = Some s' -> Inv c s' /\ (measure s' < measure s)%nat.
Proof.
  intros I H. unfold step in H.
  destruct (phase s K_records) eqn:Hp; try discriminate.
  start I.
  destruct (lv_rec _ _ L) as [Hrepo Hiss]; [congruence|].
  assert (Htr : phase s K_train = Pending)
    by (apply (train_pending _ _ L); congruence).
  rewrite Hrepo in VP. rewrite Hiss, Hp in VI. rewrite Hp in VR. rewrite Htr in VT.
  rewrite (no_running_false _ _ _ Hp) in VO.
  assert (Herr : hasError s = false).
  { apply (no_error_if _ _ L). intros k; destruct k; try congruence.
    intros F. rewrite F in VW. inversion VW. }
  view VO; try congruence.
  view VP. view VT.
  destruct pc as [|[|[|pc]]]; try discriminate.
  - (* the upsert completes *)
    view VI. view VR. norm_entry. use_eqs_in H.
    destruct (Repository_upsert (env c) r) as [err|] eqn:Hu;
      inversion H; subst s'; clear H.
    + change (taskCallback c K_records (Some err) VUndefined s)
        with (fail c K_records err s).
      destruct (fail_rest c s K_records 0 err I Hp ltac:(lia))
        as (FL & FO & FW & FS & FP & FA & FR & FD & FRp & FM).
      split; [|exact FM]. fail_tac.
    + finish L VS.
  - (* the deletion completes *)
    view VI. view VR. norm_entry. use_eqs_in H.
    destruct (Issue_destroy (env c) (repo_id r)) as [err|] eqn:Hd;
      inversion H; subst s'; clear H.
    + change (taskCallback c K_records (Some err) VUndefined s)
        with (fail c K_records err s).
      destruct (fail_rest c s K_records 1 err I Hp ltac:(lia))
        as (FL & FO & FW & FS & FP & FA & FR & FD & FRp & FM).
      split; [|exact FM]. fail_tac.
    + finish L VS.
  - (* the bulk insert completes *)
    view VI. view VR. norm_entry. use_eqs_in H.
    destruct (Issue_bulkCreate (env c) (attach (repo_id r) iss)) as [err|] eqn:Hb;
      inversion H; subst s'; clear H.
    + change (taskCallback c K_records (Some err) VUndefined s)
        with (fail c K_records err s).
      destruct (fail_rest c s K_records 2 err I Hp ltac:(lia))
        as (FL & FO & FW & FS & FP & FA & FR & FD & FRp & FM).
      split; [|exact FM]. fail_tac.
    + unfold taskCallback.
      rewrite taskComplete_records; [|exact Herr|has_tac|has_tac].
      unfold runTask. crunch.
      assert (Hlen : List.length (attach (repo_id r) iss) = List.length iss)
        by (unfold attach; apply length_map).
      rewrite Hlen.
      destruct (List.length iss <=? 1)%nat eqn:Hle.
      * (* too few issues: the train task finishes at once *)
        apply Nat.leb_le in Hle.
        assert (Hweb : phase s K_webhooks <> Pending)
          by (apply (lv_web_started _ _ L); auto).
        view VW; try congruence.
        -- unfold processQueue_idle. running_tac. finish L VS.
        -- unfold processQueue_idle, callback. running_tac. crunch. finish L VS.
      * apply Nat.leb_gt in Hle. crunch. finish L VS.
Qed.

Theorem step_preserves c k s s' :
  Inv c s -> step c k s = Some s' -> Inv c s' /\ (measure s' < measure s)%nat.
Proof.
  destruct k; eauto using step_repo, step_issues, step_records, step_webhooks, step_train.
Qed.

(** ** Runs *)

Lemma next_context e url k s s' :
  next e url k s = Some s' -> exists c, context e url = Some c /\ step c k s = Some s'.
Proof.
  unfold next. destruct (context e url) as [c|]; [|discriminate]. eauto.
Qed.

Lemma run_from_inv e url c sched : forall s,
  context e url = Some c -> Inv c s -> Inv c (run_from e url sched s).
Proof.
  induction sched as [|k sched IH]; simpl; intros s Hc I; auto.
  destruct (next e url k s) as [s'|] eqn:Hn; auto.
  apply IH; auto.
  destruct (next_context _ _ _ _ _ Hn) as (c' & Hc' & Hs).
  assert (c' = c) by congruence. subst c'.
  apply (step_preserves c k s s' I Hs).
Qed.

Lemma run_inv e url c sched :
  context e url = Some c -> Inv c (run e url sched).
Proof.
  intros Hc. unfold run. apply run_from_inv; auto.
  rewrite (start_state _ _ _ Hc). apply Inv_start.
Qed.

Lemma run_from_rejected e url sched s :
  context e url = None -> run_from e url sched s = s.
Proof.
  intros Hc. induction sched as [|k sched IH]; simpl; auto.
  unfold next. rewrite Hc. auto.
Qed.

Lemma run_rejected e url sched :
  context e url = None -> run e url sched = REPOSITORY_SYNC e url.
Proof. intros. unfold run. apply run_from_rejected; auto. Qed.

Lemma run_from_app e url a : forall b s,
  run_from e url (a ++ b) s = run_from e url b (run_from e url a s).
Proof.
  induction a as [|k a IH]; simpl; intros; auto.
  destruct (next e url k s); auto.
Qed.

Lemma run_app e url a b : run e url (a ++ b) = run_from e url b (run e url a).
Proof. unfold run. apply run_from_app. Qed.

Lemma run_reachable e url sched : reachable e url (run e url sched).
Proof.
  unfold run. generalize (reach_start e url).
  generalize (REPOSITORY_SYNC e url) as s.
  induction sched as [|k sched IH]; simpl; intros s R; auto.
  destruct (next e url k s) as [s'|] eqn:Hn; auto.
  apply IH. eapply reach_step; eauto.
Qed.

Lemma reachable_run e url s : reachable e url s -> exists sched, s = run e url sched.
Proof.
  induction 1 as [|s k s' R [sched IH] Hn].
  - exists []. reflexivity.
  - exists (sched ++ [k]). rewrite run_app. simpl. rewrite <- IH, Hn. reflexivity.
Qed.

(** Every run comes to rest: transitions use up the measure. *)
Lemma run_from_terminates e url c : forall n s,
  context e url = Some c -> Inv c s -> (measure s < n)%nat ->
  exists sched, quiescent e url (run_from e url sched s).
Proof.
  induction n as [|n IH]; intros s Hc I Hm; [lia|].
  assert (D : (exists k s', next e url k s = Some s') \/ quiescent e url s).
  { destruct (next e url K_repo s) eqn:E1; [left; eauto|].
    destruct (next e url K_issues s) eqn:E2; [left; eauto|].
    destruct (next e url K_records s) eqn:E3; [left; eauto|].
    destruct (next e url K_webhooks s) eqn:E4; [left; eauto|].
    destruct (next e url K_train s) eqn:E5; [left; eauto|].
    right. intros k; destruct k; assumption. }
  destruct D as [(k & s' & Hn)|Q].
  - destruct (next_context _ _ _ _ _ Hn) as (c' & Hc' & Hs).
    assert (c' = c) by congruence. subst c'.
    destruct (step_preserves c k s s' I Hs) as [I' M'].
    destruct (IH s' Hc I' ltac:(lia)) as [sched Hq].
    exists (k :: sched). simpl. rewrite Hn. exact Hq.
  - exists []. exact Q.
Qed.

Lemma run_terminates e url sched :
  exists more, quiescent e url (run e url (sched ++ more)).
Proof.
  destruct (context e url) as [c|] eqn:Hc.
  - destruct (run_from_terminates e url c (S (measure (run e url sched))) (run e url sched)
                Hc (run_inv _ _ _ sched Hc) ltac:(lia)) as [more Hq].
    exists more. rewrite run_app. exact Hq.
  - exists []. intros k. unfold next. rewrite Hc. reflexivity.
Qed.

(** ** Logs and the actions of tasks *)

Lemma in_actions_of k a l : In (TaskEv k a) l <-> In a (actions_of k l).
Proof.
  induction l as [|e l IH]; simpl; [tauto|].
  destruct e as [k' a'| | |]; try (rewrite <- IH; intuition congruence).
  destruct (TaskKey_eqb k' k) eqn:E.
  - apply TaskKey_eqb_eq in E; subst k'. simpl. rewrite <- IH. intuition congruence.
  - rewrite <- IH. split; [intros [H|H]; auto|auto].
    inversion H; subst. destruct k; discriminate.
Qed.

Lemma in_report_actions a l : In a (report_actions l) -> exists p, a = P ISSUES p None.
Proof. unfold report_actions. rewrite in_map_iff. intros (p & H & _). eauto. Qed.

(** What the actions of a task say about its phase. *)
Section ViewFacts.
Variables (c : Ctx) (s : State).
Hypothesis I : Inv c s.

Ltac in_list H :=
  repeat (rewrite in_app_iff in H || simpl in H);
  repeat match type of H with
         | _ \/ _ => destruct H as [H|H]
         | In _ (report_actions _) => apply in_report_actions in H; destruct H as [? H]
         end;
  try contradiction; try discriminate.

Lemma invoked_launched k : In (TaskEv k Invoke) (log s) -> phase s k <> Pending.
Proof.
  rewrite in_actions_of. intros H F.
  destruct k;
    [ pose proof (inv_repo _ _ I) as V | pose proof (inv_issues _ _ I) as V
    | pose proof (inv_records _ _ I) as V | pose proof (inv_webhooks _ _ I) as V
    | pose proof (inv_train _ _ I) as V ];
    rewrite F in V; inversion V as []; flip;
    match goal with E : actions_of _ _ = _ |- _ => rewrite E in H end; inversion H.
Qed.

Lemma failure_logged k err v :
  In (TaskEv k (Callback (Some err) v)) (log s) -> phase s k = Failed.
Proof.
  rewrite in_actions_of. intros H.
  destruct k;
    [ pose proof (inv_repo _ _ I) as V | pose proof (inv_issues _ _ I) as V
    | pose proof (inv_records _ _ I) as V | pose proof (inv_webhooks _ _ I) as V
    | pose proof (inv_train _ _ I) as V ];
    inversion V; flip; auto;
    match goal with E : actions_of _ _ = _ |- _ => rewrite E in H end;
    in_list H.
Qed.

Lemma launched_after k d :
  phase s k <> Pending -> In d (dependencies k) -> phase s d = Succeeded.
Proof.
  intros H Hd. pose proof (inv_launch _ _ I) as L.
  destruct k; simpl in Hd; repeat destruct Hd as [Hd|Hd]; try contradiction; subst d.
  - apply (lv_rec _ _ L H).
  - apply (lv_rec _ _ L H).
  - apply (lv_web _ _ L H).
  - apply (lv_rec _ _ L). rewrite (lv_train _ _ L H). discriminate.
  - apply (lv_train _ _ L H).
Qed.
End ViewFacts.

Lemma well_ordered_split l : forall done pre k post d,
  well_ordered done l -> l = pre ++ TaskEv k Invoke :: post ->
  In d (dependencies k) -> In d done \/ exists v, In (TaskEv d (Callback None v)) pre.
Proof.
  induction l as [|e l IH]; intros done pre k post d W E Hd.
  - destruct pre; discriminate.
  - destruct pre as [|e' pre]; simpl in E; inversion E; subst; clear E.
    + simpl in W. left. apply W; auto.
    + simpl in W.
      assert (G : forall done', well_ordered done' (pre ++ TaskEv k Invoke :: post) ->
                  In d done' \/ exists v, In (TaskEv d (Callback None v)) pre)
        by (intros; eapply IH; eauto).
      destruct e' as [k' a| | |]; try (destruct (G _ W) as [?|[v ?]]; [auto|right; exists v; simpl; auto]).
      destruct a; try (destruct (G _ W) as [?|[v ?]]; [auto|right; exists v; simpl; auto]).
      * destruct W as [_ W]. destruct (G _ W) as [?|[v ?]]; [auto|right; exists v; simpl; auto].
      * destruct err; try (destruct (G _ W) as [?|[v' ?]]; [auto|right; exists v'; simpl; auto]).
        destruct (G _ W) as [[?|?]|[v' ?]].
        -- subst. right. exists v. simpl. auto.
        -- auto.
        -- right. exists v'. simpl. auto.
Qed.

Lemma rejected_quiet x s :
  rejected_with x s ->
  (forall k a, ~ In (TaskEv k a) (log s)) /\ (forall t, progress_of t (log s) = []).
Proof.
  intros [_ H]. rewrite H. split.
  - intros k a [F|[]]. discriminate.
  - reflexivity.
Qed.

Lemma run_well_ordered e url sched : well_ordered [] (log (run e url sched)).
Proof.
  destruct (context e url) as [c|] eqn:Hc.
  - apply (inv_order _ _ (run_inv _ _ _ sched Hc)).
  - rewrite run_rejected by auto. unfold REPOSITORY_SYNC. rewrite Hc.
    destruct (socket_github e); simpl; auto.
Qed.

Lemma rejected_log e url sched :
  context e url = None -> forall k a, ~ In (TaskEv k a) (log (run e url sched)).
Proof.
  intros Hc k a. rewrite run_rejected by auto. unfold REPOSITORY_SYNC. rewrite Hc.
  destruct (socket_github e); simpl; intros [F|[]]; discriminate.
Qed.

(** C1. Dependency ordering. In every run of the sync pipeline, whatever
    the order in which the collaborators answer: the declared dependencies
    are those of the task graph; the body of a task is invoked only after
    each of its dependencies has called back with success; and once a
    dependency has called back with an error, the body of the dependent
    task is not invoked. *)
Theorem C1_dependency_order (e : Env) (url : string) (sched : list TaskKey) :
  let s := run e url sched in
  (dependencies K_repo = [] /\ dependencies K_issues = [] /\
   dependencies K_records = [K_repo; K_issues] /\
   dependencies K_webhooks = [K_repo] /\
   dependencies K_train = [K_repo; K_records]) /\
  (forall pre k post d,
      log s = pre ++ TaskEv k Invoke :: post -> In d (dependencies k) ->
      exists v, In (TaskEv d (Callback None v)) pre) /\
  (forall k d err v,
      In d (dependencies k) -> In (TaskEv d (Callback (Some err) v)) (log s) ->
      ~ In (TaskEv k Invoke) (log s)).
Proof.
  intros s. split; [repeat split|split].
  - intros pre k post d E Hd.
    destruct (well_ordered_split _ [] pre k post d (run_well_ordered e url sched) E Hd)
      as [[]|H]; exact H.
  - intros k d err v Hd Hf Hi.
    destruct (context e url) as [c|] eqn:Hc.
    + pose proof (run_inv _ _ _ sched Hc) as I. fold s in I.
      pose proof (failure_logged c s I _ _ _ Hf) as F.
      pose proof (launched_after c s I k d (invoked_launched c s I k Hi) Hd) as S.
      congruence.
    + exact (rejected_log e url sched Hc _ _ Hi).
Qed.

(** ** Reading one kind of action off a log *)

Section CollectFacts.
Variable X : Type.
Variable f : Action -> option X.

Lemma collect_app a b : collect f (a ++ b) = collect f a ++ collect f b.
Proof.
  induction a as [|x a IH]; simpl; auto. destruct (f x); simpl; congruence.
Qed.

(** When only task [k] performs such actions, they are those of [k]. *)
Lemma collect_log_owner k l :
  (forall k', k' <> k -> collect f (actions_of k' l) = []) ->
  collect_log f l = collect f (actions_of k l).
Proof.
  induction l as [|e l IH]; simpl; intros H; auto.
  destruct e as [k' a| | |]; try (apply IH; exact H).
  assert (T : forall k'', k'' <> k -> collect f (actions_of k'' l) = []).
  { intros k'' N. specialize (H k'' N). simpl in H.
    destruct (TaskKey_eqb k' k''); auto. simpl in H.
    destruct (f a); [discriminate|auto]. }
  destruct (TaskKey_eqb k' k) eqn:E.
  - simpl. rewrite (IH T). reflexivity.
  - assert (N : k' <> k) by (intros F; subst; destruct k; discriminate).
    specialize (H k' N). simpl in H.
    replace (TaskKey_eqb k' k') with true in H by (destruct k'; reflexivity).
    simpl in H. destruct (f a); [discriminate|]. apply IH; exact T.
Qed.
End CollectFacts.


Lemma progress_of_collect t l : progress_of t l = collect_log (progress_at t) l.
Proof.
  induction l as [|e l IH]; simpl; auto.
  destruct e as [k a| | |]; auto. destruct a; simpl; auto.
  destruct (Stage_eqb (task d) t); congruence.
Qed.

Lemma train_calls_collect l : train_calls l = collect_log train_call l.
Proof.
  induction l as [|e l IH]; simpl; auto.
  destruct e as [k a| | |]; auto. destruct a; simpl; auto.
  destruct c; simpl; congruence.
Qed.

Lemma collect_reports_other t :
  t <> ISSUES -> forall l, collect (progress_at t) (report_actions l) = [].
Proof.
  intros N l. induction l as [|p l IH]; simpl; auto.
  destruct t; try contradiction; simpl; auto.
Qed.

Lemma collect_reports l :
  collect (progress_at ISSUES) (report_actions l) =
  map (fun p => {| task := ISSUES; percent := p; msg := None |}) l.
Proof. induction l as [|p l IH]; simpl; congruence. Qed.

Lemma collect_reports_train l : collect train_call (report_actions l) = [].
Proof. induction l as [|p l IH]; simpl; auto. Qed.

Ltac all_views I :=
  pose proof (inv_repo _ _ I) as VP;
  pose proof (inv_issues _ _ I) as VI;
  pose proof (inv_records _ _ I) as VR;
  pose proof (inv_webhooks _ _ I) as VW;
  pose proof (inv_train _ _ I) as VT.

Ltac collect_tac :=
  try match goal with E : actions_of _ _ = _ |- _ => rewrite E end;
  repeat (simpl;
          first [ rewrite collect_app | rewrite collect_reports_train
                | rewrite collect_reports_other by discriminate ]);
  simpl; reflexivity.

Lemma own_stage c s t k :
  Inv c s -> k <> key_of t -> collect (progress_at t) (actions_of k (log s)) = [].
Proof.
  intros I N. all_views I.
  destruct k;
    [ inversion VP | inversion VI | inversion VR | inversion VW | inversion VT ];
    flip; destruct t; simpl in N; try congruence; collect_tac.
Qed.

Lemma own_train_calls c s k :
  Inv c s -> k <> K_train -> collect train_call (actions_of k (log s)) = [].
Proof.
  intros I N. all_views I.
  destruct k; try congruence;
    [ inversion VP | inversion VI | inversion VR | inversion VW ];
    flip; collect_tac.
Qed.

Lemma progress_of_stage c s t :
  Inv c s -> progress_of t (log s) = collect (progress_at t) (actions_of (key_of t) (log s)).
Proof.
  intros I. rewrite progress_of_collect. apply collect_log_owner.
  intros k N. apply (own_stage c s t k I N).
Qed.

Lemma train_calls_stage c s :
  Inv c s -> train_calls (log s) = collect train_call (actions_of K_train (log s)).
Proof.
  intros I. rewrite train_calls_collect. apply collect_log_owner.
  intros k N. apply (own_train_calls c s k I N).
Qed.

(** ** Requests that are turned away *)

Lemma malformed_context e url : malformed e url -> context e url = None.
Proof.
  unfold malformed, context. destruct (socket_github e); auto.
  destruct (env_parseGitHubUrl e url) as [repo|]; auto.
  intros H. destruct (pu_name repo); auto. rewrite H. reflexivity.
Qed.

(** C9. Validation comes first. Without an authenticated session the
    caller is answered [MISSING_GITHUB] (the spec's MissingCredential);
    with a session and a repository URL the parser cannot make a
    repository name of, the caller is answered the invalid-URL message
    (the spec's InvalidRepositoryURL). In both cases that answer is all
    that happens: no progress event is emitted and no task body is
    invoked, however long the run is observed. *)
Theorem C9_validation (e : Env) (url : string) (sched : list TaskKey) :
  let s := run e url sched in
  let quiet := (forall k a, ~ In (TaskEv k a) (log s)) /\
               (forall t, progress_of t (log s) = []) in
  (socket_github e = None -> rejected_with MISSING_GITHUB s /\ quiet) /\
  (socket_github e <> None -> malformed e url ->
   rejected_with (Msg invalid_url_message) s /\ quiet).
Proof.
  intros s quiet. split.
  - intros H.
    assert (R : rejected_with MISSING_GITHUB s).
    { unfold s. rewrite run_rejected by (unfold context; rewrite H; reflexivity).
      unfold REPOSITORY_SYNC. rewrite H. split; reflexivity. }
    split; [exact R|exact (rejected_quiet _ _ R)].
  - intros H M.
    assert (R : rejected_with (Msg invalid_url_message) s).
    { unfold s. rewrite run_rejected by (apply malformed_context; exact M).
      unfold REPOSITORY_SYNC. rewrite (malformed_context _ _ M).
      destruct (socket_github e); [|congruence]. split; reflexivity. }
    split; [exact R|exact (rejected_quiet _ _ R)].
Qed.

(** ** Runs that come to rest *)

Lemma running_enabled c s k pc :
  Inv c s -> phase s k = Running pc -> step c k s <> None.
Proof.
  intros I Hp. pose proof (inv_launch _ _ I) as L. all_views I.
  destruct k; unfold step; rewrite Hp.
  - rewrite Hp in VP. inversion VP.
    destruct (repos_get (github c) (owner c) (name c)); discriminate.
  - rewrite Hp in VI. inversion VI.
    destruct (reports s); [|discriminate].
    destruct (snd (getIssues (env c) (owner c) (name c))); discriminate.
  - destruct (lv_rec _ _ L) as [Hrepo Hiss]; [congruence|].
    rewrite Hrepo in VP. rewrite Hiss in VI. rewrite Hp in VR.
    view VP. view VI. view VR; use_eqs.
    + destruct (Repository_upsert (env c) r); discriminate.
    + destruct (Issue_destroy (env c) (repo_id r)); discriminate.
    + destruct (Issue_bulkCreate (env c) _); discriminate.
  - assert (Hrepo : phase s K_repo = Succeeded) by (apply (lv_web _ _ L); congruence).
    rewrite Hrepo in VP. rewrite Hp in VW. view VP. view VW. use_eqs. discriminate.
  - assert (Hrec : phase s K_records = Succeeded) by (apply (lv_train _ _ L); congruence).
    destruct (lv_rec _ _ L) as [Hrepo Hiss]; [congruence|].
    rewrite Hrepo in VP. rewrite Hiss in VI. rewrite Hp in VT.
    view VP. view VI. view VT. use_eqs.
    destruct (classifier_train (env c) _ _ _ _); discriminate.
Qed.

Lemma quiescent_idle e url c s :
  context e url = Some c -> Inv c s -> quiescent e url s -> no_running s = true.
Proof.
  intros Hc I Q. apply no_running_true. intros k.
  destruct (phase s k) eqn:Hp; auto.
  exfalso. apply (running_enabled c s k pc I Hp).
  specialize (Q k). unfold next in Q. rewrite Hc in Q. exact Q.
Qed.

Lemma idle_phases s k : no_running s = true -> is_running (phase s k) = false.
Proof.
  unfold no_running. rewrite forallb_forall. intros H.
  apply negb_true_iff. apply H. destruct k; simpl; tauto.
Qed.

(** At rest and without an error every task has succeeded and the caller
    has the results. *)
Lemma idle_success c s :
  Inv c s -> no_running s = true -> hasError s = false ->
  outcome s = Some (success (results s)) /\ forall k, phase s k = Succeeded.
Proof.
  intros I N E. pose proof (inv_launch _ _ I) as L. pose proof (inv_outcome _ _ I) as O.
  rewrite N, E in O. split; [inversion O; reflexivity|].
  assert (F : forall k, phase s k <> Pending -> phase s k = Succeeded).
  { intros k Hk. pose proof (idle_phases s k N) as R.
    pose proof (lv_no_failure _ _ L E k) as NF.
    destruct (phase s k); simpl in R; congruence. }
  destruct (lv_roots _ _ L) as [R1 R2].
  assert (Hrepo := F _ R1). assert (Hiss := F _ R2).
  assert (Hweb := F _ (lv_web_started _ _ L E Hrepo)).
  assert (Hrec := F _ (lv_rec_started _ _ L E Hrepo Hiss)).
  assert (Htr := F _ (lv_train_started _ _ L E Hrec)).
  intros k; destruct k; assumption.
Qed.

Lemma others_succeed_no_error c s : Inv c s -> others_succeed c -> hasError s = false.
Proof.
  intros I (r & iss & Hp & Ht). pose proof (inv_launch _ _ I) as L. all_views I.
  unify_fetched.
  apply (no_error_if _ _ L). intros k F.
  destruct k;
    [ rewrite F in VP; view VP | rewrite F in VI; view VI | rewrite F in VR; view VR
    | rewrite F in VW; view VW | rewrite F in VT; view VT ]; try congruence.
  destruct Ht as [Ht|[t Ht]]; [lia|congruence].
Qed.


(** C10. The progress events of the webhook stage. For a validated
    request whose repository was fetched, the stage has emitted nothing
    before it starts; percent 0 and then the registrar call while the call
    is pending; and exactly the two events percent 0 and percent 1, in that
    order around the call, once the call has completed. The second event
    carries [err && err.message], the message of the registrar's error,
    when registration failed and no message when it succeeded, so percent
    1 is emitted in both cases. *)
Theorem C10_webhook_progress (e : Env) (url : string) (sched : list TaskKey)
    (c : Ctx) (r : Repository) :
  context e url = Some c -> fetched_repo c = inr r ->
  let s := run e url sched in
  let hook := repos_createHook (github c) (repo_owner r) (repo_name r) in
  let zero := {| task := WEBHOOK; percent := 0; msg := None |} in
  let one := {| task := WEBHOOK; percent := 1; msg := err_message hook |} in
  let registrar := Called (CCreateHook (repo_owner r) (repo_name r) webhook_events
                             (config_base_url (env c) ++ "/webhook")%string) in
  ((phase s K_webhooks = Pending /\ progress_of WEBHOOK (log s) = [] /\
    actions_of K_webhooks (log s) = []) \/
   (phase s K_webhooks = Running 0 /\ progress_of WEBHOOK (log s) = [zero] /\
    actions_of K_webhooks (log s) = [Invoke; Progress zero; registrar]) \/
   (phase s K_webhooks = Succeeded /\ progress_of WEBHOOK (log s) = [zero; one] /\
    actions_of K_webhooks (log s) =
    [Invoke; Progress zero; registrar; Progress one; Callback None VUndefined])) /\
  (hook = None -> msg one = None) /\
  (forall err, hook = Some err -> msg one = message err).
Proof.
  intros Hc Hr s hook zero one registrar.
  pose proof (run_inv _ _ _ sched Hc) as I. fold s in I.
  split; [|split].
  - rewrite (progress_of_stage c s WEBHOOK I). simpl key_of.
    pose proof (inv_webhooks _ _ I) as V. view V; use_eqs.
    + left. auto.
    + right. left. auto.
    + right. right. auto.
  - intros H. simpl. rewrite H. reflexivity.
  - intros err H. simpl. rewrite H. reflexivity.
Qed.

Lemma train_started c s :
  Inv c s -> phase s K_records = Succeeded -> phase s K_train <> Pending.
Proof.
  intros I Hrec. pose proof (inv_launch _ _ I) as L.
  destruct (hasError s) eqn:E.
  - destruct (lv_failure _ _ L eq_refl) as [k F].
    destruct (lv_rec _ _ L) as [Hrepo Hiss]; [congruence|].
    destruct k; try congruence.
    pose proof (inv_webhooks _ _ I) as V. rewrite F in V. inversion V.
  - apply (lv_train_started _ _ L eq_refl Hrec).
Qed.

(** C3. The training threshold. For a validated request whose repository
    and issues were fetched: the train stage starts once persistence has
    succeeded. With at most one fetched issue the classifier trainer is
    never called, and the stage, once started, has emitted percent 0 and
    percent 1 and completed. With two or more fetched issues the trainer
    has been called exactly once as soon as the stage has started, with
    the fetched repository's owner and name, the issues entry of the
    results (the fetched issues, which by then carry the repository
    identity written by the records task) and an empty ignore list; before
    the stage starts it has not been called. *)
Theorem C3_training_threshold (e : Env) (url : string) (sched : list TaskKey)
    (c : Ctx) (r : Repository) (iss : list Issue) :
  context e url = Some c -> fetched_repo c = inr r -> fetched_issues c = inr iss ->
  let s := run e url sched in
  let call := CTrain (repo_owner r) (repo_name r) (attach (repo_id r) iss) [] in
  (phase s K_records = Succeeded -> phase s K_train <> Pending) /\
  ((List.length iss <= 1)%nat ->
     train_calls (log s) = [] /\
     (phase s K_train <> Pending ->
        phase s K_train = Succeeded /\
        actions_of K_train (log s) =
          [Invoke; P TRAIN 0 None; P TRAIN 1 None; Callback None VUndefined] /\
        percents_of TRAIN (log s) = [0; 1])) /\
  ((2 <= List.length iss)%nat ->
     (phase s K_train = Pending -> train_calls (log s) = []) /\
     (phase s K_train <> Pending ->
        train_calls (log s) = [call] /\
        get K_issues (results s) = Some (VIssues (attach (repo_id r) iss)))) /\
  List.length (attach (repo_id r) iss) = List.length iss /\
  (forall i, In i (attach (repo_id r) iss) <->
             exists j, In j iss /\ i = set_repository_id (repo_id r) j).
Proof.
  intros Hc Hr Hi s call.
  pose proof (run_inv _ _ _ sched Hc) as I. fold s in I.
  pose proof (inv_launch _ _ I) as L.
  split; [exact (train_started c s I)|].
  split; [|split; [|split]].
  - intros Hn. unfold percents_of.
    rewrite (train_calls_stage c s I), (progress_of_stage c s TRAIN I). simpl key_of.
    pose proof (inv_train _ _ I) as V. view V; use_eqs; try lia.
    + split; [reflexivity|congruence].
    + split; [reflexivity|auto].
  - intros Hn. rewrite (train_calls_stage c s I).
    pose proof (inv_train _ _ I) as V.
    assert (G : phase s K_train <> Pending ->
                get K_issues (results s) = Some (VIssues (attach (repo_id r) iss))).
    { intros Hp. assert (Hrec := lv_train _ _ L Hp).
      destruct (lv_rec _ _ L) as [_ Hiss]; [congruence|].
      pose proof (inv_issues _ _ I) as VI. rewrite Hiss, Hrec in VI.
      view VI. use_eqs.
      rewrite (issues_entry_attached c r iss Succeeded Hr eq_refl). reflexivity. }
    view V; use_eqs; try lia; split; intros Hp; try congruence; try reflexivity;
      (split; [reflexivity|apply G; congruence]).
  - unfold attach. apply length_map.
  - intros i. unfold attach. rewrite in_map_iff. split; intros (j & A & B); eauto.
Qed.


(** ** The persistence layer *)

Lemma same_key_iff a b : Db.same_key a b = true <-> key a = key b.
Proof.
  unfold Db.same_key, key. rewrite andb_true_iff, !String.eqb_eq.
  split; [intros [A B]; congruence|intros H; inversion H; auto].
Qed.

Lemma same_key_refl r : Db.same_key r r = true.
Proof. apply same_key_iff. reflexivity. Qed.

Lemma upsert_rows_idem r rows :
  Db.upsert_rows r (Db.upsert_rows r rows) = Db.upsert_rows r rows.
Proof.
  induction rows as [|x rows IH]; simpl.
  - rewrite same_key_refl. reflexivity.
  - destruct (Db.same_key x r) eqn:E; simpl.
    + rewrite same_key_refl. reflexivity.
    + rewrite E, IH. reflexivity.
Qed.





Lemma upsert_rows_in r rows : In r (Db.upsert_rows r rows).
Proof.
  induction rows as [|x rows IH]; simpl; auto.
  destruct (Db.same_key x r); simpl; auto.
Qed.

Lemma belongs_attached rid i : Db.belongs rid (set_repository_id rid i) = true.
Proof. unfold Db.belongs. simpl. apply Z.eqb_refl. Qed.

Lemma filter_attached rid l : filter (Db.belongs rid) (attach rid l) = attach rid l.
Proof.
  induction l as [|i l IH]; simpl; auto.
  rewrite belongs_attached, IH. reflexivity.
Qed.

Lemma filter_not_attached rid l :
  filter (fun i => negb (Db.belongs rid i)) (attach rid l) = [].
Proof.
  induction l as [|i l IH]; simpl; auto.
  rewrite belongs_attached. simpl. exact IH.
Qed.

Lemma filter_twice {A} (f : A -> bool) l : filter f (filter f l) = filter f l.
Proof.
  induction l as [|x l IH]; simpl; auto.
  destruct (f x) eqn:E; simpl; [rewrite E, IH|]; auto.
Qed.

Lemma filter_none {A} (f : A -> bool) l :
  filter f (filter (fun x => negb (f x)) l) = [].
Proof.
  induction l as [|x l IH]; simpl; auto.
  destruct (f x) eqn:E; simpl; [|rewrite E]; auto.
Qed.

(** The issues of a repository after [persist_records] are the inserted
    ones. *)
Lemma persisted_issues r issues d :
  Db.findAll (repo_id r) (fst (persist_records r issues d)) = attach (repo_id r) issues.
Proof.
  unfold Db.findAll. simpl. rewrite filter_app, filter_none, filter_attached. reflexivity.
Qed.


(** ** [Repository.train] *)

(** C6 (as the code has it). For the id of a stored repository, when the
    lookup of the repository does not fail, [Repository.train] loads the
    stored issues of that repository and, when that load succeeds, calls
    the classifier trainer exactly once, with the repository's owner and
    name, those issues and an empty ignore list. The promise it returns
    resolves without a value in every case: the trainer's summary is only
    logged, and an error of the load or of the trainer is logged and
    swallowed. *)
Theorem C6_train_repository (e : RepositoryModel.TrainEnv) (repoId : Z) (repo : Repository) :
  RepositoryModel.findById_error e = None ->
  Db.findById repoId (RepositoryModel.store e) = Some repo ->
  let effects := fst (RepositoryModel.class_train e repoId) in
  let issues := Db.findAll (repo_id repo) (RepositoryModel.store e) in
  let call := RepositoryModel.Train (repo_owner repo) (repo_name repo) issues [] in
  repo_id repo = repoId /\
  snd (RepositoryModel.class_train e repoId) = RepositoryModel.Resolved VUndefined /\
  In (RepositoryModel.FindAll (repo_id repo)) effects /\
  (RepositoryModel.findAll_error e = None ->
     RepositoryModel.trainer_calls effects = [call]) /\
  (forall err, RepositoryModel.findAll_error e = Some err ->
     RepositoryModel.trainer_calls effects = [] /\ In (RepositoryModel.LogError err) effects) /\
  (forall t, RepositoryModel.findAll_error e = None ->
     RepositoryModel.train e (repo_owner repo) (repo_name repo) issues [] = inr t ->
     In (RepositoryModel.LogSummary t) effects) /\
  (forall err, RepositoryModel.findAll_error e = None ->
     RepositoryModel.train e (repo_owner repo) (repo_name repo) issues [] = inl err ->
     In (RepositoryModel.LogError err) effects).
Proof.
  intros Hf Hr effects issues call.
  assert (Hid : repo_id repo = repoId).
  { unfold Db.findById in Hr. apply find_some in Hr. destruct Hr as [_ Hr].
    apply Z.eqb_eq in Hr. exact Hr. }
  unfold effects, RepositoryModel.class_train. rewrite Hf, Hr.
  unfold RepositoryModel.instance_train. fold issues. simpl.
  split; [exact Hid|]. split; [reflexivity|]. split; [auto|].
  destruct (RepositoryModel.findAll_error e) as [ferr|] eqn:Ha.
  - split; [discriminate|]. split; [|split; discriminate].
    intros err H. inversion H; subst. simpl. auto.
  - destruct (RepositoryModel.train e (repo_owner repo) (repo_name repo) issues [])
      as [terr|t] eqn:Ht; simpl.
    + split; [reflexivity|]. split; [discriminate|]. split; [discriminate|].
      intros err _ H. inversion H; subst. auto 6.
    + split; [reflexivity|]. split; [discriminate|]. split; [|discriminate].
      intros t' _ H. inversion H; subst. auto 7.
Qed.

(** ** Progress *)

Lemma nondecreasing_prefix a : forall b, nondecreasing (a ++ b) -> nondecreasing a.
Proof.
  induction a as [|x a IH]; simpl; auto.
  intros b H. destruct a as [|y a]; auto.
  simpl in H. destruct H as [H1 H2]. split; auto. apply (IH b). exact H2.
Qed.

Lemma nondecreasing_snoc l y :
  nondecreasing l -> (forall p, In p l -> (p <= y)%Q) -> nondecreasing (l ++ [y]).
Proof.
  induction l as [|x l IH]; simpl; auto.
  intros H B. destruct l as [|z l]; simpl.
  - split; auto.
  - destruct H as [H1 H2]. split; auto. apply IH; auto.
Qed.

Lemma last_snoc {A} (l : list A) (x d : A) : last (l ++ [x]) d = x.
Proof.
  induction l as [|y l IH]; simpl; auto.
  destruct (l ++ [x]) eqn:E; [destruct l; discriminate|exact IH].
Qed.

Lemma percents_of_reports l :
  map percent (map (fun p => {| task := ISSUES; percent := p; msg := None |}) l) = l.
Proof. rewrite map_map. simpl. apply map_id. Qed.

Ltac q_le := unfold Qle; simpl; lia.

Lemma nondecreasing_bound l y :
  nondecreasing (l ++ [y]) -> forall p, In p l -> (p <= y)%Q.
Proof.
  induction l as [|x l IH]; simpl; [contradiction|].
  intros H p [E|Hin].
  - subst p. destruct l as [|z l]; simpl in H; [apply H|].
    destruct H as [H1 H2]. apply Qle_trans with z; [exact H1|].
    apply IH; simpl; auto.
  - destruct l as [|z l]; [contradiction|]. simpl in H. destruct H as [_ H2].
    apply IH; auto.
Qed.

Lemma issues_percents c s :
  Inv c s ->
  exists done, fetcher_reports c = done ++ reports s /\
    percents_of ISSUES (log s) =
    done ++ match phase s K_issues with Succeeded => [1] | _ => [] end.
Proof.
  intros I. unfold percents_of. rewrite (progress_of_stage c s ISSUES I). simpl key_of.
  pose proof (inv_issues _ _ I) as VI.
  view VI; use_eqs; simpl;
    rewrite ?collect_app, ?collect_reports, ?map_app, ?percents_of_reports; simpl.
  - exists done. rewrite ?app_nil_r. auto.
  - exists (fetcher_reports c). rewrite ?app_nil_r. auto.
  - exists (fetcher_reports c). rewrite ?app_nil_r. auto.
Qed.

(** C8 (as the code has it). Progress monotonicity. In every run the
    percents of the progress events of the Repo, Database, Webhook and
    Train stages never decrease, and once the task of any stage has
    succeeded the last percent of that stage is exactly 1. The Issues
    stage forwards what the issue fetcher reports, unchecked, and adds
    percent 1 once the fetch has succeeded: its percents never decrease
    when the fetcher's reports never decrease and never exceed 1, and
    after a successful fetch only then. *)
Theorem C8_progress_monotone (e : Env) (url : string) (sched : list TaskKey) (t : Stage) :
  let s := run e url sched in
  (t <> ISSUES -> nondecreasing (percents_of t (log s))) /\
  (phase s (key_of t) = Succeeded -> last (percents_of t (log s)) 0 = 1) /\
  (forall c, context e url = Some c ->
     (exists done, fetcher_reports c = done ++ reports s /\
        percents_of ISSUES (log s) =
        done ++ match phase s K_issues with Succeeded => [1] | _ => [] end) /\
     (nondecreasing (fetcher_reports c) ->
      (forall p, In p (fetcher_reports c) -> (p <= 1)%Q) ->
      nondecreasing (percents_of ISSUES (log s))) /\
     (phase s K_issues = Succeeded -> nondecreasing (percents_of ISSUES (log s)) ->
      nondecreasing (fetcher_reports c) /\
      forall p, In p (fetcher_reports c) -> (p <= 1)%Q)).
Proof.
  intros s.
  destruct (context e url) as [c|] eqn:Hc.
  - pose proof (run_inv _ _ _ sched Hc) as I. fold s in I.
    destruct (issues_percents c s I) as (done & Hd & Hp).
    split; [|split].
    + intros Nt. unfold percents_of. rewrite (progress_of_stage c s t I).
      all_views I.
      destruct t; simpl key_of; try congruence.
      * view VP; use_eqs; simpl; repeat split; q_le.
      * view VR; use_eqs; simpl; repeat split; q_le.
      * view VW; use_eqs; simpl; repeat split; q_le.
      * view VT; use_eqs; simpl; repeat split; q_le.
    + destruct t; simpl key_of.
      2: { intros S. rewrite Hp, S. apply last_snoc. }
      all: unfold percents_of; rewrite (progress_of_stage c s _ I); all_views I;
        simpl key_of.
      * view VP; use_eqs; simpl; congruence.
      * view VR; use_eqs; simpl; congruence.
      * view VW; use_eqs; simpl; congruence.
      * view VT; use_eqs; simpl; congruence.
    + intros c' Hc'. assert (c' = c) by congruence. subst c'.
      split; [exists done; auto|]. split.
      * intros Fn Fb. rewrite Hp. rewrite Hd in Fn.
        destruct (phase s K_issues) eqn:Ph;
          try (rewrite app_nil_r; apply (nondecreasing_prefix _ _ Fn)).
        apply nondecreasing_snoc; [apply (nondecreasing_prefix _ _ Fn)|].
        intros p Hin. apply Fb. rewrite Hd. apply in_or_app. auto.
      * intros S. rewrite Hp, S. intros Hn.
        assert (R : reports s = []).
        { pose proof (inv_issues _ _ I) as VI. rewrite S in VI.
          inversion VI; auto. }
        rewrite R, app_nil_r in Hd. subst done. split.
        -- apply (nondecreasing_prefix _ _ Hn).
        -- apply (nondecreasing_bound _ _ Hn).
  - assert (R : log s = [CallerCb (match socket_github e with
                                   | None => {| reply_err := Some MISSING_GITHUB;
                                                reply_results := None |}
                                   | Some _ => {| reply_err := Some (Msg invalid_url_message);
                                                  reply_results := None |}
                                   end)] /\ forall k, phase s k = Pending).
    { unfold s. rewrite run_rejected by auto. unfold REPOSITORY_SYNC. rewrite Hc.
      destruct (socket_github e); simpl; auto. }
    destruct R as [R1 R2]. unfold percents_of. rewrite R1, R2. simpl.
    split; [intros _; exact I|]. split; [discriminate|]. intros c' Hc'. discriminate.
Qed.

(** ** The concrete scenario *)

Lemma attach_repository_id rid l i :
  In i (attach rid l) -> repository_id i = Some rid.
Proof.
  unfold attach. rewrite in_map_iff. intros (j & H & _). subst. reflexivity.
Qed.

(** C5 (as the code has it). The URL [https://github.com/acme/widgets]
    parses to owner [acme] and name [widgets]. For a validated request
    whose fetcher returns 3 issues and whose stages all succeed, a run
    that has come to rest has emitted percent 0 then percent 1 (with the
    intermediate steps of the database stage) for the Repo, Database,
    Webhook and Train stages; for the Issues stage it has emitted what the
    fetcher reported followed by percent 1; the caller is answered success
    with 3 persisted issue records under the records key, each carrying the
    identity of the persisted repository record, which is in the store
    together with exactly those issues. *)
Theorem C5_scenario (e : Env) (url : string) (sched : list TaskKey)
    (c : Ctx) (r : Repository) (iss : list Issue) (t : Summary) :
  context e url = Some c -> persisted c r iss -> List.length iss = 3%nat ->
  trainer_answer c r iss = inr t ->
  let s := run e url sched in
  quiescent e url s ->
  (forall e', env_parseGitHubUrl e' = Url.parseGitHubUrl ->
     PARSE_REPOSITORY_URL e' "https://github.com/acme/widgets" =
       Some {| pu_owner := Some "acme"%string; pu_name := Some "widgets"%string;
               pu_repo := Some "acme/widgets"%string |}) /\
  percents_of REPO (log s) = [0; 1] /\
  percents_of DATABASE (log s) = [0; 1 # 2; 6 # 10; 1] /\
  percents_of WEBHOOK (log s) = [0; 1] /\
  percents_of TRAIN (log s) = [0; 1] /\
  percents_of ISSUES (log s) = fetcher_reports c ++ [1] /\
  outcome s = Some (success (results s)) /\
  get K_records (results s) = Some (VIssues (attach (repo_id r) iss)) /\
  List.length (attach (repo_id r) iss) = 3%nat /\
  (forall i, In i (attach (repo_id r) iss) -> repository_id i = Some (repo_id r)) /\
  db s = fst (persist_records r iss (db0 e)) /\
  In r (repositories (db s)) /\
  Db.findAll (repo_id r) (db s) = attach (repo_id r) iss.
Proof.
  intros Hc Hp Hn Ht s Q.
  pose proof (run_inv _ _ _ sched Hc) as I. fold s in I.
  destruct (context_env _ _ _ Hc) as [He _]. subst e.
  assert (O : others_succeed c) by (exists r, iss; split; eauto).
  pose proof (others_succeed_no_error c s I O) as E.
  destruct (idle_success c s I (quiescent_idle _ _ _ _ Hc I Q) E) as [Ho Hs].
  all_views I. unify_fetched.
  rewrite (Hs K_repo) in VP. rewrite (Hs K_issues), (Hs K_records) in VI.
  rewrite (Hs K_records) in VR. rewrite (Hs K_webhooks) in VW. rewrite (Hs K_train) in VT.
  assert (Hdb : db s = fst (persist_records r iss (db0 (env c)))).
  { view VR. use_eqs. reflexivity. }
  split; [intros e' Hparse; unfold PARSE_REPOSITORY_URL; rewrite Hparse; reflexivity|].
  unfold percents_of. rewrite !(progress_of_stage c s _ I). simpl key_of.
  split; [view VP; use_eqs; reflexivity|].
  split; [view VR; use_eqs; reflexivity|].
  split; [view VW; use_eqs; reflexivity|].
  split; [view VT; use_eqs; try lia; reflexivity|].
  split.
  { view VI. use_eqs. simpl.
    rewrite ?collect_app, ?collect_reports, ?map_app, ?percents_of_reports. reflexivity. }
  split; [exact Ho|].
  split; [view VR; use_eqs; reflexivity|].
  split; [unfold attach; rewrite length_map; exact Hn|].
  split; [intros i; apply attach_repository_id|].
  split; [exact Hdb|].
  rewrite Hdb. split; [simpl; apply upsert_rows_in|apply persisted_issues].
Qed.

(** * Further properties of the pipeline

    How the log is laid out around the answer to the caller and what can
    still happen after it; how failures show in the answer, the progress
    events and the store; what the tasks hand to each other and to the
    administrative entry points of the model; and what does not depend on
    the order in which the collaborators answer. *)

(** ** The shape of a log *)

Lemma quiet_refl s : quiet s s [].
Proof. constructor; simpl; auto using app_nil_r. Qed.

Lemma quiet_trans s s1 s2 a b : quiet s s1 a -> quiet s1 s2 b -> quiet s s2 (a ++ b).
Proof.
  intros [L1 T1 O1 E1 F1 I1] [L2 T2 O2 E2 F2 I2].
  constructor.
  - rewrite L2, L1, app_assoc. reflexivity.
  - rewrite forallb_app, T1, T2. reflexivity.
  - congruence.
  - congruence.
  - intros H. rewrite existsb_app, F1, F2 by congruence. reflexivity.
  - intros H. rewrite existsb_app, I1, I2 by congruence. reflexivity.
Qed.

Lemma quiet_closing c s s1 s2 a b :
  quiet s s1 a -> closing c s1 s2 b -> closing c s s2 (a ++ b).
Proof.
  intros [L1 T1 O1 E1 F1 I1] [[B1 B2] L2 T2 F2 O2 E2 N2].
  constructor; auto.
  - split; congruence.
  - rewrite L2, L1, <- !app_assoc. reflexivity.
  - rewrite forallb_app, T1, T2. reflexivity.
  - rewrite existsb_app, F1, F2 by congruence. reflexivity.
Qed.

Lemma snoc_eq (x l evs : list Event) e : x = l ++ evs -> x ++ [e] = l ++ (evs ++ [e]).
Proof. intros H. rewrite H, app_assoc. reflexivity. Qed.

Lemma closed_eq (x l evs : list Event) a b :
  x = l ++ evs -> (x ++ [a]) ++ [b] = l ++ evs ++ [a; b].
Proof. intros H. rewrite H, <- !app_assoc. reflexivity. Qed.

(** Reads the appended events off a log. *)
Ltac peel := repeat eapply snoc_eq; symmetry; apply app_nil_r.

(** Solves [quiet s s' ?evs] for a chain of field updates and emissions. *)
Ltac quiet_tac :=
  econstructor; simpl;
  [ peel
  | reflexivity | reflexivity | reflexivity
  | intros; reflexivity
  | intros; first [reflexivity | congruence] ].

Lemma callback_replied c err r s : outcome s <> None -> callback c err r s = s.
Proof. unfold callback. destruct (outcome s); congruence. Qed.

Lemma processQueue_idle_live c s :
  live s ->
  (exists evs, quiet s (processQueue_idle c s) evs) \/
  (exists evs, closing c s (processQueue_idle c s) evs).
Proof.
  intros [[O E]|[O E]]; unfold processQueue_idle.
  - destruct (no_running s) eqn:N.
    + right. exists []. unfold callback. rewrite O.
      constructor; simpl; auto.
      rewrite <- ?app_assoc. reflexivity.
    + left. exists []. apply quiet_refl.
  - left. exists []. rewrite callback_replied by auto.
    destruct (no_running s); apply quiet_refl.
Qed.

Lemma runTask_plain c d s :
  d = K_records \/ d = K_webhooks -> hasError s = false ->
  exists evs, quiet s (runTask c d s) evs.
Proof.
  intros D E. unfold runTask. rewrite E.
  destruct D; subst d; simpl;
    destruct (get K_repo (results s)) as [[]|]; eexists; quiet_tac.
Qed.

Lemma runTask_train c s :
  outcome s = None -> hasError s = false ->
  (exists evs, quiet s (runTask c K_train s) evs) \/
  (exists evs, closing c s (runTask c K_train s) evs).
Proof.
  intros O E. unfold runTask. rewrite E. simpl.
  destruct (get K_issues (results s)) as [[| |issues|]|];
    try (left; eexists; quiet_tac).
  destruct (List.length issues <=? 1)%nat.
  - unfold processQueue_idle.
    match goal with |- context [if no_running ?x then _ else _] =>
      destruct (no_running x) eqn:N end.
    + right. unfold callback; simpl. rewrite O. eexists.
      constructor; simpl; auto.
      * eapply closed_eq. peel.
      * reflexivity.
      * reflexivity.
    + left. eexists. quiet_tac.
  - destruct (get K_repo (results s)) as [[]|]; left; eexists; quiet_tac.
Qed.

Lemma runTask_error c d s : hasError s = true -> runTask c d s = s.
Proof. intros E. unfold runTask. rewrite E. reflexivity. Qed.

Ltac continue_with c Q :=
  match goal with
  | |- (exists evs, quiet ?s ?t evs) \/ _ =>
    match type of Q with
    | quiet s ?m ?a =>
      let R := fresh "R" in
      assert (R : (exists evs, quiet m t evs) \/ (exists evs, closing c m t evs));
      [ | let b := fresh "b" in destruct R as [[b R]|[b R]];
          [ left; eexists; eapply quiet_trans; eauto
          | right; eexists; eapply quiet_closing; eauto ] ]
    end
  end.

Lemma taskComplete_live c k s :
  live s ->
  (exists evs, quiet s (taskComplete c k s) evs) \/
  (exists evs, closing c s (taskComplete c k s) evs).
Proof.
  intros L. destruct (hasError s) eqn:E.
  - rewrite taskComplete_error by auto. apply processQueue_idle_live; auto.
  - destruct L as [[O _]|[_ F]]; [|congruence].
    unfold taskComplete. rewrite E.
    assert (P1 : forall s0, hasError s0 = false ->
               exists evs, quiet s0 (runTask c K_records s0) evs)
      by (intros; apply runTask_plain; auto).
    assert (P2 : forall s0, hasError s0 = false ->
               exists evs, quiet s0 (runTask c K_webhooks s0) evs)
      by (intros; apply runTask_plain; auto).
    simpl.
    destruct (ready_after k s K_records), (ready_after k s K_webhooks),
             (ready_after k s K_train); simpl.
    + destruct (P1 s E) as [a Q1].
      destruct (P2 _ (eq_trans (q_hasError _ _ _ Q1) E)) as [b Q2].
      pose proof (quiet_trans _ _ _ _ _ Q1 Q2) as Q.
      continue_with c Q. apply runTask_train.
      * rewrite (q_outcome _ _ _ Q). auto.
      * rewrite (q_hasError _ _ _ Q). auto.
    + destruct (P1 s E) as [a Q1].
      destruct (P2 _ (eq_trans (q_hasError _ _ _ Q1) E)) as [b Q2].
      left. eexists. eapply quiet_trans; eauto.
    + destruct (P1 s E) as [a Q]. continue_with c Q. apply runTask_train.
      * rewrite (q_outcome _ _ _ Q). auto.
      * rewrite (q_hasError _ _ _ Q). auto.
    + left. apply P1; auto.
    + destruct (P2 s E) as [a Q]. continue_with c Q. apply runTask_train.
      * rewrite (q_outcome _ _ _ Q). auto.
      * rewrite (q_hasError _ _ _ Q). auto.
    + left. apply P2; auto.
    + apply runTask_train; auto.
    + apply processQueue_idle_live. left; auto.
Qed.

Lemma fail_live c k e s :
  live s ->
  (exists evs, quiet s (fail c k e s) evs) \/ failing c k s (fail c k e s) e.
Proof.
  intros [[O E]|[O E]]; unfold fail.
  - right. unfold callback; simpl. rewrite O.
    constructor; simpl; auto. rewrite <- ?app_assoc. reflexivity.
  - left. rewrite callback_replied by (simpl; auto). eexists.
    constructor; simpl; auto; congruence.
Qed.

Ltac live_tac L :=
  let O := fresh "O" in let E := fresh "E" in
  destruct L as [[O E]|[O E]]; [left|right]; simpl; auto.

Ltac succ_case s L :=
  unfold taskCallback;
  match goal with |- context [taskComplete ?c ?k ?m] =>
    let Q := fresh "Q" in let a := fresh "a" in let b := fresh "b" in
    let R := fresh "R" in
    assert (Q : exists evs, quiet s m evs) by (eexists; quiet_tac);
    destruct Q as [a Q];
    destruct (taskComplete_live c k m) as [[b R]|[b R]];
    [ live_tac L
    | left; eexists; eapply quiet_trans; eauto
    | right; left; eexists; eapply quiet_closing; eauto ]
  end.

Ltac fail_case L :=
  unfold taskCallback;
  match goal with |- context [fail ?c ?k ?e ?s] =>
    let R := fresh "R" in
    destruct (fail_live c k e s L) as [R|R]; [left; exact R|right; right; eauto]
  end.

Lemma step_live c k s s' :
  live s -> step c k s = Some s' ->
  (exists evs, quiet s s' evs) \/ (exists evs, closing c s s' evs) \/
  (exists err, failing c k s s' err).
Proof.
  intros L. unfold step.
  destruct k; destruct (phase s _) as [|[|[|[|?]]]| |]; try discriminate.
  - destruct (repos_get _ _ _); intros H; inversion H; subst s'; clear H.
    + fail_case L.
    + succ_case s L.
  - destruct (reports s).
    + destruct (snd _); intros H; inversion H; subst s'; clear H.
      * fail_case L.
      * succ_case s L.
    + intros H; inversion H; subst s'; clear H. left. eexists. quiet_tac.
  - destruct (get K_repo (results s)) as [[]|]; try discriminate.
    destruct (Repository_upsert _ _); intros H; inversion H; subst s'; clear H.
    + fail_case L.
    + left. eexists. quiet_tac.
  - destruct (get K_repo (results s)) as [[]|]; try discriminate.
    destruct (get K_issues (results s)) as [[]|]; try discriminate.
    destruct (Issue_destroy _ _); intros H; inversion H; subst s'; clear H.
    + fail_case L.
    + left. eexists. quiet_tac.
  - destruct (get K_issues (results s)) as [[]|]; try discriminate.
    destruct (Issue_bulkCreate _ _); intros H; inversion H; subst s'; clear H.
    + fail_case L.
    + succ_case s L.
  - destruct (get K_repo (results s)) as [[]|]; try discriminate.
    intros H; inversion H; subst s'; clear H. succ_case s L.
  - destruct (get K_repo (results s)) as [[]|]; try discriminate.
    destruct (get K_issues (results s)) as [[]|]; try discriminate.
    destruct (classifier_train _ _ _ _ _); intros H; inversion H; subst s'; clear H.
    + fail_case L.
    + succ_case s L.
Qed.

Lemma step_running c k s s' : step c k s = Some s' -> exists pc, phase s k = Running pc.
Proof.
  unfold step. destruct k; destruct (phase s _); try discriminate; eauto.
Qed.

Lemma running_no_entry c s k pc :
  Inv c s -> phase s k = Running pc -> get k (results s) = None.
Proof.
  intros I H. all_views I.
  destruct k;
    [ rewrite H in VP; inversion VP | rewrite H in VI; inversion VI
    | rewrite H in VR; inversion VR | rewrite H in VW; inversion VW
    | rewrite H in VT; inversion VT ]; auto.
Qed.

Lemma entry_succeeded c s k :
  Inv c s -> has k (results s) = true -> phase s k = Succeeded.
Proof.
  intros I H. unfold has in H. all_views I.
  destruct k;
    [ inversion VP | inversion VI | inversion VR | inversion VW | inversion VT ];
    flip; auto;
    match goal with E : get _ _ = None |- _ => rewrite E in H; discriminate end.
Qed.

Lemma has_snoc k' k v r : has k' (r ++ [(k, v)]) = true -> has k' r = true \/ k' = k.
Proof.
  unfold has. rewrite get_snoc. destruct (get k' r); auto.
  destruct (TaskKey_eqb k' k) eqn:E; [|discriminate].
  apply TaskKey_eqb_eq in E. auto.
Qed.

Lemma step_shape c k s s' :
  Inv c s -> shape c s -> step c k s = Some s' -> shape c s'.
Proof.
  intros I S H.
  destruct (step_running _ _ _ _ H) as [pc Hp].
  destruct S as [body Hl Ht Hf O E | body Hl Ht Hf O E N
                | body k0 err r post Hl Ht Hf Hpt Hpi Hg Hr O E].
  - destruct (step_live c k s s' (or_introl (conj O E)) H)
      as [[evs Q]|[[evs Q]|[err Q]]].
    + destruct Q as [L1 T1 O1 E1 F1 I1].
      apply (ShapeOpen c s' (body ++ evs)); try congruence.
      * rewrite L1, Hl. reflexivity.
      * rewrite forallb_app, Ht, T1. reflexivity.
      * rewrite existsb_app, Hf, F1 by auto. reflexivity.
    + destruct Q as [_ L1 T1 F1 O1 E1 N1].
      apply (ShapeDone c s' (body ++ evs)); auto.
      * rewrite L1, Hl. simpl. rewrite <- app_assoc. reflexivity.
      * rewrite forallb_app, Ht, T1. reflexivity.
      * rewrite existsb_app, Hf, F1. reflexivity.
    + destruct Q as [_ L1 O1 E1].
      apply (ShapeError c s' body k err (results s ++ [(k, VUndefined)]) []); auto.
      * rewrite L1, Hl. simpl. rewrite ?app_nil_r. reflexivity.
      * apply get_snoc_same. eapply running_no_entry; eauto.
      * intros k' Hk. apply has_snoc in Hk. destruct Hk as [Hk|Hk]; auto.
        right. pose proof (inv_succeeded _ _ I k' (entry_succeeded _ _ _ I Hk)) as G.
        rewrite Hl in G. exact G.
  - rewrite (no_running_false _ _ _ Hp) in N. discriminate.
  - assert (L : live s) by (right; split; congruence).
    destruct (step_live c k s s' L H) as [[evs Q]|[[evs Q]|[err' Q]]].
    + destruct Q as [L1 T1 O1 E1 F1 I1].
      apply (ShapeError c s' body k0 err r (post ++ evs)); try congruence; auto.
      * rewrite L1, Hl. simpl. rewrite <- !app_assoc. reflexivity.
      * rewrite forallb_app, Hpt, T1. reflexivity.
      * rewrite existsb_app, Hpi, I1 by auto. reflexivity.
    + destruct Q as [[_ F] _ _ _ _ _ _]. congruence.
    + destruct Q as [[_ F] _ _ _]. congruence.
Qed.

Lemma shape_start c :
  shape c (auto c (set_reports (fetcher_reports c) (emit (Join (repoRoom c)) (idle (env c))))).
Proof. eapply ShapeOpen; simpl; reflexivity. Qed.

Lemma run_from_shape e url c sched : forall s,
  context e url = Some c -> Inv c s -> shape c s -> shape c (run_from e url sched s).
Proof.
  induction sched as [|k sched IH]; simpl; intros s Hc I S; auto.
  destruct (next e url k s) as [s'|] eqn:Hn; auto.
  destruct (next_context _ _ _ _ _ Hn) as (c' & Hc' & Hs).
  assert (c' = c) by congruence. subst c'.
  apply IH; auto.
  - apply (step_preserves c k s s' I Hs).
  - apply (step_shape c k s s' I S Hs).
Qed.

Lemma run_shape e url c sched : context e url = Some c -> shape c (run e url sched).
Proof.
  intros Hc. unfold run. apply run_from_shape; auto.
  - rewrite (start_state _ _ _ Hc). apply Inv_start.
  - rewrite (start_state _ _ _ Hc). apply shape_start.
Qed.

(** ** The answer to the caller *)

Lemma tasks_no_room l : forallb is_task l = true -> filter is_room l = [].
Proof.
  induction l as [|x l IH]; simpl; auto.
  destruct x; simpl; try discriminate; auto.
Qed.

Lemma tasks_no_reply l : forallb is_task l = true -> filter is_reply l = [].
Proof.
  induction l as [|x l IH]; simpl; auto.
  destruct x; simpl; try discriminate; auto.
Qed.

Lemma no_failure_in l :
  existsb is_failure l = false <->
  forall k err v, ~ In (TaskEv k (Callback (Some err) v)) l.
Proof.
  induction l as [|x l IH]; simpl.
  - split; auto.
  - rewrite orb_false_iff, IH. split.
    + intros [A B] k err v [F|F]; [subst x; discriminate|apply (B k err v F)].
    + intros H. split.
      * destruct x as [k a| | |]; auto. destruct a as [| | |[j|] v|]; auto.
        exfalso. apply (H k j v). auto.
      * intros k err v F. apply (H k err v). auto.
Qed.

Lemma no_invoke_in l :
  existsb is_invoke l = false <-> forall k, ~ In (TaskEv k Invoke) l.
Proof.
  induction l as [|x l IH]; simpl.
  - split; auto.
  - rewrite orb_false_iff, IH. split.
    + intros [A B] k [F|F]; [subst x; discriminate|apply (B k F)].
    + intros H. split.
      * destruct x as [k a| | |]; auto. destruct a; auto.
        exfalso. apply (H k). auto.
      * intros k F. apply (H k). auto.
Qed.

Lemma rejected_state e url :
  context e url = None ->
  exists x, REPOSITORY_SYNC e url = reply_now e x.
Proof.
  intros Hc. unfold REPOSITORY_SYNC. rewrite Hc.
  destruct (socket_github e); eauto.
Qed.

(** X1. The caller is answered at most once. In every run, of a validated
    request or of a rejected one and whatever fails, the log holds at most
    one call of the caller's callback, and that call carries the reply
    recorded as the outcome. A second failing task, and the tasks that end
    after an error, never answer again. *)
Theorem X1_caller_answered_once (e : Env) (url : string) (sched : list TaskKey) :
  let s := run e url sched in
  filter is_reply (log s) =
  match outcome s with Some reply => [CallerCb reply] | None => [] end.
Proof.
  intros s. unfold s. destruct (context e url) as [c|] eqn:Hc.
  - destruct (run_shape e url c sched Hc)
      as [body Hl Ht Hf O E | body Hl Ht Hf O E N
         | body k err r post Hl Ht Hf Hpt Hpi Hg Hr O E]; rewrite Hl, O; simpl.
    + apply tasks_no_reply; auto.
    + rewrite filter_app, tasks_no_reply by auto. reflexivity.
    + rewrite filter_app, tasks_no_reply by auto. simpl.
      rewrite tasks_no_reply by auto. reflexivity.
  - rewrite run_rejected by auto.
    destruct (rejected_state e url Hc) as [x ->]. reflexivity.
Qed.

Lemma context_room e url c :
  context e url = Some c ->
  exists p n, env_parseGitHubUrl e url = Some p /\ pu_name p = Some n /\ n <> ""%string /\
    owner c = pu_owner p /\ name c = n /\
    repoRoom c = ("repo:" ++ match pu_repo p with Some r => r | None => "null" end)%string.
Proof.
  unfold context. destruct (socket_github e); [|discriminate].
  destruct (env_parseGitHubUrl e url) as [p|]; [|discriminate].
  destruct (pu_name p) as [n|] eqn:Hn; [|discriminate].
  simpl. destruct (String.eqb n "") eqn:En; simpl; [discriminate|].
  intros H; inversion H; subst; simpl. exists p, n. repeat split; auto.
  intros F; subst. discriminate.
Qed.

Lemma answered_log e url sched c reply :
  context e url = Some c -> outcome (run e url sched) = Some reply ->
  exists pre post,
    log (run e url sched) = pre ++ [Leave (repoRoom c); CallerCb reply] ++ post.
Proof.
  intros Hc.
  destruct (run_shape e url c sched Hc)
    as [body Hl Ht Hf O E | body Hl Ht Hf O E N
       | body k err r post Hl Ht Hf Hpt Hpi Hg Hr O E]; rewrite Hl, O;
    intros H; inversion H; subst.
  - exists (Join (repoRoom c) :: body), []. reflexivity.
  - exists (Join (repoRoom c) :: body ++ [TaskEv k (Callback (Some err) VUndefined)]), post.
    simpl. rewrite <- app_assoc. reflexivity.
Qed.

(** X2. Room discipline. For a validated request the room is [repo:]
    followed by the repository path the parser answered. Joining it is the
    first thing the handler does; the socket joins once; it leaves exactly
    when the caller is answered, once, and the leave comes immediately
    before the answer. *)
Theorem X2_room_discipline (e : Env) (url : string) (sched : list TaskKey) (c : Ctx) :
  context e url = Some c ->
  let s := run e url sched in
  (exists p, PARSE_REPOSITORY_URL e url = Some p /\
     repoRoom c =
     ("repo:" ++ match pu_repo p with Some r => r | None => "null" end)%string) /\
  hd_error (log s) = Some (Join (repoRoom c)) /\
  filter is_room (log s) =
    Join (repoRoom c) ::
    match outcome s with Some _ => [Leave (repoRoom c)] | None => [] end /\
  (forall reply, outcome s = Some reply ->
     exists pre post, log s = pre ++ [Leave (repoRoom c); CallerCb reply] ++ post).
Proof.
  intros Hc s. unfold s. clear s. split.
  { destruct (context_room _ _ _ Hc) as (p & n & Hp & _ & _ & _ & _ & Hr).
    exists p. split; auto. }
  pose proof (fun reply => answered_log e url sched c reply Hc) as G. revert G.
  destruct (run_shape e url c sched Hc)
    as [body Hl Ht Hf O E | body Hl Ht Hf O E N
       | body k err r post Hl Ht Hf Hpt Hpi Hg Hr O E]; rewrite Hl, O; simpl; intros G.
  - rewrite tasks_no_room by auto. repeat split; auto.
  - rewrite filter_app, tasks_no_room by auto. repeat split; auto.
  - rewrite filter_app, tasks_no_room by auto. simpl.
    rewrite tasks_no_room by auto. repeat split; auto.
Qed.

(** X3. The first error is the one reported. For a validated request the
    caller is answered on the error path exactly when some task has called
    back with an error. The answer then follows the first error callback
    of the log at once; its results hold the failing key with the value
    [undefined] and otherwise only keys of tasks whose success callback
    came before; and its first argument is [err && err.message] of that
    first error: the message when the error has one and [undefined] when
    it has none, so that a run that failed can be answered without an
    error to show. *)
Theorem X3_first_error_reported (e : Env) (url : string) (sched : list TaskKey) (c : Ctx) :
  context e url = Some c ->
  let s := run e url sched in
  ((exists k err v, In (TaskEv k (Callback (Some err) v)) (log s)) <->
   (exists err r, outcome s = Some (failure_reply err r))) /\
  (forall reply, outcome s = Some reply ->
   (exists k err v, In (TaskEv k (Callback (Some err) v)) (log s)) ->
   exists body k err r post,
     log s = Join (repoRoom c) :: body
               ++ [TaskEv k (Callback (Some err) VUndefined); Leave (repoRoom c);
                   CallerCb reply] ++ post /\
     (forall k' err' v, ~ In (TaskEv k' (Callback (Some err') v)) body) /\
     reply_err reply = Some (answer err) /\
     (forall m, message err = Some m -> reply_err reply = Some (Msg m)) /\
     (message err = None -> reply_err reply = Some NoMessage) /\
     reply_results reply = Some r /\
     get k r = Some VUndefined /\
     (forall k', has k' r = true ->
        k' = k \/ exists v, In (TaskEv k' (Callback None v)) body)).
Proof.
  intros Hc s. unfold s.
  destruct (run_shape e url c sched Hc)
    as [body Hl Ht Hf O E | body Hl Ht Hf O E N
       | body k err r post Hl Ht Hf Hpt Hpi Hg Hr O E]; rewrite Hl, O.
  - split.
    + split.
      * intros (k & err & v & [F|F]); [discriminate|].
        exfalso. rewrite no_failure_in in Hf. apply (Hf k err v F).
      * intros (err & r & F). discriminate.
    + intros reply F. discriminate.
  - assert (G : ~ exists k err v,
                 In (TaskEv k (Callback (Some err) v))
                    (Join (repoRoom c) :: body
                       ++ [Leave (repoRoom c); CallerCb (success (results (run e url sched)))])).
    { intros (k & err & v & [F|F]); [discriminate|].
      rewrite in_app_iff in F. destruct F as [F|[F|[F|[]]]]; try discriminate.
      rewrite no_failure_in in Hf. apply (Hf k err v F). }
    split.
    + split.
      * intros F. destruct (G F).
      * intros (err & r & F). inversion F.
    + intros reply _ F. destruct (G F).
  - split.
    + split.
      * intros _. exists err, r. reflexivity.
      * intros _. exists k, err, VUndefined. right. rewrite in_app_iff. right. left. reflexivity.
    + intros reply F _. inversion F; subst.
      exists body, k, err, r, post. splits; auto.
      * apply no_failure_in; auto.
      * intros m Hm. simpl. unfold answer. rewrite Hm. reflexivity.
      * intros Hm. simpl. unfold answer. rewrite Hm. reflexivity.
      * intros k' Hk. destruct (Hr k' Hk) as [?|Hin]; auto. right.
        clear - Hin. induction body as [|x body IH]; simpl in Hin; [contradiction|].
        destruct x as [k0 a| | |]; try (destruct (IH Hin) as [v ?]; exists v; right; auto).
        destruct a; try (destruct (IH Hin) as [v' ?]; exists v'; right; auto).
        destruct err; try (destruct (IH Hin) as [v' ?]; exists v'; right; auto).
        destruct Hin as [Hin|Hin].
        -- subst. exists v. left. reflexivity.
        -- destruct (IH Hin) as [v' ?]; exists v'; right; auto.
Qed.

(** ** After the answer *)

(** The store is written by the continuations of the [records] task
    only. *)
Lemma db_callback c err r s : db (callback c err r s) = db s.
Proof. unfold callback. destruct (outcome s); reflexivity. Qed.

Lemma db_processQueue_idle c s : db (processQueue_idle c s) = db s.
Proof. unfold processQueue_idle. destruct (no_running s); auto using db_callback. Qed.

Lemma db_runTask c d s : db (runTask c d s) = db s.
Proof.
  unfold runTask. destruct (hasError s); auto.
  destruct d; simpl; auto.
  - destruct (get K_repo (results s)) as [[]|]; reflexivity.
  - destruct (get K_repo (results s)) as [[]|]; reflexivity.
  - destruct (get K_issues (results s)) as [[| |issues|]|]; try reflexivity.
    destruct (List.length issues <=? 1)%nat.
    + rewrite db_processQueue_idle. reflexivity.
    + destruct (get K_repo (results s)) as [[]|]; reflexivity.
Qed.

Lemma db_taskComplete c k s : db (taskComplete c k s) = db s.
Proof.
  unfold taskComplete. destruct (hasError s); simpl.
  - apply db_processQueue_idle.
  - destruct (ready_after k s K_records), (ready_after k s K_webhooks),
             (ready_after k s K_train); simpl;
      rewrite ?db_runTask, ?db_processQueue_idle; reflexivity.
Qed.

Lemma db_fail c k e s : db (fail c k e s) = db s.
Proof. unfold fail. rewrite db_callback. reflexivity. Qed.

Ltac db_tac := rewrite ?db_fail, ?db_taskComplete; reflexivity.

Lemma step_db c k s s' : k <> K_records -> step c k s = Some s' -> db s' = db s.
Proof.
  intros N. unfold step.
  destruct k; try congruence; destruct (phase s _) as [|[|?]| |]; try discriminate.
  - destruct (repos_get _ _ _); intros H; injection H as H; subst s'; db_tac.
  - destruct (reports s).
    + destruct (snd _); intros H; injection H as H; subst s'; db_tac.
    + intros H; injection H as H; subst s'. reflexivity.
  - destruct (get K_repo (results s)) as [[]|]; try discriminate.
    intros H; injection H as H; subst s'. db_tac.
  - destruct (get K_repo (results s)) as [[]|]; try discriminate.
    destruct (get K_issues (results s)) as [[]|]; try discriminate.
    destruct (classifier_train _ _ _ _ _); intros H; injection H as H; subst s';
      db_tac.
Qed.

(** Once an error was seen the [records] task is not waiting for
    anything. *)
Lemma error_records_settled c s pc :
  Inv c s -> hasError s = true -> phase s K_records <> Running pc.
Proof.
  intros I E F. pose proof (inv_launch _ _ I) as L.
  destruct (lv_failure _ _ L E) as [k Hk].
  destruct (lv_rec _ _ L) as [Hrepo Hiss]; [congruence|].
  assert (Ht : phase s K_train = Pending) by (apply (train_pending _ _ L); congruence).
  pose proof (inv_webhooks _ _ I) as VW.
  destruct k; try congruence.
  rewrite Hk in VW. inversion VW.
Qed.

(** A task that is not pending has had its body invoked. *)
Lemma launched_invoked c s k :
  Inv c s -> phase s k <> Pending -> In (TaskEv k Invoke) (log s).
Proof.
  intros I H. rewrite in_actions_of. all_views I.
  destruct k;
    [ inversion VP | inversion VI | inversion VR | inversion VW | inversion VT ];
    flip; try congruence;
    unfold records_done, records_destroyed, records_upserted, records_start,
      repo_start, issues_start, webhooks_start, train_start; simpl; auto.
Qed.

(** What one more completion does once the caller has been answered. *)
Lemma step_answered c k s s' reply :
  Inv c s -> shape c s -> outcome s = Some reply -> step c k s = Some s' ->
  reply_err reply <> None /\ outcome s' = Some reply /\ db s' = db s /\
  exists late, log s' = log s ++ late /\ forallb is_task late = true /\
               existsb is_invoke late = false.
Proof.
  intros I S O H.
  destruct (step_running _ _ _ _ H) as [pc Hp].
  destruct S as [body Hl Ht Hf O' E | body Hl Ht Hf O' E N
                | body k0 err r post Hl Ht Hf Hpt Hpi Hg Hr O' E].
  - congruence.
  - rewrite (no_running_false _ _ _ Hp) in N. discriminate.
  - assert (L : live s) by (right; split; congruence).
    destruct (step_live c k s s' L H) as [[evs Q]|[[evs Q]|[err' Q]]].
    + destruct Q as [L1 T1 O1 E1 F1 I1]. splits.
      * rewrite O in O'. inversion O'. discriminate.
      * congruence.
      * apply (step_db c k); auto. intros F; subst k.
        apply (error_records_settled c s pc I E Hp).
      * exists evs. auto.
    + destruct Q as [[_ F] _ _ _ _ _ _]. congruence.
    + destruct Q as [[_ F] _ _ _]. congruence.
Qed.

Lemma run_from_answered e url c more : forall s reply,
  context e url = Some c -> Inv c s -> shape c s -> outcome s = Some reply ->
  let s' := run_from e url more s in
  outcome s' = Some reply /\ db s' = db s /\
  (exists late, log s' = log s ++ late /\ forallb is_task late = true /\
                existsb is_invoke late = false) /\
  (reply_err reply = None -> s' = s).
Proof.
  induction more as [|k more IH]; simpl; intros s reply Hc I S O.
  - splits; auto. exists []. rewrite app_nil_r. auto.
  - destruct (next e url k s) as [s1|] eqn:Hn.
    + destruct (next_context _ _ _ _ _ Hn) as (c' & Hc' & Hs).
      assert (c' = c) by congruence. subst c'.
      destruct (step_answered c k s s1 reply I S O Hs) as (R & O1 & D1 & late & L1 & T1 & V1).
      destruct (IH s1 reply Hc (proj1 (step_preserves c k s s1 I Hs))
                  (step_shape c k s s1 I S Hs) O1) as (O2 & D2 & (late' & L2 & T2 & V2) & _).
      splits.
      * exact O2.
      * congruence.
      * exists (late ++ late'). splits.
        -- rewrite L2, L1, app_assoc. reflexivity.
        -- rewrite forallb_app, T1, T2. reflexivity.
        -- rewrite existsb_app, V1, V2. reflexivity.
      * intros F. contradiction.
    + apply IH; auto.
Qed.

(** X4. The answer is final. Once the caller has been answered, whatever
    completes afterwards leaves the answer and the store as they are,
    appends only events of tasks that were already running, and invokes no
    further task body: a task that was pending stays pending. After an
    answer of success nothing happens at all. *)
Theorem X4_answer_is_final (e : Env) (url : string) (sched more : list TaskKey)
    (reply : Reply) :
  let s := run e url sched in
  let s' := run e url (sched ++ more) in
  outcome s = Some reply ->
  outcome s' = Some reply /\
  db s' = db s /\
  (exists late, log s' = log s ++ late /\
     (forall x, In x late -> exists k a, x = TaskEv k a /\ a <> Invoke)) /\
  (forall k, phase s k = Pending -> phase s' k = Pending) /\
  (reply_err reply = None -> s' = s).
Proof.
  intros s s' O. unfold s, s' in *. clear s s'. rewrite run_app.
  destruct (context e url) as [c|] eqn:Hc.
  - pose proof (run_inv e url c sched Hc) as I.
    pose proof (run_shape e url c sched Hc) as S.
    destruct (run_from_answered e url c more _ reply Hc I S O)
      as (O2 & D2 & (late & L2 & T2 & V2) & F2).
    splits; auto.
    + exists late. split; auto. intros x Hx.
      rewrite forallb_forall in T2. specialize (T2 x Hx).
      destruct x as [k a| | |]; try discriminate. exists k, a. split; auto.
      intros F; subst a. rewrite no_invoke_in in V2. apply (V2 k Hx).
    + intros k Hk.
      destruct (phase (run_from e url more (run e url sched)) k) eqn:Hp; auto; exfalso.
      all: assert (G : In (TaskEv k Invoke) (log (run_from e url more (run e url sched))))
          by (apply (launched_invoked c);
              [rewrite <- run_app; apply run_inv; auto | congruence]).
      all: rewrite L2, in_app_iff in G; destruct G as [G|G];
          [ apply (invoked_launched c _ I k G Hk)
          | rewrite no_invoke_in in V2; apply (V2 k G) ].
  - rewrite run_from_rejected by auto. splits; auto.
    exists []. rewrite app_nil_r. split; auto. intros x [].
Qed.

(** The reports of the fetcher, one completion each. *)
Lemma reports_drain e url c : forall rest s,
  context e url = Some c -> phase s K_issues = Running 0 -> reports s = rest ->
  log (run_from e url (repeat K_issues (List.length rest)) s) =
    log s ++ map (fun p => TaskEv K_issues
                             (Progress {| task := ISSUES; percent := p; msg := None |}))
                 rest /\
  outcome (run_from e url (repeat K_issues (List.length rest)) s) = outcome s.
Proof.
  induction rest as [|p rest IH]; intros s Hc Hp Hr; simpl.
  - rewrite app_nil_r. auto.
  - unfold next. rewrite Hc. unfold step. rewrite Hp, Hr.
    destruct (IH (progress K_issues ISSUES p None (set_reports rest s)) Hc Hp eq_refl)
      as [L O].
    rewrite L, O. simpl. rewrite <- app_assoc. auto.
Qed.

(** X5. Progress after the answer. When the caller has been answered
    while the issue fetch is still in flight, every report the fetcher has
    still to make is emitted as a progress event of the Issues stage all
    the same, in order: these events come after the socket has left the
    room and after the answer, which they do not change. *)
Theorem X5_progress_after_answer (e : Env) (url : string) (sched : list TaskKey)
    (c : Ctx) (reply : Reply) :
  context e url = Some c ->
  let s := run e url sched in
  outcome s = Some reply -> phase s K_issues = Running 0 ->
  let late := map (fun p => TaskEv K_issues
                              (Progress {| task := ISSUES; percent := p; msg := None |}))
                  (reports s) in
  let s' := run e url (sched ++ repeat K_issues (List.length (reports s))) in
  log s' = log s ++ late /\
  outcome s' = Some reply /\
  exists pre post,
    log s' = pre ++ [Leave (repoRoom c); CallerCb reply] ++ post ++ late.
Proof.
  intros Hc s O Hp late s'. unfold s', late, s in *. clear s' late s.
  rewrite run_app.
  destruct (reports_drain e url c _ _ Hc Hp eq_refl) as [L O'].
  rewrite L, O'. splits; auto.
  destruct (answered_log e url sched c reply Hc O) as (pre & post & E).
  exists pre, post. rewrite E, <- !app_assoc. reflexivity.
Qed.

(** ** Runs that fail *)

Lemma rejected_phases e url k : context e url = None -> phase (REPOSITORY_SYNC e url) k = Pending.
Proof.
  intros Hc. destruct (rejected_state e url Hc) as [x ->]. reflexivity.
Qed.

Lemma rejected_outcome e url :
  context e url = None ->
  exists x, outcome (REPOSITORY_SYNC e url) =
            Some {| reply_err := Some x; reply_results := None |}.
Proof.
  intros Hc. destruct (rejected_state e url Hc) as [x ->]. exists x. reflexivity.
Qed.

Lemma pending_silent c s k : Inv c s -> phase s k = Pending -> actions_of k (log s) = [].
Proof.
  intros I H. all_views I.
  destruct k;
    [ rewrite H in VP; inversion VP | rewrite H in VI; inversion VI
    | rewrite H in VR; inversion VR | rewrite H in VW; inversion VW
    | rewrite H in VT; inversion VT ]; flip; auto.
Qed.

Lemma pending_nothing c s k a :
  Inv c s -> phase s k = Pending -> ~ In (TaskEv k a) (log s).
Proof.
  intros I H. rewrite in_actions_of, (pending_silent c s k I H). auto.
Qed.

Lemma pending_store c s : Inv c s -> phase s K_records = Pending -> db s = db0 (env c).
Proof.
  intros I H. pose proof (inv_records _ _ I) as VR. rewrite H in VR.
  inversion VR; flip; auto.
Qed.

(** X6. Every request is answered. Every run can be continued until
    nothing is pending; in a run that has come to rest the caller has been
    answered and no task is still running. The answer is the one of the
    success path, [null] with the results of the run, exactly when all
    five tasks have succeeded, and it is one of the error path, made from
    the error of a task, exactly when some task has failed; a rejected
    request is answered neither. *)
Theorem X6_every_request_answered (e : Env) (url : string) (sched : list TaskKey) :
  (exists more, quiescent e url (run e url (sched ++ more))) /\
  (let s := run e url sched in
   quiescent e url s ->
   exists reply, outcome s = Some reply /\
     (forall k, is_running (phase s k) = false) /\
     (reply = success (results s) <-> forall k, phase s k = Succeeded) /\
     ((exists err r, reply = failure_reply err r) <-> exists k, phase s k = Failed)).
Proof.
  split; [apply run_terminates|].
  intros s Q. unfold s in *. clear s.
  destruct (context e url) as [c|] eqn:Hc.
  - pose proof (run_inv e url c sched Hc) as I.
    pose proof (quiescent_idle e url c _ Hc I Q) as N.
    pose proof (inv_outcome _ _ I) as O. rewrite N in O.
    destruct (hasError (run e url sched)) eqn:E.
    + destruct (lv_failure _ _ (inv_launch _ _ I) E) as [k Hk].
      inversion O as [| |err r idle res TE]. subst. eexists. split; [reflexivity|].
      split; [intros k'; apply idle_phases; auto|]. split; split.
      * intros F. inversion F.
      * intros F. rewrite F in Hk. discriminate.
      * intros _. exists k. exact Hk.
      * intros _. exists err, r. reflexivity.
    + destruct (idle_success c _ I N E) as [O' P]. eexists. split; [exact O'|].
      split; [intros k; apply idle_phases; auto|]. split; split; auto.
      * intros (err & r & F). inversion F.
      * intros (k & Hk). rewrite P in Hk. discriminate.
  - rewrite run_rejected in * by auto.
    destruct (rejected_outcome e url Hc) as [x Hx]. eexists. split; [exact Hx|].
    split; [intros k; rewrite rejected_phases; auto|]. split; split.
    + intros F. inversion F.
    + intros F. specialize (F K_repo). rewrite rejected_phases in F by auto. discriminate.
    + intros (err & r & F). inversion F.
    + intros (k & Hk). rewrite rejected_phases in Hk by auto. discriminate.
Qed.

(** X7. A failed fetch leaves the store alone. When the repository
    lookup or the issue fetch answers with an error, then in every run,
    also before that answer has arrived, the store is the initial one and
    the [records] and [train] tasks never start; when it is the repository
    lookup that fails, the webhook registration never starts either. *)
Theorem X7_failed_fetch_writes_nothing (e : Env) (url : string) (sched : list TaskKey)
    (c : Ctx) :
  context e url = Some c ->
  (exists err, fetched_repo c = inl err) \/ (exists err, fetched_issues c = inl err) ->
  let s := run e url sched in
  db s = db0 e /\
  phase s K_records = Pending /\ phase s K_train = Pending /\
  (forall a, ~ In (TaskEv K_records a) (log s)) /\
  (forall a, ~ In (TaskEv K_train a) (log s)) /\
  ((exists err, fetched_repo c = inl err) ->
   phase s K_webhooks = Pending /\ forall a, ~ In (TaskEv K_webhooks a) (log s)).
Proof.
  intros Hc Hf s. unfold s. clear s.
  pose proof (run_inv e url c sched Hc) as I.
  destruct (context_env _ _ _ Hc) as [He _].
  pose proof (inv_launch _ _ I) as L. all_views I.
  assert (R : phase (run e url sched) K_records = Pending).
  { inversion VR; flip; auto; unify_fetched;
      destruct Hf as [[err Hf]|[err Hf]]; congruence. }
  assert (T : phase (run e url sched) K_train = Pending)
    by (apply (train_pending _ _ L); congruence).
  splits; auto.
  - rewrite (pending_store c _ I R). congruence.
  - intros a. apply (pending_nothing c); auto.
  - intros a. apply (pending_nothing c); auto.
  - intros [err Hr].
    assert (W : phase (run e url sched) K_webhooks = Pending).
    { inversion VW; flip; auto; congruence. }
    split; auto. intros a. apply (pending_nothing c); auto.
Qed.

Lemma sole_failure_reported e url sched c err :
  context e url = Some c ->
  (forall k' err' v, In (TaskEv k' (Callback (Some err') v)) (log (run e url sched)) ->
                     err' = err) ->
  hasError (run e url sched) = true ->
  exists reply, outcome (run e url sched) = Some reply /\
                reply_err reply = Some (answer err).
Proof.
  intros Hc U E.
  destruct (run_shape e url c sched Hc)
    as [body Hl Ht Hf O E' | body Hl Ht Hf O E' N
       | body k err0 r post Hl Ht Hf Hpt Hpi Hg Hr O E']; try congruence.
  assert (err0 = err).
  { apply (U k err0 VUndefined). rewrite Hl. right. rewrite in_app_iff. right. left.
    reflexivity. }
  subst err0. eexists. split; [exact O|reflexivity].
Qed.

Lemma findAll_destroy rid d : Db.findAll rid (Db.destroy rid d) = [].
Proof.
  unfold Db.findAll, Db.destroy. simpl.
  induction (issue_rows d) as [|i l IH]; simpl; auto.
  destruct (Db.belongs rid i) eqn:B; simpl; auto. rewrite B. exact IH.
Qed.

Lemma percents_of_stage c s t :
  Inv c s ->
  percents_of t (log s) =
  map percent (collect (progress_at t) (actions_of (key_of t) (log s))).
Proof. intros I. unfold percents_of. rewrite (progress_of_stage c s t I). reflexivity. Qed.

Ltac in_acts H :=
  unfold records_done, records_destroyed, records_upserted, records_start,
    repo_start, issues_start, webhooks_start, train_start, P in H;
  repeat (rewrite in_app_iff in H || simpl in H);
  repeat match type of H with
         | _ \/ _ => destruct H as [H|H]
         | In _ (report_actions _) => apply in_report_actions in H; destruct H as [? H]
         end;
  try contradiction; try discriminate.

(** X8. A failed persistence stage. When the [records] task has failed
    the caller is answered [err && err.message] for the error of the
    persistence call that failed, and training never starts. How far the stage got shows in its
    progress events and in the store: a failed upsert leaves percent 0 and
    the initial store; a failed deletion leaves percents 0 and 0.5 and the
    repository record written; a failed bulk insert leaves percents 0, 0.5
    and 0.6, the repository record written and no issue of that repository
    in the store, since the old ones were deleted before. *)
Theorem X8_persistence_failure (e : Env) (url : string) (sched : list TaskKey)
    (c : Ctx) (r : Repository) (iss : list Issue) :
  context e url = Some c -> fetched c r iss ->
  let s := run e url sched in
  phase s K_records = Failed ->
  exists err reply,
    outcome s = Some reply /\ reply_err reply = Some (answer err) /\
    phase s K_train = Pending /\ train_calls (log s) = [] /\
    ((Repository_upsert e r = Some err /\
      percents_of DATABASE (log s) = [0] /\ db s = db0 e) \/
     (Repository_upsert e r = None /\ Issue_destroy e (repo_id r) = Some err /\
      percents_of DATABASE (log s) = [0; 1 # 2] /\ db s = Db.upsert r (db0 e)) \/
     (Repository_upsert e r = None /\ Issue_destroy e (repo_id r) = None /\
      Issue_bulkCreate e (attach (repo_id r) iss) = Some err /\
      percents_of DATABASE (log s) = [0; 1 # 2; 6 # 10] /\
      db s = Db.destroy (repo_id r) (Db.upsert r (db0 e)) /\
      Db.findAll (repo_id r) (db s) = [])).
Proof.
  intros Hc Hf s. unfold s. clear s. intros F.
  destruct (context_env _ _ _ Hc) as [He _]. subst e.
  pose proof (run_inv _ url c sched Hc) as I.
  pose proof (inv_launch _ _ I) as L.
  assert (E : hasError (run (env c) url sched) = true) by (apply (error_if _ _ L K_records F)).
  assert (T : phase (run (env c) url sched) K_train = Pending)
    by (apply (train_pending _ _ L); congruence).
  assert (TC : train_calls (log (run (env c) url sched)) = []).
  { rewrite (train_calls_stage c _ I), (pending_silent c _ K_train I T). reflexivity. }
  assert (Only : forall k' err' v,
             In (TaskEv k' (Callback (Some err') v)) (log (run (env c) url sched)) ->
             In (Callback (Some err') v) (actions_of K_records (log (run (env c) url sched)))).
  { intros k' err' v Hin. pose proof (failure_logged c _ I k' err' v Hin) as Fk.
    destruct (lv_rec _ _ L) as [Hrepo Hiss]; [congruence|].
    pose proof (inv_webhooks _ _ I) as VW.
    destruct k'; try congruence.
    - rewrite <- in_actions_of. exact Hin.
    - rewrite Fk in VW. inversion VW. }
  rewrite (percents_of_stage c _ DATABASE I). simpl key_of.
  pose proof (inv_records _ _ I) as VR. rewrite F in VR.
  destruct Hf as [Hr Hi].
  view VR;
    match goal with
    | U : _ = Some ?err |- _ =>
      destruct (sole_failure_reported (env c) url sched c err Hc) as (reply & O & R);
        [ intros k' err' v Hin; apply Only in Hin;
          match goal with Ha : actions_of _ _ = _ |- _ => rewrite Ha in Hin end;
          in_acts Hin; congruence
        | exact E
        | exists err, reply;
          split; [exact O|split; [exact R|split; [exact T|split; [exact TC|]]]] ]
    end.
  - left. splits; auto.
  - right; left. splits; auto.
  - right; right. splits; auto. apply findAll_destroy.
Qed.

(** ** What the tasks hand on *)

Lemma fetched_repo_record c raw :
  repos_get (github c) (owner c) (name c) = inr raw ->
  fetched_repo c = inr (repo_record (env c) raw).
Proof. intros H. unfold fetched_repo. rewrite H. reflexivity. Qed.

Lemma answered_success c s res :
  Inv c s -> outcome s = Some (success res) ->
  res = results s /\ forall k, phase s k = Succeeded.
Proof.
  intros I O. pose proof (inv_outcome _ _ I) as V. rewrite O in V.
  inversion V; flip; unfold success in *.
  split; [congruence|]. eapply idle_success; eauto.
Qed.

(** X9. The access token travels with the repository record. The record
    the [repo] task produces holds the id, the owner's login, the name and
    the description of GitHub's answer and the token of the socket. That
    record is the one given to the upsert, so the token is in the store
    once persistence has succeeded, and it is in the results the caller is
    answered with on success. *)
Theorem X9_token_travels (e : Env) (url : string) (sched : list TaskKey)
    (c : Ctx) (raw : GitHubRepo) :
  context e url = Some c -> repos_get (github c) (owner c) (name c) = inr raw ->
  let s := run e url sched in
  let r := repo_record e raw in
  repo_token r = Some (socket_token e) /\
  (phase s K_repo = Succeeded -> get K_repo (results s) = Some (VRepo r)) /\
  (forall x, In (TaskEv K_records (Called (CUpsert x))) (log s) -> x = r) /\
  (phase s K_records = Succeeded -> In r (repositories (db s))) /\
  (forall res, outcome s = Some (success res) -> get K_repo res = Some (VRepo r)).
Proof.
  intros Hc Hg s r. unfold s, r. clear s r.
  destruct (context_env _ _ _ Hc) as [He _]. subst e.
  pose proof (run_inv _ url c sched Hc) as I.
  pose proof (fetched_repo_record c raw Hg) as Hr.
  assert (R : phase (run (env c) url sched) K_repo = Succeeded ->
              get K_repo (results (run (env c) url sched)) =
              Some (VRepo (repo_record (env c) raw))).
  { intros F. pose proof (inv_repo _ _ I) as VP. rewrite F in VP.
    inversion VP; flip. congruence. }
  splits; auto.
  - intros x Hin. apply in_actions_of in Hin.
    pose proof (inv_records _ _ I) as VR.
    inversion VR; flip; unify_fetched;
      match goal with Ha : actions_of _ _ = _ |- _ => rewrite Ha in Hin end;
      in_acts Hin; congruence.
  - intros F. pose proof (inv_records _ _ I) as VR. rewrite F in VR.
    inversion VR; flip; unify_fetched.
    simpl. apply upsert_rows_in.
  - intros res O. destruct (answered_success c _ res I O) as [-> P]. auto.
Qed.




Lemma collect_persistence_reports l : collect persistence_call (report_actions l) = [].
Proof. induction l as [|p l IH]; simpl; auto. Qed.

Lemma own_persistence_calls c s k :
  Inv c s -> k <> K_records -> collect persistence_call (actions_of k (log s)) = [].
Proof.
  intros I N. all_views I.
  destruct k; try congruence;
    [ inversion VP | inversion VI | inversion VW | inversion VT ];
    flip;
    try match goal with E : actions_of _ _ = _ |- _ => rewrite E end;
    repeat (simpl; first [ rewrite collect_app | rewrite collect_persistence_reports ]);
    simpl; reflexivity.
Qed.

Lemma persistence_calls_stage c s :
  Inv c s ->
  collect_log persistence_call (log s) =
  collect persistence_call (actions_of K_records (log s)).
Proof.
  intros I. apply collect_log_owner. intros k N. apply (own_persistence_calls c s k I N).
Qed.

(** X11. The persistence calls come in order. In every run the calls to
    the persistence layer are an initial piece of: upsert of the fetched
    repository, deletion of its issues, bulk insert of the fetched issues
    with its identity. A call is made only after the previous one has
    succeeded; all three have been made once the stage has succeeded and
    none before it starts. *)
Theorem X11_persistence_calls_in_order (e : Env) (url : string) (sched : list TaskKey)
    (c : Ctx) (r : Repository) (iss : list Issue) :
  context e url = Some c -> fetched c r iss ->
  let s := run e url sched in
  let calls := collect_log persistence_call (log s) in
  let all := [CUpsert r; CDestroy (repo_id r); CBulkCreate (attach (repo_id r) iss)] in
  (exists n, calls = firstn n all) /\
  (In (CDestroy (repo_id r)) calls -> Repository_upsert e r = None) /\
  (In (CBulkCreate (attach (repo_id r) iss)) calls ->
   Repository_upsert e r = None /\ Issue_destroy e (repo_id r) = None) /\
  (phase s K_records = Succeeded -> calls = all) /\
  (phase s K_records = Pending -> calls = []).
Proof.
  intros Hc Hf s calls all. unfold calls, all, s. clear s calls all.
  destruct (context_env _ _ _ Hc) as [He _]. subst e.
  pose proof (run_inv _ url c sched Hc) as I.
  rewrite (persistence_calls_stage c _ I).
  pose proof (inv_records _ _ I) as VR. destruct Hf as [Hr Hi].
  inversion VR; flip; unify_fetched;
    unfold records_done, records_destroyed, records_upserted, records_start;
    simpl; splits; try congruence; try tauto;
    try (intros [F|[F|[F|F]]]; try discriminate; try contradiction; auto; fail);
    try (intros [F|[F|F]]; try discriminate; try contradiction; auto; fail);
    try (intros [F|F]; try discriminate; try contradiction; auto; fail).
  all: first [ exists 0%nat; reflexivity | exists 1%nat; reflexivity
             | exists 2%nat; reflexivity | exists 3%nat; reflexivity ].
Qed.

Lemma step_extends c k s s' :
  Inv c s -> shape c s -> step c k s = Some s' -> exists evs, log s' = log s ++ evs.
Proof.
  intros I S H.
  destruct (step_running _ _ _ _ H) as [pc Hp].
  assert (L : live s).
  { destruct S as [body Hl Ht Hf O E | body Hl Ht Hf O E N
                  | body k0 err r post Hl Ht Hf Hpt Hpi Hg Hr O E].
    - left; auto.
    - rewrite (no_running_false _ _ _ Hp) in N. discriminate.
    - right. split; congruence. }
  destruct (step_live c k s s' L H) as [[evs Q]|[[evs Q]|[err Q]]].
  - exists evs. apply (q_log _ _ _ Q).
  - eexists. apply (cl_log _ _ _ _ Q).
  - eexists. apply (fl_log _ _ _ _ _ Q).
Qed.

Lemma run_from_extends e url c sched : forall s,
  context e url = Some c -> Inv c s -> shape c s ->
  exists evs, log (run_from e url sched s) = log s ++ evs.
Proof.
  induction sched as [|k sched IH]; simpl; intros s Hc I S.
  - exists []. rewrite app_nil_r. reflexivity.
  - destruct (next e url k s) as [s'|] eqn:Hn; auto.
    destruct (next_context _ _ _ _ _ Hn) as (c' & Hc' & Hs).
    assert (c' = c) by congruence. subst c'.
    destruct (step_extends c k s s' I S Hs) as [a Ha].
    destruct (IH s' Hc (proj1 (step_preserves c k s s' I Hs)) (step_shape c k s s' I S Hs))
      as [b Hb].
    exists (a ++ b). rewrite Hb, Ha, app_assoc. reflexivity.
Qed.

Lemma run_opening e url c sched :
  context e url = Some c ->
  exists evs, log (run e url sched) = opening (repoRoom c) (owner c) (name c) ++ evs.
Proof.
  intros Hc. unfold run.
  destruct (run_from_extends e url c sched (REPOSITORY_SYNC e url) Hc) as [evs H].
  - rewrite (start_state _ _ _ Hc). apply Inv_start.
  - rewrite (start_state _ _ _ Hc). apply shape_start.
  - exists evs. rewrite H. rewrite (start_state _ _ _ Hc). reflexivity.
Qed.

Lemma context_accepts e url gh p n :
  socket_github e = Some gh -> env_parseGitHubUrl e url = Some p ->
  pu_name p = Some n -> n <> ""%string ->
  context e url =
  Some {| env := e; github := gh; owner := pu_owner p; name := n;
          repoRoom := ("repo:" ++ match pu_repo p with Some r => r | None => "null" end)%string |}.
Proof.
  intros Hg Hp Hn Ne. unfold context. rewrite Hg, Hp, Hn. simpl.
  destruct (String.eqb n "") eqn:E; [apply String.eqb_eq in E; contradiction|].
  reflexivity.
Qed.

(** X12. The two handlers agree on what a repository URL is. With a
    session, the synchronisation is turned away as invalid exactly when
    the parse handler answers [null] or an object without a name. In the
    other case every run opens the same way: the socket joins the room,
    then the repository lookup and the issue fetch are started, in that
    order, with the owner and the name of the parser's answer. *)
Theorem X12_validation_agrees_with_parser (e : Env) (url : string) (sched : list TaskKey)
    (gh : GitHub) :
  socket_github e = Some gh ->
  let s := run e url sched in
  (rejected_with (Msg invalid_url_message) s <->
   match PARSE_REPOSITORY_URL e url with
   | Some p => pu_name p = None \/ pu_name p = Some ""%string
   | None => True
   end) /\
  (forall p n, PARSE_REPOSITORY_URL e url = Some p -> pu_name p = Some n -> n <> ""%string ->
     let room := ("repo:" ++ match pu_repo p with Some r => r | None => "null" end)%string in
     exists evs, log s = opening room (pu_owner p) n ++ evs).
Proof.
  intros Hg s. unfold s, PARSE_REPOSITORY_URL. clear s. split.
  - split.
    + intros [_ Hl].
      destruct (env_parseGitHubUrl e url) as [p|] eqn:Hp; auto.
      destruct (pu_name p) as [n|] eqn:Hn; auto.
      destruct (string_dec n "") as [->|Ne]; auto. exfalso.
      destruct (run_opening e url _ sched (context_accepts e url gh p n Hg Hp Hn Ne))
        as [evs H].
      rewrite Hl in H. discriminate.
    + intros H.
      assert (M : malformed e url).
      { unfold malformed. destruct (env_parseGitHubUrl e url) as [p|]; auto.
        destruct H as [H|H]; rewrite H; reflexivity. }
      rewrite run_rejected by (apply malformed_context; exact M).
      unfold REPOSITORY_SYNC. rewrite (malformed_context _ _ M), Hg. split; reflexivity.
  - intros p n Hp Hn Ne.
    destruct (run_opening e url _ sched (context_accepts e url gh p n Hg Hp Hn Ne))
      as [evs H].
    exists evs. exact H.
Qed.

(** ** The administrative entry points *)

Lemma find_none_iff rid rows :
  find (fun r => Z.eqb (repo_id r) rid) rows = None <->
  forall r, In r rows -> repo_id r <> rid.
Proof.
  induction rows as [|x rows IH]; simpl.
  - split; auto.
  - destruct (Z.eqb (repo_id x) rid) eqn:E.
    + split; [discriminate|]. intros H. exfalso. apply (H x); auto.
      apply Z.eqb_eq; auto.
    + rewrite IH. split.
      * intros H r [F|F]; [subst; apply Z.eqb_neq; auto|auto].
      * intros H r F. apply H; auto.
Qed.

Lemma find_upserted r rows :
  (forall x, In x rows -> repo_id x = repo_id r -> key x = key r) ->
  find (fun x => Z.eqb (repo_id x) (repo_id r)) (Db.upsert_rows r rows) = Some r.
Proof.
  induction rows as [|x rows IH]; simpl; intros H.
  - rewrite Z.eqb_refl. reflexivity.
  - destruct (Db.same_key x r) eqn:E; simpl.
    + rewrite Z.eqb_refl. reflexivity.
    + destruct (Z.eqb (repo_id x) (repo_id r)) eqn:Ei.
      * apply Z.eqb_eq in Ei. pose proof (H x (or_introl eq_refl) Ei) as K.
        apply same_key_iff in K. congruence.
      * apply IH. intros y Hy. apply H. auto.
Qed.

Lemma findById_persisted r iss d :
  identifies r d -> Db.findById (repo_id r) (fst (persist_records r iss d)) = Some r.
Proof. intros H. unfold Db.findById. simpl. apply find_upserted. exact H. Qed.

(** X13. [Repository.train] for an id the store does not know. An error
    of the lookup is handed on as the rejection. When no stored repository
    has the id, the promise is rejected with the type error of calling a
    method of [null], and neither the issues are loaded nor the trainer
    called. Whenever the promise resolves, a stored repository has that id
    and its issues were asked for. *)
Theorem X13_train_unknown_repository (e : RepositoryModel.TrainEnv) (repoId : Z) :
  (forall err, RepositoryModel.findById_error e = Some err ->
     RepositoryModel.class_train e repoId =
     ([RepositoryModel.FindById repoId], RepositoryModel.Rejected err)) /\
  (RepositoryModel.findById_error e = None ->
   (forall r, In r (repositories (RepositoryModel.store e)) -> repo_id r <> repoId) ->
   RepositoryModel.class_train e repoId =
   ([RepositoryModel.FindById repoId],
    RepositoryModel.Rejected RepositoryModel.type_error)) /\
  (forall effects v,
     RepositoryModel.class_train e repoId = (effects, RepositoryModel.Resolved v) ->
     exists r, In r (repositories (RepositoryModel.store e)) /\ repo_id r = repoId /\
               In (RepositoryModel.FindAll repoId) effects).
Proof.
  unfold RepositoryModel.class_train. splits.
  - intros err H. rewrite H. reflexivity.
  - intros H N. rewrite H.
    apply find_none_iff in N. unfold Db.findById. rewrite N. reflexivity.
  - intros effects v.
    destruct (RepositoryModel.findById_error e); [discriminate|].
    destruct (Db.findById repoId (RepositoryModel.store e)) as [r|] eqn:F; [|discriminate].
    unfold Db.findById in F. pose proof (find_some _ _ F) as [Hin Hid].
    apply Z.eqb_eq in Hid.
    unfold RepositoryModel.instance_train. intros H. inversion H; subst.
    exists r. splits; auto. right. left. reflexivity.
Qed.

(** X14. Training after a synchronisation. On the store a successful
    persistence stage leaves, provided no other stored repository shares
    the identity, [Repository.train] for the identity of the synchronised
    repository calls the trainer exactly once, with its owner and name and
    exactly the issues that were inserted, and resolves. *)
Theorem X14_train_after_sync (e : RepositoryModel.TrainEnv) (r : Repository)
    (iss : list Issue) (d : DB) :
  identifies r d ->
  RepositoryModel.store e = fst (persist_records r iss d) ->
  RepositoryModel.findById_error e = None ->
  RepositoryModel.findAll_error e = None ->
  RepositoryModel.trainer_calls (fst (RepositoryModel.class_train e (repo_id r))) =
    [RepositoryModel.Train (repo_owner r) (repo_name r) (attach (repo_id r) iss) []] /\
  snd (RepositoryModel.class_train e (repo_id r)) = RepositoryModel.Resolved VUndefined.
Proof.
  intros Hid Hs Hf Ha. unfold RepositoryModel.class_train.
  rewrite Hf, Hs, (findById_persisted r iss d Hid).
  unfold RepositoryModel.instance_train. rewrite Ha, Hs, persisted_issues.
  split; [|reflexivity]. simpl.
  destruct (RepositoryModel.train e _ _ _ _); reflexivity.
Qed.

(** X15. Label prediction hands the classifier's answer on. An error of
    the lookup is handed on; an issue without a repository identity, or
    with the identity of no stored repository, is rejected with the type
    error of calling a method of [null] without consulting the classifier;
    for an issue of a stored repository the classifier is consulted once,
    with the owner and the name of that repository, and the promise
    settles as the classifier's does, value or error. *)
Theorem X15_predict_settles_as_classifier (A : Type) (e : Predictor.PredictEnv A)
    (issue : Issue) :
  let result := Predictor.class_predictIssueLabels e issue in
  let lookup := Predictor.FindById (repository_id issue) in
  (forall err, Predictor.findById_error e = Some err ->
     result = ([lookup], Predictor.Rejected err)) /\
  (Predictor.findById_error e = None -> repository_id issue = None ->
     result = ([lookup], Predictor.Rejected Predictor.type_error)) /\
  (forall rid, Predictor.findById_error e = None -> repository_id issue = Some rid ->
     (forall r, In r (repositories (Predictor.store e)) -> repo_id r <> rid) ->
     result = ([lookup], Predictor.Rejected Predictor.type_error)) /\
  (forall rid repo, Predictor.findById_error e = None -> repository_id issue = Some rid ->
     Db.findById rid (Predictor.store e) = Some repo ->
     In repo (repositories (Predictor.store e)) /\ repo_id repo = rid /\
     result = ([lookup; Predictor.Predict (repo_owner repo) (repo_name repo) issue],
               Predictor.classifier_predictIssueLabels e (repo_owner repo) (repo_name repo)
                 issue)).
Proof.
  intros result lookup. unfold result, lookup, Predictor.class_predictIssueLabels.
  clear result lookup. splits.
  - intros err H. rewrite H. reflexivity.
  - intros H N. rewrite H, N. reflexivity.
  - intros rid H N U. rewrite H, N.
    apply find_none_iff in U. unfold Db.findById. rewrite U. reflexivity.
  - intros rid repo H N F. rewrite H, N, F. simpl.
    unfold Db.findById in F. pose proof (find_some _ _ F) as [Hin Hid].
    apply Z.eqb_eq in Hid. auto.
Qed.

(** X16. Every issue a synchronisation stored can be classified. On the
    store a successful persistence stage leaves, provided no other stored
    repository shares the identity, each issue stored for the repository is
    one of the inserted ones, and predicting its labels consults the
    classifier with the owner and the name of the synchronised repository. *)
Theorem X16_predict_after_sync (A : Type) (e : Predictor.PredictEnv A) (r : Repository)
    (iss : list Issue) (d : DB) (i : Issue) :
  identifies r d ->
  Predictor.store e = fst (persist_records r iss d) ->
  Predictor.findById_error e = None ->
  In i (Db.findAll (repo_id r) (Predictor.store e)) ->
  In i (attach (repo_id r) iss) /\
  Predictor.class_predictIssueLabels e i =
  ([Predictor.FindById (Some (repo_id r));
    Predictor.Predict (repo_owner r) (repo_name r) i],
   Predictor.classifier_predictIssueLabels e (repo_owner r) (repo_name r) i).
Proof.
  intros Hid Hs Hf Hin. rewrite Hs, persisted_issues in Hin. split; auto.
  assert (Hr : repository_id i = Some (repo_id r)).
  { unfold attach in Hin. apply in_map_iff in Hin. destruct Hin as (j & <- & _).
    reflexivity. }
  unfold Predictor.class_predictIssueLabels.
  rewrite Hf, Hr, Hs, (findById_persisted r iss d Hid). reflexivity.
Qed.

(** ** Launches, calls and the rest of the store *)

Lemma success_logged c s k v :
  Inv c s -> In (TaskEv k (Callback None v)) (log s) -> phase s k = Succeeded.
Proof.
  rewrite in_actions_of. intros I H. all_views I.
  destruct k;
    [ inversion VP | inversion VI | inversion VR | inversion VW | inversion VT ];
    flip; auto;
    match goal with E : actions_of _ _ = _ |- _ => rewrite E in H end;
    in_acts H.
Qed.

Lemma no_failure_no_error e url c sched :
  context e url = Some c ->
  (forall k err v, ~ In (TaskEv k (Callback (Some err) v)) (log (run e url sched))) ->
  hasError (run e url sched) = false.
Proof.
  intros Hc N.
  destruct (run_shape e url c sched Hc)
    as [body Hl Ht Hf O E | body Hl Ht Hf O E N'
       | body k err r post Hl Ht Hf Hpt Hpi Hg Hr O E]; auto.
  exfalso. apply (N k err VUndefined). rewrite Hl. right. rewrite in_app_iff. right. left.
  reflexivity.
Qed.

(** X17. A task starts as soon as it can. In a run of a validated request
    in which no task has called back with an error, the body of a task has
    been invoked as soon as all its dependencies have called back with
    success; the webhook registration does not wait for the issues. *)
Theorem X17_tasks_start_when_ready (e : Env) (url : string) (sched : list TaskKey)
    (c : Ctx) (k : TaskKey) :
  context e url = Some c ->
  let s := run e url sched in
  (forall d, In d (dependencies k) -> exists v, In (TaskEv d (Callback None v)) (log s)) ->
  (forall k' err v, ~ In (TaskEv k' (Callback (Some err) v)) (log s)) ->
  In (TaskEv k Invoke) (log s).
Proof.
  intros Hc s D N. unfold s in *. clear s.
  pose proof (run_inv e url c sched Hc) as I.
  pose proof (no_failure_no_error e url c sched Hc N) as E.
  pose proof (inv_launch _ _ I) as L.
  assert (S : forall d, In d (dependencies k) -> phase (run e url sched) d = Succeeded).
  { intros d Hd. destruct (D d Hd) as [v Hv]. apply (success_logged c _ d v I Hv). }
  apply (launched_invoked c _ k I).
  destruct k; simpl in S.
  - apply (lv_roots _ _ L).
  - apply (lv_roots _ _ L).
  - apply (lv_rec_started _ _ L E); apply S; auto.
  - apply (lv_web_started _ _ L E); apply S; auto.
  - apply (lv_train_started _ _ L E); apply S; auto.
Qed.

Lemma collect_call_reports x l : collect (call_to x) (report_actions l) = [].
Proof. induction l as [|p l IH]; simpl; auto. Qed.

Ltac calls_tac :=
  unfold records_done, records_destroyed, records_upserted, records_start,
    repo_start, issues_start, webhooks_start, train_start;
  repeat (simpl; first [ rewrite collect_app | rewrite collect_call_reports ]);
  simpl; auto.

Lemma calls_of_task c s x k :
  Inv c s ->
  (List.length (collect (call_to x) (actions_of k (log s))) <= 1)%nat /\
  (k <> caller x -> collect (call_to x) (actions_of k (log s)) = []).
Proof.
  intros I. all_views I.
  destruct k;
    [ inversion VP | inversion VI | inversion VR | inversion VW | inversion VT ];
    flip; destruct x; calls_tac; split; auto; congruence.
Qed.

Lemma calls_of_log c s x :
  Inv c s ->
  collect_log (call_to x) (log s) = collect (call_to x) (actions_of (caller x) (log s)).
Proof.
  intros I. apply collect_log_owner. intros k N. apply (proj2 (calls_of_task c s x k I) N).
Qed.

Lemma Collaborator_eqb_refl x : Collaborator_eqb x x = true.
Proof. destruct x; reflexivity. Qed.

Lemma in_called_collect acts y :
  In (Called y) acts -> collect (call_to (collaborator y)) acts <> [].
Proof.
  induction acts as [|a acts IH]; simpl; [contradiction|].
  intros [H|H].
  - subst a. simpl. rewrite Collaborator_eqb_refl. discriminate.
  - destruct (call_to (collaborator y) a); [discriminate|auto].
Qed.

(** X18. No collaborator is called twice. In every run each of the seven
    collaborators (repository lookup, issue fetch, upsert, deletion, bulk
    insert, webhook registration, trainer) is called at most once, and only
    by the task it belongs to; for a validated request the repository
    lookup and the issue fetch are called exactly once, with the owner and
    the name parsed from the URL. *)
Theorem X18_collaborators_called_once (e : Env) (url : string) (sched : list TaskKey)
    (x : Collaborator) :
  let s := run e url sched in
  (List.length (collect_log (call_to x) (log s)) <= 1)%nat /\
  (forall k y, In (TaskEv k (Called y)) (log s) -> k = caller (collaborator y)) /\
  (forall c, context e url = Some c ->
     collect_log (call_to ReposGet) (log s) = [CReposGet (owner c) (name c)] /\
     collect_log (call_to GetIssues) (log s) = [CGetIssues (owner c) (name c)]).
Proof.
  intros s. unfold s. clear s. splits.
  - destruct (context e url) as [c|] eqn:Hc.
    + pose proof (run_inv e url c sched Hc) as I.
      rewrite (calls_of_log c _ x I). apply (calls_of_task c _ x _ I).
    + rewrite run_rejected by auto.
      destruct (rejected_state e url Hc) as [y ->]. simpl. lia.
  - intros k y Hin. destruct (context e url) as [c|] eqn:Hc.
    + pose proof (run_inv e url c sched Hc) as I.
      destruct (TaskKey_eqb k (caller (collaborator y))) eqn:K;
        [apply TaskKey_eqb_eq; exact K|exfalso].
      apply in_actions_of in Hin.
      apply (in_called_collect _ _ Hin).
      apply (proj2 (calls_of_task c _ (collaborator y) k I)).
      intros F. apply TaskKey_eqb_eq in F. congruence.
    + exfalso. apply (rejected_log e url sched Hc k (Called y) Hin).
  - intros c Hc. pose proof (run_inv e url c sched Hc) as I.
    rewrite !(calls_of_log c _ _ I). simpl caller. split.
    + pose proof (inv_repo _ _ I) as VP. inversion VP; flip; calls_tac.
    + pose proof (inv_issues _ _ I) as VI. inversion VI; flip; calls_tac.
Qed.

Lemma belongs_one rid rid' i :
  rid <> rid' -> Db.belongs rid i = true -> Db.belongs rid' i = false.
Proof.
  unfold Db.belongs. destruct (repository_id i) as [x|]; [|discriminate].
  intros N H. apply Z.eqb_eq in H. subst x. apply Z.eqb_neq. auto.
Qed.

Lemma findAll_destroy_other rid rid' d :
  rid <> rid' -> Db.findAll rid (Db.destroy rid' d) = Db.findAll rid d.
Proof.
  intros N. unfold Db.findAll, Db.destroy. simpl.
  induction (issue_rows d) as [|i l IH]; simpl; auto.
  destruct (Db.belongs rid i) eqn:B.
  - rewrite (belongs_one rid rid' i N B). simpl. rewrite B, IH. reflexivity.
  - destruct (Db.belongs rid' i); simpl; [|rewrite B]; exact IH.
Qed.

Lemma findAll_bulkCreate_other rid rid' l d :
  rid <> rid' ->
  Db.findAll rid (Db.bulkCreate (attach rid' l) d) = Db.findAll rid d.
Proof.
  intros N. unfold Db.findAll, Db.bulkCreate. simpl. rewrite filter_app.
  assert (E : filter (Db.belongs rid) (attach rid' l) = []).
  { induction l as [|i l IH]; simpl; auto.
    rewrite (belongs_one rid' rid _ (not_eq_sym N) (belongs_attached rid' i)). exact IH. }
  rewrite E, app_nil_r. reflexivity.
Qed.

Lemma upsert_rows_keeps r rows x :
  In x rows -> key x <> key r -> In x (Db.upsert_rows r rows).
Proof.
  induction rows as [|y rows IH]; simpl; intros H N; auto.
  destruct (Db.same_key y r) eqn:E; simpl.
  - destruct H as [H|H]; auto. subst y. apply same_key_iff in E. contradiction.
  - destruct H as [H|H]; auto.
Qed.

(** X19. A synchronisation touches one repository only. Let the initial
    store and the fetched repository agree on which row is that
    repository: a stored row has its id exactly when it has its (owner,
    name) pair, so that the repository was neither renamed nor created
    anew since it was stored. Then in every run, finished or not, failed
    or not, the issues stored for any other repository identity are those
    of the initial store, every stored repository with another identity or
    another (owner, name) pair is still stored, and so is every issue that
    does not carry the identity of the fetched repository. *)
Theorem X19_other_repositories_untouched (e : Env) (url : string) (sched : list TaskKey)
    (c : Ctx) (r : Repository) :
  context e url = Some c -> fetched_repo c = inr r -> same_repository r (db0 e) ->
  let s := run e url sched in
  (forall rid, rid <> repo_id r -> Db.findAll rid (db s) = Db.findAll rid (db0 e)) /\
  (forall x, In x (repositories (db0 e)) -> repo_id x <> repo_id r \/ key x <> key r ->
             In x (repositories (db s))) /\
  (forall i, In i (issue_rows (db0 e)) -> repository_id i <> Some (repo_id r) ->
             In i (issue_rows (db s))).
Proof.
  intros Hc Hr Hs s. unfold s. clear s.
  destruct (context_env _ _ _ Hc) as [He _]. subst e.
  pose proof (run_inv _ url c sched Hc) as I.
  pose proof (inv_records _ _ I) as VR.
  assert (K : forall i, repository_id i <> Some (repo_id r) ->
                        negb (Db.belongs (repo_id r) i) = true).
  { intros i N. unfold Db.belongs. destruct (repository_id i) as [x|]; auto.
    apply negb_true_iff, Z.eqb_neq. congruence. }
  assert (D : forall x, In x (repositories (db0 (env c))) ->
                        repo_id x <> repo_id r \/ key x <> key r -> key x <> key r).
  { intros x Hx [N|N] F; [|exact (N F)]. apply N, (Hs x Hx), F. }
  inversion VR; flip; unify_fetched; splits.
  all: try match goal with H : db _ = _ |- _ => rewrite H end.
  all: unfold persist_records; simpl fst.
  all: first
    [ intros rid N;
      rewrite ?findAll_bulkCreate_other, ?findAll_destroy_other by auto; reflexivity
    | intros x Hx N; try (pose proof (D x Hx N) as N'); simpl;
      first [ assumption
            | apply upsert_rows_keeps; solve [auto]
            | apply filter_In; solve [auto]
            | apply in_or_app; left; apply filter_In; solve [auto] ] ].
Qed.

(** ** Interleavings *)

(** At rest the [records] task has run exactly when both fetches
    succeeded, and the store is what the answers of the persistence layer
    make it. *)
Lemma store_at_rest c s :
  Inv c s -> no_running s = true ->
  db s =
  match fetched_repo c, fetched_issues c with
  | inr r, inr iss =>
    match Repository_upsert (env c) r with
    | Some _ => db0 (env c)
    | None =>
      match Issue_destroy (env c) (repo_id r) with
      | Some _ => Db.upsert r (db0 (env c))
      | None =>
        match Issue_bulkCreate (env c) (attach (repo_id r) iss) with
        | Some _ => Db.destroy (repo_id r) (Db.upsert r (db0 (env c)))
        | None => fst (persist_records r iss (db0 (env c)))
        end
      end
    end
  | _, _ => db0 (env c)
  end.
Proof.
  intros I N. pose proof (inv_launch _ _ I) as L. all_views I.
  pose proof (idle_phases s K_repo N) as Rp.
  pose proof (idle_phases s K_issues N) as Ri.
  pose proof (idle_phases s K_records N) as Rr.
  pose proof (idle_phases s K_train N) as Rt.
  pose proof (idle_phases s K_webhooks N) as Rw.
  destruct (lv_roots _ _ L) as [Np Ni].
  destruct (fetched_repo c) as [ep|r] eqn:Hr.
  { inversion VR; flip; auto; unify_fetched; congruence. }
  destruct (fetched_issues c) as [ei|iss] eqn:Hi.
  { inversion VR; flip; auto; unify_fetched; congruence. }
  assert (Sp : phase s K_repo = Succeeded).
  { inversion VP; flip; auto; try congruence.
    match goal with H : phase s K_repo = _ |- _ => rewrite H in Rp end. discriminate. }
  assert (Si : phase s K_issues = Succeeded).
  { inversion VI; flip; auto; try congruence.
    match goal with H : phase s K_issues = _ |- _ => rewrite H in Ri end. discriminate. }
  assert (Nr : phase s K_records <> Pending).
  { destruct (hasError s) eqn:E.
    - destruct (lv_failure _ _ L eq_refl) as [k Hk]. intros F.
      assert (T : phase s K_train = Pending) by (apply (train_pending _ _ L); congruence).
      destruct k; try congruence. rewrite Hk in VW. inversion VW.
    - apply (lv_rec_started _ _ L eq_refl Sp Si). }
  inversion VR; flip; unify_fetched; try congruence;
    try (match goal with H : phase s K_records = Running _ |- _ => rewrite H in Rr end;
         discriminate);
    repeat match goal with
           | H : Repository_upsert _ _ = _ |- _ => rewrite H; clear H
           | H : Issue_destroy _ _ = _ |- _ => rewrite H; clear H
           | H : Issue_bulkCreate _ _ = _ |- _ => rewrite H; clear H
           end; auto.
Qed.

Lemma all_succeeded_others c s :
  Inv c s -> (forall k, phase s k = Succeeded) -> others_succeed c.
Proof.
  intros I H. all_views I.
  rewrite (H K_records) in VR. rewrite (H K_train) in VT.
  inversion VR; flip. inversion VT; flip; unify_fetched.
  - exists r, iss. split; [repeat split; auto|]. left. assumption.
  - exists r, iss. split; [repeat split; auto|]. right. eauto.
Qed.

(** X20. The outcome does not depend on the interleaving. Two runs of
    the same request that have come to rest, whatever the order in which
    the collaborators answered, leave the same store, and the one has
    succeeded in all its tasks and answered success exactly when the other
    has. *)
Theorem X20_outcome_independent_of_schedule (e : Env) (url : string)
    (sched1 sched2 : list TaskKey) :
  let s1 := run e url sched1 in
  let s2 := run e url sched2 in
  quiescent e url s1 -> quiescent e url s2 ->
  db s1 = db s2 /\
  ((forall k, phase s1 k = Succeeded) <-> (forall k, phase s2 k = Succeeded)) /\
  (outcome s1 = Some (success (results s1)) <-> outcome s2 = Some (success (results s2))).
Proof.
  intros s1 s2 Q1 Q2. unfold s1, s2 in *. clear s1 s2.
  destruct (context e url) as [c|] eqn:Hc.
  - pose proof (run_inv e url c sched1 Hc) as I1.
    pose proof (run_inv e url c sched2 Hc) as I2.
    pose proof (quiescent_idle e url c _ Hc I1 Q1) as N1.
    pose proof (quiescent_idle e url c _ Hc I2 Q2) as N2.
    assert (A : forall sa sb, Inv c sa -> Inv c sb -> no_running sb = true ->
                (forall k, phase sa k = Succeeded) -> (forall k, phase sb k = Succeeded)).
    { intros sa sb Ia Ib Nb H.
      apply (idle_success c sb Ib Nb).
      apply (others_succeed_no_error c sb Ib). apply (all_succeeded_others c sa Ia H). }
    assert (B : forall sa, Inv c sa -> no_running sa = true ->
                (outcome sa = Some (success (results sa)) <->
                 forall k, phase sa k = Succeeded)).
    { intros sa Ia Na. split.
      - intros O. apply (answered_success c sa _ Ia O).
      - intros H. apply (idle_success c sa Ia Na).
        apply (others_succeed_no_error c sa Ia). apply (all_succeeded_others c sa Ia H). }
    splits.
    + rewrite (store_at_rest c _ I1 N1), (store_at_rest c _ I2 N2). reflexivity.
    + split; apply A; auto.
    + rewrite (B _ I1 N1), (B _ I2 N2). split; apply A; auto.
  - rewrite !run_rejected by auto. splits; reflexivity.
Qed.

(** ** Running again, racing errors and completion *)

Lemma context_with_store d e url c :
  context e url = Some c -> context (with_store d e) url = Some (over_store d c).
Proof.
  unfold context. simpl. destruct (socket_github e); [|discriminate].
  destruct (env_parseGitHubUrl e url) as [p|]; [|discriminate].
  destruct (pu_name p); [|discriminate].
  destruct (truthy _); [|discriminate].
  intros H. inversion H. reflexivity.
Qed.

Lemma others_succeed_over_store d c : others_succeed c -> others_succeed (over_store d c).
Proof. intros (r & iss & H). exists r, iss. exact H. Qed.

Lemma persist_twice r iss d :
  fst (persist_records r iss (fst (persist_records r iss d))) = fst (persist_records r iss d).
Proof.
  unfold persist_records, Db.bulkCreate, Db.destroy, Db.upsert. simpl.
  rewrite upsert_rows_idem, filter_app, filter_twice, filter_not_attached, app_nil_r.
  reflexivity.
Qed.

Lemma store_after_success c s :
  Inv c s -> (forall k, phase s k = Succeeded) ->
  exists r iss, persisted c r iss /\ db s = fst (persist_records r iss (db0 (env c))).
Proof.
  intros I H. pose proof (inv_records _ _ I) as VR. rewrite (H K_records) in VR.
  inversion VR; flip. exists r, iss.
  match goal with F : fetched _ _ _ |- _ => destruct F end.
  split; [repeat split; auto|]. reflexivity.
Qed.

(** X21. Synchronising again changes nothing. After a run that has come
    to rest with an answer of success, a second run of the same request
    over the store the first one left, with collaborators that answer as
    before, succeeds as well and leaves that store as it is. *)
Theorem X21_resynchronisation_changes_nothing (e : Env) (url : string)
    (sched1 sched2 : list TaskKey) :
  let s1 := run e url sched1 in
  let e' := with_store (db s1) e in
  let s2 := run e' url sched2 in
  quiescent e url s1 -> outcome s1 = Some (success (results s1)) ->
  quiescent e' url s2 ->
  db s2 = db s1 /\ outcome s2 = Some (success (results s2)).
Proof.
  intros s1 e' s2 Q1 O1 Q2. unfold s2, e', s1 in *. clear s2 e' s1.
  destruct (context e url) as [c|] eqn:Hc.
  - pose proof (run_inv e url c sched1 Hc) as I1.
    destruct (answered_success c _ _ I1 O1) as [_ P1].
    pose proof (context_with_store (db (run e url sched1)) e url c Hc) as Hc'.
    pose proof (run_inv _ url _ sched2 Hc') as I2.
    pose proof (quiescent_idle _ url _ _ Hc' I2 Q2) as N2.
    pose proof (others_succeed_over_store (db (run e url sched1)) c
                  (all_succeeded_others c _ I1 P1)) as OS.
    destruct (idle_success _ _ I2 N2 (others_succeed_no_error _ _ I2 OS)) as [O2 P2].
    split; [|exact O2].
    destruct (store_after_success c _ I1 P1) as (r & iss & [[Hr Hi] _] & D1).
    destruct (store_after_success _ _ I2 P2) as (r' & iss' & [[Hr' Hi'] _] & D2).
    assert (r' = r) by (unfold fetched_repo in *; simpl in *; congruence).
    assert (iss' = iss) by (unfold fetched_issues in *; simpl in *; congruence).
    subst r' iss'. rewrite D2. simpl db0. rewrite D1. apply persist_twice.
  - rewrite run_rejected in O1 by auto.
    destruct (rejected_outcome e url Hc) as [x Hx]. rewrite Hx in O1. discriminate.
Qed.

Lemma first_completion e url c k s' :
  context e url = Some c ->
  step c k (auto c (set_reports (fetcher_reports c)
                      (emit (Join (repoRoom c)) (idle (env c))))) = Some s' ->
  run e url [k] = s'.
Proof.
  intros Hc H. unfold run. simpl. unfold next. rewrite Hc.
  rewrite (start_state _ _ _ Hc), H. reflexivity.
Qed.

Lemma run_cons e url k more : run e url (k :: more) = run_from e url more (run e url [k]).
Proof. apply (run_app e url [k] more). Qed.

(** X22. Which error the caller hears depends on the order. When both
    fetches fail (the issue fetch without reporting progress first), the
    caller is answered the error of the repository lookup in every run in
    which that lookup answers first, and the error of the issue fetch in
    every run in which the fetch answers first; the results of the answer
    hold the failing key alone. *)
Theorem X22_error_depends_on_order (e : Env) (url : string) (c : Ctx)
    (err1 err2 : JsError) (more : list TaskKey) :
  context e url = Some c ->
  fetched_repo c = inl err1 -> fetched_issues c = inl err2 -> fetcher_reports c = [] ->
  outcome (run e url (K_repo :: more)) =
    Some (failure_reply err1 [(K_repo, VUndefined)]) /\
  outcome (run e url (K_issues :: more)) =
    Some (failure_reply err2 [(K_issues, VUndefined)]).
Proof.
  intros Hc Hr Hi Hf.
  assert (Gr : repos_get (github c) (owner c) (name c) = inl err1).
  { unfold fetched_repo in Hr. destruct (repos_get _ _ _); congruence. }
  assert (Gi : snd (getIssues (env c) (owner c) (name c)) = inl err2).
  { unfold fetched_issues in Hi. destruct (snd _); congruence. }
  split; rewrite run_cons.
  - assert (O : outcome (run e url [K_repo]) =
                Some (failure_reply err1 [(K_repo, VUndefined)])).
    { erewrite first_completion; [|exact Hc|unfold step; simpl; rewrite Gr; reflexivity].
      reflexivity. }
    apply (run_from_answered e url c more _ _ Hc (run_inv e url c [K_repo] Hc)
             (run_shape e url c [K_repo] Hc) O).
  - assert (O : outcome (run e url [K_issues]) =
                Some (failure_reply err2 [(K_issues, VUndefined)])).
    { erewrite first_completion;
        [|exact Hc|unfold step; simpl; rewrite Hf, Gi; reflexivity].
      reflexivity. }
    apply (run_from_answered e url c more _ _ Hc (run_inv e url c [K_issues] Hc)
             (run_shape e url c [K_issues] Hc) O).
Qed.

Lemma in_percents c s t p :
  Inv c s -> In p (percents_of t (log s)) ->
  exists m, In (P t p m) (actions_of (key_of t) (log s)).
Proof.
  intros I. rewrite (percents_of_stage c s t I).
  generalize (actions_of (key_of t) (log s)). intros acts.
  induction acts as [|a acts IH]; simpl; [contradiction|].
  destruct a as [|d| | |]; simpl; try (intros H; destruct (IH H) as [m Hm]; eauto).
  destruct (Stage_eqb (task d) t) eqn:E.
  - simpl. intros [H|H].
    + exists (msg d). left. unfold P. destruct d as [t' p' m']; simpl in *. subst p'.
      assert (t' = t) by (destruct t', t; simpl in E; congruence). subst t'. reflexivity.
    + destruct (IH H) as [m Hm]; eauto.
  - intros H. destruct (IH H) as [m Hm]; eauto.
Qed.

(** X23. Percent 1 means success. For every stage other than Issues, a
    progress event with percent 1 has been emitted only if the task of the
    stage has succeeded. The Issues stage has forwarded the reports of the
    fetcher received so far, in order, followed by percent 1 only once the
    fetch has succeeded; a failed fetch ends the stage without it. *)
Theorem X23_completion_means_success (e : Env) (url : string) (sched : list TaskKey)
    (c : Ctx) :
  context e url = Some c ->
  let s := run e url sched in
  (forall t, t <> ISSUES -> In 1 (percents_of t (log s)) ->
             phase s (key_of t) = Succeeded) /\
  (exists done, fetcher_reports c = done ++ reports s /\
     percents_of ISSUES (log s) =
     done ++ match phase s K_issues with Succeeded => [1] | _ => [] end) /\
  (phase s K_issues <> Running 0 -> reports s = []).
Proof.
  intros Hc s. unfold s. clear s.
  pose proof (run_inv e url c sched Hc) as I. splits.
  - intros t Nt Hin. destruct (in_percents c _ t 1 I Hin) as [m Hm].
    all_views I.
    destruct t; try congruence; simpl key_of in *;
      [ inversion VP | inversion VR | inversion VW | inversion VT ]; flip; auto;
      match goal with Ha : actions_of _ _ = _ |- _ => rewrite Ha in Hm end;
      in_acts Hm.
  - rewrite (percents_of_stage c _ ISSUES I). simpl key_of.
    pose proof (inv_issues _ _ I) as VI.
    inversion VI; flip.
    + exists done. split; [congruence|].
      simpl. rewrite ?collect_app, collect_reports. simpl.
      rewrite ?app_nil_r, map_map, map_id. reflexivity.
    + exists (fetcher_reports c). split; [rewrite app_nil_r; reflexivity|].
      simpl. rewrite ?collect_app, collect_reports. simpl.
      rewrite map_app, map_map, map_id. reflexivity.
    + exists (fetcher_reports c). split; [rewrite app_nil_r; reflexivity|].
      simpl. rewrite ?collect_app, collect_reports. simpl.
      rewrite ?app_nil_r, map_map, map_id. reflexivity.
  - intros N. pose proof (inv_issues _ _ I) as VI.
    inversion VI; flip; auto. congruence.
Qed.

(** X24. Success is answered last. When the caller of a validated
    request has been answered and no task has called back with an error,
    all five tasks have succeeded by then, the webhook registration
    included, and every key has its entry in the results; the answer is
    the one of the success path and carries those results, and leaving the
    room and the answer are the last two events of the log. *)
Theorem X24_success_is_answered_last (e : Env) (url : string) (sched : list TaskKey)
    (c : Ctx) (reply : Reply) :
  context e url = Some c ->
  let s := run e url sched in
  outcome s = Some reply ->
  (forall k err v, ~ In (TaskEv k (Callback (Some err) v)) (log s)) ->
  reply = success (results s) /\
  (forall k, phase s k = Succeeded /\ has k (results s) = true) /\
  exists body,
    log s = Join (repoRoom c) :: body ++ [Leave (repoRoom c); CallerCb reply].
Proof.
  intros Hc s O NF. unfold s in *. clear s.
  pose proof (run_inv e url c sched Hc) as I.
  destruct (run_shape e url c sched Hc)
    as [body Hl Ht Hf O' E | body Hl Ht Hf O' E N
       | body k err r post Hl Ht Hf Hpt Hpi Hg Hr O' E].
  - congruence.
  - assert (reply = success (results (run e url sched))) by congruence. subst reply.
    destruct (answered_success c _ _ I O') as [_ P].
    splits; auto.
    + intros k. split; [apply P|].
      unfold has. all_views I.
      destruct k;
        [ rewrite (P K_repo) in VP; inversion VP
        | rewrite (P K_issues) in VI; inversion VI
        | rewrite (P K_records) in VR; inversion VR
        | rewrite (P K_webhooks) in VW; inversion VW
        | rewrite (P K_train) in VT; inversion VT ]; reflexivity.
    + exists body. auto.
  - exfalso. apply (NF k err VUndefined). rewrite Hl. right.
    rewrite in_app_iff. right. left. reflexivity.
Qed.

(** ** The concrete request, run *)

Import Scenario.

Lemma e1_context : context e1 url = Some c1.
Proof. reflexivity. Defined.


Lemma e1_persisted : persisted c1 r1 iss1.
Proof. repeat split; reflexivity. Defined.

Lemma e1_quiescent : quiescent e1 url (run e1 url schedule).
Proof. intros k; destruct k; vm_compute; reflexivity. Defined.

(** With one fetched issue the trainer is not called. *)
Example one_issue_skips_training :
  context e2 url = Some c2 /\
  train_calls (log (run e2 url schedule)) = [] /\
  percents_of TRAIN (log (run e2 url schedule)) = [0; 1] /\
  outcome (run e2 url schedule) = Some (success (results (run e2 url schedule))).
Proof. repeat split; vm_compute; reflexivity. Qed.


Lemma C3_witness :
  context e1 url = Some c1 /\ fetched_repo c1 = inr r1 /\ fetched_issues c1 = inr iss1 /\
  (2 <= List.length iss1)%nat /\
  train_calls (log (run e1 url schedule)) = [CTrain "acme" "widgets" (attach 42 iss1) []].
Proof.
  refine (conj e1_context (conj eq_refl (conj eq_refl _))).
  assert (N : (2 <= List.length iss1)%nat) by (simpl; lia).
  split; [exact N|].
  assert (G : phase (run e1 url schedule) K_train = Succeeded)
    by (vm_compute; reflexivity).
  apply (proj2 (proj1 (proj2 (proj2 (C3_training_threshold e1 url schedule c1 r1 iss1
                                        e1_context eq_refl eq_refl))) N)).
  rewrite G. discriminate.
Defined.


Lemma C5_witness :
  context e1 url = Some c1 /\ persisted c1 r1 iss1 /\ List.length iss1 = 3%nat /\
  trainer_answer c1 r1 iss1 = inr summary /\ quiescent e1 url (run e1 url schedule) /\
  get K_records (results (run e1 url schedule)) = Some (VIssues (attach 42 iss1)) /\
  percents_of ISSUES (log (run e1 url schedule)) = [1 # 2; 1; 1].
Proof.
  refine (conj e1_context (conj e1_persisted (conj eq_refl (conj eq_refl
            (conj e1_quiescent _))))).
  pose proof (C5_scenario e1 url schedule c1 r1 iss1 summary
                e1_context e1_persisted eq_refl eq_refl e1_quiescent) as H.
  split.
  - exact (proj1 (proj2 (proj2 (proj2 (proj2 (proj2 (proj2 (proj2 H)))))))).
  - exact (proj1 (proj2 (proj2 (proj2 (proj2 (proj2 H)))))).
Defined.

Lemma C5_counterexample :
  let s := run e1 url schedule in
  List.length three = 3%nat /\
  quiescent e1 url s /\
  outcome s = Some (success (results s)) /\
  percents_of ISSUES (log s) = [1 # 2; 1; 1] /\
  ~ In 0 (percents_of ISSUES (log s)) /\
  existsb (Qeq_bool 0) (percents_of ISSUES (log s)) = false.
Proof.
  cbv zeta.
  assert (E : percents_of ISSUES (log (run e1 url schedule)) = [1 # 2; 1; 1])
    by (vm_compute; reflexivity).
  split; [reflexivity|]. split; [exact e1_quiescent|].
  split; [vm_compute; reflexivity|]. split; [exact E|].
  rewrite E. split; [|reflexivity].
  intros [H|[H|[H|[]]]]; discriminate H.
Qed.

Lemma C6_witness :
  RepositoryModel.findById_error (admin (inr summary)) = None /\
  Db.findById 42 (RepositoryModel.store (admin (inr summary))) = Some r1 /\
  snd (RepositoryModel.class_train (admin (inr summary)) 42) =
    RepositoryModel.Resolved VUndefined /\
  RepositoryModel.trainer_calls (fst (RepositoryModel.class_train (admin (inr summary)) 42)) =
    [RepositoryModel.Train "acme" "widgets" (attach 42 (map transform [found 1; found 2])) []].
Proof.
  refine (conj eq_refl (conj eq_refl _)).
  pose proof (C6_train_repository (admin (inr summary)) 42 r1 eq_refl eq_refl) as H.
  split.
  - exact (proj1 (proj2 H)).
  - exact (proj1 (proj2 (proj2 (proj2 H))) eq_refl).
Defined.

Lemma C6_counterexample :
  Db.findById 42 stored = Some r1 /\
  (let failing := admin (inl train_error) in
   RepositoryModel.trainer_calls (fst (RepositoryModel.class_train failing 42)) <> [] /\
   In (RepositoryModel.LogError train_error) (fst (RepositoryModel.class_train failing 42)) /\
   snd (RepositoryModel.class_train failing 42) = RepositoryModel.Resolved VUndefined /\
   snd (RepositoryModel.class_train failing 42) <> RepositoryModel.Rejected train_error) /\
  (let training := admin (inr summary) in
   snd (RepositoryModel.class_train training 42) = RepositoryModel.Resolved VUndefined /\
   snd (RepositoryModel.class_train training 42) <>
     RepositoryModel.Resolved (VSummary summary)).
Proof.
  split; [reflexivity|]. split; simpl; repeat split; try discriminate; auto 8.
Qed.



Lemma C8_witness :
  nondecreasing (fetcher_reports c1) /\
  (forall p, In p (fetcher_reports c1) -> (p <= 1)%Q) /\
  nondecreasing (percents_of ISSUES (log (run e1 url schedule))) /\
  last (percents_of ISSUES (log (run e1 url schedule))) 0 = 1.
Proof.
  assert (Fn : nondecreasing (fetcher_reports c1)).
  { simpl. split; [unfold Qle; simpl; lia|exact I]. }
  assert (Fb : forall p, In p (fetcher_reports c1) -> (p <= 1)%Q).
  { intros p [H|[H|[]]]; subst; unfold Qle; simpl; lia. }
  pose proof (C8_progress_monotone e1 url schedule ISSUES) as H.
  split; [exact Fn|]. split; [exact Fb|]. split.
  - exact (proj1 (proj2 (proj2 (proj2 H) c1 e1_context)) Fn Fb).
  - apply (proj1 (proj2 H)). vm_compute. reflexivity.
Defined.

Lemma C8_counterexample :
  (forall k, phase (run backwards url schedule) k = Succeeded) /\
  outcome (run backwards url schedule) =
    Some (success (results (run backwards url schedule))) /\
  percents_of ISSUES (log (run backwards url schedule)) = [1; 1 # 2; 1] /\
  ~ nondecreasing (percents_of ISSUES (log (run backwards url schedule))).
Proof.
  assert (E : percents_of ISSUES (log (run backwards url schedule)) = [1; 1 # 2; 1])
    by (vm_compute; reflexivity).
  split; [intros []; vm_compute; reflexivity|].
  split; [vm_compute; reflexivity|]. split; [exact E|].
  rewrite E. simpl. intros [H _]. unfold Qle in H. simpl in H. lia.
Qed.

Lemma C9_witness :
  socket_github e3 = None /\
  rejected_with MISSING_GITHUB (run e3 url schedule) /\
  socket_github e1 <> None /\ malformed e1 "" /\
  rejected_with (Msg invalid_url_message) (run e1 "" schedule).
Proof.
  assert (S : socket_github e1 <> None) by discriminate.
  assert (M : malformed e1 "") by exact I.
  refine (conj eq_refl (conj _ (conj S (conj M _)))).
  - apply (proj1 (C9_validation e3 url schedule) eq_refl).
  - apply (proj2 (C9_validation e1 "" schedule) S M).
Defined.

Lemma C10_witness :
  context e1 url = Some c1 /\ fetched_repo c1 = inr r1 /\
  progress_of WEBHOOK (log (run e1 url schedule)) =
    [ {| task := WEBHOOK; percent := 0; msg := None |};
      {| task := WEBHOOK; percent := 1; msg := Some "Hook already exists"%string |} ].
Proof.
  refine (conj e1_context (conj eq_refl _)).
  assert (G : phase (run e1 url schedule) K_webhooks = Succeeded)
    by (vm_compute; reflexivity).
  destruct (proj1 (C10_webhook_progress e1 url schedule c1 r1 e1_context eq_refl))
    as [(F & _)|[(F & _)|(_ & H & _)]].
  - rewrite G in F. discriminate F.
  - rewrite G in F. discriminate F.
  - exact H.
Defined.

(** ** The requests that run into trouble, run *)

Import Trouble.

Lemma e4_context : context e4 url = Some c4.
Proof. reflexivity. Defined.

Lemma e5_context : context e5 url = Some c5.
Proof. reflexivity. Defined.

Lemma e6_context : context e6 url = Some c6.
Proof. reflexivity. Defined.

Lemma busy_identifies : identifies r1 busy.
Proof.
  intros x [H|[H|[]]]; subst x; simpl; intros F; [discriminate F|reflexivity].
Defined.

Lemma X2_witness :
  context e4 url = Some c4 /\
  filter is_room (log (run e4 url [K_repo])) =
    [Join "repo:acme/widgets"; Leave "repo:acme/widgets"].
Proof.
  split; [exact e4_context|].
  rewrite (proj1 (proj2 (proj2 (X2_room_discipline e4 url [K_repo] c4 e4_context)))).
  vm_compute. reflexivity.
Defined.

Lemma X3_witness :
  context e8 url = Some c8 /\
  In (TaskEv K_repo (Callback (Some nameless) VUndefined)) (log (run e8 url [K_repo])) /\
  (exists err r, outcome (run e8 url [K_repo]) = Some (failure_reply err r)) /\
  outcome (run e8 url [K_repo]) =
    Some {| reply_err := Some NoMessage; reply_results := Some [(K_repo, VUndefined)] |}.
Proof.
  assert (Hc : context e8 url = Some c8) by reflexivity.
  split; [exact Hc|].
  assert (H : In (TaskEv K_repo (Callback (Some nameless) VUndefined))
                (log (run e8 url [K_repo]))).
  { vm_compute. do 6 right. left. reflexivity. }
  split; [exact H|]. split; [|vm_compute; reflexivity].
  apply (proj1 (proj1 (X3_first_error_reported e8 url [K_repo] c8 Hc))).
  exists K_repo, nameless, VUndefined. exact H.
Defined.

Lemma X4_witness :
  let reply := failure_reply not_found [(K_repo, VUndefined)] in
  outcome (run e4 url [K_repo]) = Some reply /\
  outcome (run e4 url ([K_repo] ++ [K_issues; K_issues; K_issues])) = Some reply /\
  db (run e4 url ([K_repo] ++ [K_issues; K_issues; K_issues])) = db (run e4 url [K_repo]).
Proof.
  cbv zeta.
  assert (O : outcome (run e4 url [K_repo]) =
              Some (failure_reply not_found [(K_repo, VUndefined)]))
    by (vm_compute; reflexivity).
  split; [exact O|].
  pose proof (X4_answer_is_final e4 url [K_repo] [K_issues; K_issues; K_issues] _ O) as H.
  split; [exact (proj1 H)|exact (proj1 (proj2 H))].
Defined.

Lemma X5_witness :
  let reply := failure_reply not_found [(K_repo, VUndefined)] in
  context e4 url = Some c4 /\
  outcome (run e4 url [K_repo]) = Some reply /\
  phase (run e4 url [K_repo]) K_issues = Running 0 /\
  reports (run e4 url [K_repo]) = [1 # 2; 1] /\
  log (run e4 url ([K_repo] ++ repeat K_issues (List.length (reports (run e4 url [K_repo])))))
  = log (run e4 url [K_repo]) ++
    map (fun p => TaskEv K_issues (Progress {| task := ISSUES; percent := p; msg := None |}))
        (reports (run e4 url [K_repo])).
Proof.
  cbv zeta.
  assert (O : outcome (run e4 url [K_repo]) =
              Some (failure_reply not_found [(K_repo, VUndefined)]))
    by (vm_compute; reflexivity).
  assert (P : phase (run e4 url [K_repo]) K_issues = Running 0)
    by (vm_compute; reflexivity).
  assert (R : reports (run e4 url [K_repo]) = [1 # 2; 1]) by (vm_compute; reflexivity).
  refine (conj e4_context (conj O (conj P (conj R _)))).
  exact (proj1 (X5_progress_after_answer e4 url [K_repo] c4 _ e4_context O P)).
Defined.

Lemma X7_witness :
  context e4 url = Some c4 /\ fetched_repo c4 = inl not_found /\
  db (run e4 url schedule) = db0 e4 /\
  phase (run e4 url schedule) K_webhooks = Pending.
Proof.
  refine (conj e4_context (conj eq_refl _)).
  pose proof (X7_failed_fetch_writes_nothing e4 url schedule c4 e4_context
                (or_introl (ex_intro _ not_found eq_refl))) as H.
  split; [exact (proj1 H)|].
  exact (proj1 (proj2 (proj2 (proj2 (proj2 (proj2 H))))
                  (ex_intro _ not_found eq_refl))).
Defined.

Lemma e5_fetched : fetched c5 r1 iss1.
Proof. split; reflexivity. Defined.

Lemma X8_witness :
  context e5 url = Some c5 /\ fetched c5 r1 iss1 /\
  phase (run e5 url until_persisted) K_records = Failed /\
  exists err reply,
    outcome (run e5 url until_persisted) = Some reply /\
    reply_err reply = Some (answer err) /\
    phase (run e5 url until_persisted) K_train = Pending.
Proof.
  assert (F : phase (run e5 url until_persisted) K_records = Failed)
    by (vm_compute; reflexivity).
  refine (conj e5_context (conj e5_fetched (conj F _))).
  destruct (X8_persistence_failure e5 url until_persisted c5 r1 iss1 e5_context e5_fetched F)
    as (err & reply & O & R & T & _).
  exists err, reply. exact (conj O (conj R T)).
Defined.

Lemma X9_witness :
  context e1 url = Some c1 /\
  repos_get (github c1) (owner c1) (name c1) = inr widgets /\
  In (repo_record e1 widgets) (repositories (db (run e1 url schedule))) /\
  repo_token (repo_record e1 widgets) = Some "secret-token"%string.
Proof.
  refine (conj e1_context (conj eq_refl _)).
  pose proof (X9_token_travels e1 url schedule c1 widgets e1_context eq_refl) as H.
  split.
  - apply (proj1 (proj2 (proj2 (proj2 H)))). vm_compute. reflexivity.
  - exact (proj1 H).
Defined.

Lemma e1_fetched : fetched c1 r1 iss1.
Proof. split; reflexivity. Defined.


Lemma X12_witness :
  socket_github e1 = Some (client (Some hook_error)) /\
  PARSE_REPOSITORY_URL e1 "github.com" =
    Some {| pu_owner := Some "github.com"%string; pu_name := None; pu_repo := None |} /\
  rejected_with (Msg invalid_url_message) (run e1 "github.com" schedule).
Proof.
  refine (conj eq_refl (conj eq_refl _)).
  apply (proj2 (proj1 (X12_validation_agrees_with_parser e1 "github.com" schedule _ eq_refl))).
  left. reflexivity.
Defined.

Lemma X11_witness :
  context e1 url = Some c1 /\ fetched c1 r1 iss1 /\
  collect_log persistence_call (log (run e1 url schedule)) =
    [CUpsert r1; CDestroy (repo_id r1); CBulkCreate (attach (repo_id r1) iss1)].
Proof.
  refine (conj e1_context (conj e1_fetched _)).
  apply (proj1 (proj2 (proj2 (proj2
           (X11_persistence_calls_in_order e1 url schedule c1 r1 iss1 e1_context e1_fetched))))).
  vm_compute. reflexivity.
Defined.

Lemma X14_witness :
  identifies r1 busy /\
  RepositoryModel.store trainer = fst (persist_records r1 iss1 busy) /\
  RepositoryModel.trainer_calls (fst (RepositoryModel.class_train trainer (repo_id r1))) =
    [RepositoryModel.Train (repo_owner r1) (repo_name r1) (attach (repo_id r1) iss1) []].
Proof.
  refine (conj busy_identifies (conj eq_refl _)).
  exact (proj1 (X14_train_after_sync trainer r1 iss1 busy busy_identifies eq_refl eq_refl
                  eq_refl)).
Defined.

Lemma X16_witness :
  let i := set_repository_id 42 (transform (found 2)) in
  identifies r1 busy /\
  In i (Db.findAll (repo_id r1) (Predictor.store labeller)) /\
  Predictor.class_predictIssueLabels labeller i =
    ([Predictor.FindById (Some (repo_id r1));
      Predictor.Predict (repo_owner r1) (repo_name r1) i],
     Predictor.classifier_predictIssueLabels labeller (repo_owner r1) (repo_name r1) i).
Proof.
  cbv zeta.
  assert (H : In (set_repository_id 42 (transform (found 2)))
                (Db.findAll (repo_id r1) (Predictor.store labeller))).
  { vm_compute. right. left. reflexivity. }
  refine (conj busy_identifies (conj H _)).
  exact (proj2 (X16_predict_after_sync (list string) labeller r1 iss1 busy _ busy_identifies
                  eq_refl eq_refl H)).
Defined.

Lemma X17_witness :
  context e1 url = Some c1 /\
  In (TaskEv K_repo (Callback None (VRepo r1))) (log (run e1 url [K_repo])) /\
  In (TaskEv K_webhooks Invoke) (log (run e1 url [K_repo])).
Proof.
  assert (H : In (TaskEv K_repo (Callback None (VRepo r1))) (log (run e1 url [K_repo]))).
  { vm_compute. do 7 right. left. reflexivity. }
  refine (conj e1_context (conj H _)).
  apply (X17_tasks_start_when_ready e1 url [K_repo] c1 K_webhooks e1_context).
  - intros d [Hd|[]]. subst d. exists (VRepo r1). exact H.
  - intros k' err v F. vm_compute in F.
    repeat (destruct F as [F|F]; [discriminate F|]). exact F.
Defined.

Lemma busy_same_repository : same_repository r1 busy.
Proof.
  intros x [H|[H|[]]]; subst x; simpl; split; intros F;
    first [discriminate F|reflexivity].
Defined.

Lemma X19_witness :
  context e6 url = Some c6 /\ fetched_repo c6 = inr r1 /\ same_repository r1 (db0 e6) /\
  Db.findAll 7 (db (run e6 url schedule)) = [gadget_issue] /\
  In gadgets (repositories (db (run e6 url schedule))).
Proof.
  refine (conj e6_context (conj eq_refl (conj busy_same_repository _))).
  pose proof (X19_other_repositories_untouched e6 url schedule c6 r1 e6_context eq_refl
                busy_same_repository) as H.
  split.
  - rewrite (proj1 H 7%Z) by discriminate. reflexivity.
  - apply (proj1 (proj2 H)); [left; reflexivity|left; discriminate].
Defined.

Lemma e1_quiescent_issues_first : quiescent e1 url (run e1 url issues_first).
Proof. intros k; destruct k; vm_compute; reflexivity. Defined.

Lemma X20_witness :
  quiescent e1 url (run e1 url schedule) /\
  quiescent e1 url (run e1 url issues_first) /\
  log (run e1 url schedule) <> log (run e1 url issues_first) /\
  db (run e1 url schedule) = db (run e1 url issues_first).
Proof.
  refine (conj e1_quiescent (conj e1_quiescent_issues_first _)).
  split.
  - vm_compute. discriminate.
  - exact (proj1 (X20_outcome_independent_of_schedule e1 url schedule issues_first
                    e1_quiescent e1_quiescent_issues_first)).
Defined.

Lemma e7_context : context e7 url = Some c7.
Proof. reflexivity. Defined.

Lemma X21_witness :
  let again := with_store (db (run e1 url schedule)) e1 in
  quiescent e1 url (run e1 url schedule) /\
  outcome (run e1 url schedule) = Some (success (results (run e1 url schedule))) /\
  quiescent again url (run again url issues_first) /\
  db (run again url issues_first) = db (run e1 url schedule).
Proof.
  cbv zeta.
  assert (O : outcome (run e1 url schedule) = Some (success (results (run e1 url schedule))))
    by (vm_compute; reflexivity).
  assert (Q : quiescent (with_store (db (run e1 url schedule)) e1) url
                (run (with_store (db (run e1 url schedule)) e1) url issues_first))
    by (intros k; destruct k; vm_compute; reflexivity).
  refine (conj e1_quiescent (conj O (conj Q _))).
  exact (proj1 (X21_resynchronisation_changes_nothing e1 url schedule issues_first
                  e1_quiescent O Q)).
Defined.

Lemma X22_witness :
  context e7 url = Some c7 /\
  fetched_repo c7 = inl not_found /\ fetched_issues c7 = inl rate_limited /\
  fetcher_reports c7 = [] /\
  outcome (run e7 url [K_repo; K_issues]) =
    Some (failure_reply not_found [(K_repo, VUndefined)]) /\
  outcome (run e7 url [K_issues; K_repo]) =
    Some (failure_reply rate_limited [(K_issues, VUndefined)]).
Proof.
  refine (conj e7_context (conj eq_refl (conj eq_refl (conj eq_refl _)))).
  split.
  - exact (proj1 (X22_error_depends_on_order e7 url c7 not_found rate_limited [K_issues]
                    e7_context eq_refl eq_refl eq_refl)).
  - exact (proj2 (X22_error_depends_on_order e7 url c7 not_found rate_limited [K_repo]
                    e7_context eq_refl eq_refl eq_refl)).
Defined.

Lemma X23_witness :
  context e4 url = Some c4 /\
  (In 1 (percents_of REPO (log (run e4 url schedule))) ->
   phase (run e4 url schedule) K_repo = Succeeded) /\
  phase (run e4 url schedule) K_repo = Failed.
Proof.
  refine (conj e4_context (conj _ _)).
  - apply (proj1 (X23_completion_means_success e4 url schedule c4 e4_context) REPO).
    discriminate.
  - vm_compute. reflexivity.
Defined.

Lemma X24_witness :
  context e1 url = Some c1 /\
  outcome (run e1 url schedule) = Some (success (results (run e1 url schedule))) /\
  (forall k err v,
     ~ In (TaskEv k (Callback (Some err) v)) (log (run e1 url schedule))) /\
  forall k, phase (run e1 url schedule) k = Succeeded /\
            has k (results (run e1 url schedule)) = true.
Proof.
  assert (O : outcome (run e1 url schedule) = Some (success (results (run e1 url schedule))))
    by (vm_compute; reflexivity).
  assert (NF : forall k err v,
             ~ In (TaskEv k (Callback (Some err) v)) (log (run e1 url schedule))).
  { apply no_failure_in. vm_compute. reflexivity. }
  refine (conj e1_context (conj O (conj NF _))).
  exact (proj1 (proj2 (X24_success_is_answered_last e1 url schedule c1 _ e1_context O NF))).
Defined.
